(** * Rusted Moss world: rule compiler and region builder

    A shallow embedding of [worlds/rusted_moss/__init__.py]:
    [stage_generate_early], [create_regions] (with its local [get_parent]),
    [set_rules] and [convert_to_rule], together with the part of the host
    language the compiler relies on ([str.split], [str.replace], [int], the
    formatted strings and [eval] on the expressions the compiler emits).

    Python strings are modelled as Rocq strings, one character per code
    point below 256; Python integers as [Z]; dictionaries as [gmap]s or, where
    the iteration order is observed, as association lists. *)

From Stdlib Require Import ZArith Ascii String Decimal DecimalString DecimalFacts DecimalPos DecimalZ.
From stdpp Require Import base strings gmap list.


Local Open Scope Z_scope.

(* Let [simpl] compute the concatenation of strings with a known prefix. *)
Local Arguments String.append !s1 s2 : simpl nomatch.

(** ** Exceptions and the result monad *)

Inductive exn :=
| SyntaxError
| ValueError
| IndexError
| KeyError
| RecursionError
| Unsupported.  (* valid or invalid Python outside the fragment modelled here *)

Inductive result (A : Type) :=
| Ok (a : A)
| Raise (e : exn).
Arguments Ok {A} a.
Arguments Raise {A} e.

Global Instance result_ret : MRet result := λ A, @Ok A.
Global Instance result_bind : MBind result := λ A B f m,
  match m with Ok a => f a | Raise e => Raise e end.
Global Instance result_fmap : FMap result := λ A B f m,
  match m with Ok a => Ok (f a) | Raise e => Raise e end.

Global Instance exn_eq_dec : EqDecision exn.
Proof. solve_decision. Defined.

(** ** Strings of the host language *)

(** The double quote character. *)
Definition dquote : ascii := Eval cbv in ascii_of_nat 34.

Module PyStr.

(** [str.isspace] on one character: the Unicode white space below 256. *)
Definition is_space (c : ascii) : bool :=
  let n := N_of_ascii c in
  ((9 <=? n) && (n <=? 13) || (28 <=? n) && (n <=? 32)
   || (n =? 133) || (n =? 160))%N.

Fixpoint snoc (s : string) (c : ascii) : string :=
  match s with
  | "" => String c ""
  | String x s' => String x (snoc s' c)
  end.

(** [s.split()]: the maximal runs of characters that are not white space.
    [cur] is the run being read. *)
Fixpoint split_go (cur : string) (s : string) : list string :=
  match s with
  | "" => if decide (cur = "") then [] else [cur]
  | String c s' =>
      if is_space c
      then (if decide (cur = "") then split_go "" s' else cur :: split_go "" s')
      else split_go (snoc cur c) s'
  end.

Definition split (s : string) : list string := split_go "" s.

(** [s.split(sep)] for a one-character separator: empty pieces are kept, and
    the result is never empty. *)
Fixpoint split_on_go (sep : ascii) (cur : string) (s : string) : list string :=
  match s with
  | "" => [cur]
  | String c s' =>
      if Ascii.eqb c sep then cur :: split_on_go sep "" s'
      else split_on_go sep (snoc cur c) s'
  end.

Definition split_on (sep : ascii) (s : string) : list string :=
  split_on_go sep "" s.

(** [s.replace(old, new)] for a one-character [old]. *)
Fixpoint replace (old : ascii) (new : string) (s : string) : string :=
  match s with
  | "" => ""
  | String c s' =>
      if Ascii.eqb c old then new +:+ replace old new s'
      else String c (replace old new s')
  end.

(** [str(n)] for an integer, also what a formatted string inserts. *)
Definition of_int (z : Z) : string := NilZero.string_of_int (Z.to_int z).

(** [str(b)] for a Boolean. *)
Definition of_bool (b : bool) : string := if b then "True" else "False".

Definition is_digit (c : ascii) : bool :=
  let n := N_of_ascii c in ((48 <=? n) && (n <=? 57))%N.

(** The digits of an [int(..)] argument after the sign: underscores may
    stand between two digits, one at a time. [prev] tells whether the
    previous character was a digit. *)
Fixpoint int_digits (prev : bool) (s : string) : option string :=
  match s with
  | "" => if prev then Some "" else None
  | String c s' =>
      if is_digit c then String c <$> int_digits true s'
      else if Ascii.eqb c "_" then (if prev then int_digits false s' else None)
      else None
  end.

(** [int(s)] on a string without white space. *)
Definition to_int (s : string) : result Z :=
  let '(neg, body) :=
    match s with
    | String c s' =>
        if Ascii.eqb c "-" then (true, s')
        else if Ascii.eqb c "+" then (false, s')
        else (false, s)
    | "" => (false, s)
    end in
  match int_digits false body ≫= NilZero.uint_of_string with
  | Some d => Ok (if neg : bool then - Z.of_uint d else Z.of_uint d)
  | None => Raise ValueError
  end.

End PyStr.

(** ** The expressions the compiler emits, and [eval] on them *)

Module PyExpr.

(** The names the emitted expressions use; [NOther] is any other name. *)
Inductive name :=
| NLambda | NState | NHas | NAnd | NOr | NTrue | NFalse
| NOther (s : string).

Definition name_of (s : string) : name :=
  if String.eqb s "lambda" then NLambda
  else if String.eqb s "state" then NState
  else if String.eqb s "has" then NHas
  else if String.eqb s "and" then NAnd
  else if String.eqb s "or" then NOr
  else if String.eqb s "True" then NTrue
  else if String.eqb s "False" then NFalse
  else NOther s.

Inductive token :=
| TName (n : name)
| TNum (s : string)
| TStr (s : string)
| TLpar | TRpar | TDot | TComma | TColon | TMinus.

Global Instance name_eq_dec : EqDecision name.
Proof. solve_decision. Defined.

Global Instance token_eq_dec : EqDecision token.
Proof. solve_decision. Defined.

Inductive mode :=
| MStart
| MName (acc : string)
| MNum (acc : string)
| MStr (acc : string).

Definition is_letter (c : ascii) : bool :=
  let n := N_of_ascii c in
  ((65 <=? n) && (n <=? 90) || (97 <=? n) && (n <=? 122) || (n =? 95))%N.

Definition is_ascii_char (c : ascii) : bool := (N_of_ascii c <? 128)%N.

(** A character a double-quoted literal holds as itself. *)
Definition is_plain (c : ascii) : bool :=
  let n := N_of_ascii c in
  negb ((n =? 0) || (n =? 10) || (n =? 13) || (n =? 34) || (n =? 92))%N.

Definition punct (c : ascii) : option token :=
  if Ascii.eqb c "(" then Some TLpar
  else if Ascii.eqb c ")" then Some TRpar
  else if Ascii.eqb c "." then Some TDot
  else if Ascii.eqb c "," then Some TComma
  else if Ascii.eqb c ":" then Some TColon
  else if Ascii.eqb c "-" then Some TMinus
  else None.

(** The tokenizer, one character at a time. *)
Fixpoint lex (m : mode) (s : string) : result (list token) :=
  match s with
  | "" =>
      match m with
      | MStart => Ok []
      | MName a => Ok [TName (name_of a)]
      | MNum a => Ok [TNum a]
      | MStr _ => Raise SyntaxError
      end
  | String c s' =>
      let start (_ : unit) :=
        if Ascii.eqb c " " then lex MStart s'
        else if Ascii.eqb c dquote then lex (MStr "") s'
        else if is_letter c then lex (MName (String c "")) s'
        else if PyStr.is_digit c then lex (MNum (String c "")) s'
        else match punct c with
             | Some t => cons t <$> lex MStart s'
             | None => Raise Unsupported
             end in
      match m with
      | MStart => start ()
      | MName a =>
          if is_letter c || PyStr.is_digit c then lex (MName (PyStr.snoc a c)) s'
          else if is_ascii_char c && negb (Ascii.eqb c dquote)
          then cons (TName (name_of a)) <$> start ()
          else Raise Unsupported
      | MNum a =>
          if PyStr.is_digit c then lex (MNum (PyStr.snoc a c)) s'
          else if is_letter c || negb (is_ascii_char c) || Ascii.eqb c "."
          then Raise Unsupported
          else cons (TNum a) <$> start ()
      | MStr a =>
          if Ascii.eqb c dquote then cons (TStr a) <$> lex MStart s'
          else if is_plain c then lex (MStr (PyStr.snoc a c)) s'
          else if Ascii.eqb c "\" then Raise Unsupported
          else Raise SyntaxError
      end
  end.

(** The body of a compiled predicate. *)
Inductive expr :=
| EConst (b : bool)
| EHas (item : string) (player : Z) (count : option Z)
| EAnd (l r : expr)
| EOr (l r : expr).

Global Instance expr_eq_dec : EqDecision expr.
Proof. solve_decision. Defined.

(** The value of a decimal literal; a literal with a leading zero is only
    accepted when it is the single digit zero. *)
Definition num_value (s : string) : result Z :=
  match s with
  | String c (String _ _) =>
      if Ascii.eqb c "0" then Raise Unsupported
      else match NilZero.uint_of_string s with
           | Some d => Ok (Z.of_uint d)
           | None => Raise Unsupported
           end
  | _ => match NilZero.uint_of_string s with
         | Some d => Ok (Z.of_uint d)
         | None => Raise Unsupported
         end
  end.

(** An integer argument: a literal, possibly negated. *)
Definition parse_int (ts : list token) : result (Z * list token) :=
  match ts with
  | TNum s :: ts' => n ← num_value s; Ok (n, ts')
  | TMinus :: TNum s :: ts' => n ← num_value s; Ok (- n, ts')
  | _ => Raise Unsupported
  end.

(** The arguments of [state.has], after the opening parenthesis. *)
Definition parse_has_args (ts : list token) : result (expr * list token) :=
  match ts with
  | TStr item :: TComma :: ts1 =>
      '(player, ts2) ← parse_int ts1;
      match ts2 with
      | TRpar :: ts3 => Ok (EHas item player None, ts3)
      | TComma :: ts3 =>
          '(count, ts4) ← parse_int ts3;
          match ts4 with
          | TRpar :: ts5 => Ok (EHas item player (Some count), ts5)
          | _ => Raise Unsupported
          end
      | _ => Raise Unsupported
      end
  | _ => Raise Unsupported
  end.

(** What may follow an operand: an operator, a closing parenthesis or the
    end. Anything else (a call, an attribute, a juxtaposed operand) is
    outside the fragment. *)
Definition after_atom (r : expr * list token) : result (expr * list token) :=
  match r.2 with
  | [] | TRpar :: _ | TName NAnd :: _ | TName NOr :: _ => Ok r
  | _ => Raise Unsupported
  end.

(** Recursive descent along the grammar of the host language:
    a disjunction is conjunctions joined by [or], a conjunction is operands
    joined by [and], both associating to the left. *)
Fixpoint parse_or (fuel : nat) (ts : list token) : result (expr * list token) :=
  match fuel with
  | O => Raise Unsupported
  | S fuel =>
      '(e, ts') ← parse_and fuel ts;
      parse_or_rest fuel e ts'
  end
with parse_or_rest (fuel : nat) (e : expr) (ts : list token) : result (expr * list token) :=
  match fuel with
  | O => Raise Unsupported
  | S fuel =>
      match ts with
      | TName NOr :: ts' =>
          '(e2, ts'') ← parse_and fuel ts';
          parse_or_rest fuel (EOr e e2) ts''
      | _ => Ok (e, ts)
      end
  end
with parse_and (fuel : nat) (ts : list token) : result (expr * list token) :=
  match fuel with
  | O => Raise Unsupported
  | S fuel =>
      '(e, ts') ← parse_atom fuel ts;
      parse_and_rest fuel e ts'
  end
with parse_and_rest (fuel : nat) (e : expr) (ts : list token) : result (expr * list token) :=
  match fuel with
  | O => Raise Unsupported
  | S fuel =>
      match ts with
      | TName NAnd :: ts' =>
          '(e2, ts'') ← parse_atom fuel ts';
          parse_and_rest fuel (EAnd e e2) ts''
      | _ => Ok (e, ts)
      end
  end
with parse_atom (fuel : nat) (ts : list token) : result (expr * list token) :=
  match fuel with
  | O => Raise Unsupported
  | S fuel =>
      match ts with
      | [] => Raise SyntaxError
      | TName NAnd :: _ | TName NOr :: _ => Raise SyntaxError
      | TName NTrue :: ts' => after_atom (EConst true, ts')
      | TName NFalse :: ts' => after_atom (EConst false, ts')
      | TName NState :: TDot :: TName NHas :: TLpar :: ts' =>
          parse_has_args ts' ≫= after_atom
      | TLpar :: ts' =>
          '(e, ts'') ← parse_or fuel ts';
          match ts'' with
          | TRpar :: ts3 => after_atom (e, ts3)
          | [] => Raise SyntaxError
          | _ => Raise Unsupported
          end
      | _ => Raise Unsupported
      end
  end.

(** [eval(source)] for a source text [lambda state: <expression>]: the
    function object is represented by the expression it evaluates. *)
Definition eval (source : string) : result expr :=
  ts ← lex MStart source;
  match ts with
  | TName NLambda :: TName NState :: TColon :: body =>
      '(e, rest) ← parse_or (4 * length body + 4) body;
      match rest with
      | [] => Ok e
      | _ => Raise Unsupported
      end
  | _ => Raise Unsupported
  end.

End PyExpr.

(** ** The inventory state *)

(** Modelled from the spec: [CollectionState] of [BaseClasses], which is not
    part of the sources. An item requirement is satisfied when the inventory
    holds at least [count] units of the item for the player; [count]
    defaults to one. *)
Record CollectionState := { prog_items : Z → string → Z }.

Definition has (state : CollectionState) (item : string) (player : Z) (count : Z) : bool :=
  bool_decide (count ≤ prog_items state player item).

(** Calling a compiled predicate. [and] and [or] of the host language
    evaluate their right operand only when needed and return one of the
    operands; on the Boolean operands of the fragment that is conjunction and
    disjunction. *)
Fixpoint call (f : PyExpr.expr) (state : CollectionState) : bool :=
  match f with
  | PyExpr.EConst b => b
  | PyExpr.EHas item player count => has state item player (default 1 count)
  | PyExpr.EAnd l r => if call l state then call r state else false
  | PyExpr.EOr l r => if call l state then true else call r state
  end.

(** ** The world *)

(** The class and instance attributes the modelled methods read.
    [item_dict] holds the keys of the item table, [options] the fields of the
    options dataclass with the truth value of each, [ending] the value of the
    [ending] option. *)
Record World := {
  player : Z;
  item_dict : list string;
  location_list : list string;
  events : gset string;
  rules : list ((string * string) * string);
  location_to_region : gmap string string;
  options : list (string * bool);
  ending : Z;
}.

Definition base_id : Z := 144000000.

(** [{k: f(k) for k in keys}] merged over [d]: later keys overwrite. *)
Definition dict_comp {V} (f : string → V) (keys : list string)
    (d : gmap string V) : gmap string V :=
  foldl (λ d k, <[k := f k]> d) d keys.

(** [{location: id for id, location in enumerate(location_list, base_id)}] *)
Definition location_name_to_id (w : World) : gmap string Z :=
  foldl (λ d '(i, location), <[location := base_id + Z.of_nat i]> d) ∅
        (imap (λ i location, (i, location)) (location_list w)).

(** The keys of a dictionary built from [keys], in insertion order. *)
Fixpoint dict_keys (seen : gset string) (keys : list string) : list string :=
  match keys with
  | [] => []
  | k :: keys' =>
      if decide (k ∈ seen) then dict_keys seen keys'
      else k :: dict_keys ({[k]} ∪ seen) keys'
  end.

(** ** [convert_to_rule] *)

(** A name between double quotes, as the formatted strings write it. *)
Definition quoted (s : string) : string :=
  String dquote s +:+ String dquote "".

Definition make_has (w : World) (item : string) (count : Z) : string :=
  if decide (1 < count)
  then "state.has(" +:+ quoted item +:+ ", " +:+ PyStr.of_int (player w) +:+ ", "
         +:+ PyStr.of_int count +:+ ")"
  else "state.has(" +:+ quoted item +:+ ", " +:+ PyStr.of_int (player w) +:+ ")".

Definition part_lookup (w : World) : gmap string string :=
  let d := dict_comp (λ c, c) ["("; ")"] ∅ in
  let d := <["+" := " and "]> d in
  let d := <["|" := " or "]> d in
  let d := dict_comp (λ i, make_has w i 1) (item_dict w) d in
  let d := <["Grappling_Hook_Upgrade" := make_has w "Grappling_Hook" 2]> d in
  let d := <["Infinite_Grapple" := make_has w "Grappling_Hook" 3]> d in
  let d := foldl (λ d '(name, value), <[name := PyStr.of_bool value]> d) d (options w) in
  dict_comp (λ i, make_has w i 1) (elements (events w)) d.

(** The loop over the parts. [out] collects what is printed. *)
Fixpoint convert_parts (w : World) (parts : list string) (lambda_string : string)
    (out : list string) : list string * result string :=
  match parts with
  | [] => (out, Ok lambda_string)
  | part :: parts' =>
      let splitPart := PyStr.split_on "{" part in
      match part_lookup w !! part with
      | Some v => convert_parts w parts' (lambda_string +:+ v) out
      | None =>
          if bool_decide (hd "" splitPart ∈ item_dict w) then
            match splitPart !! 1%nat with
            | None => (out, Raise IndexError)
            | Some c =>
                match PyStr.to_int (hd "" (PyStr.split_on "}" c)) with
                | Ok n =>
                    convert_parts w parts'
                      (lambda_string +:+ make_has w (hd "" splitPart) n) out
                | Raise e => (out, Raise e)
                end
            end
          else
            convert_parts w parts' lambda_string
              (out ++ ["unexpected part of rule"; part])
      end
  end.

(** [rule.replace("(", "( ").replace(")", " )")] *)
Definition padded (rule : string) : string :=
  PyStr.replace ")" " )" (PyStr.replace "(" "( " rule).

Definition rule_parts (rule : string) : list string :=
  PyStr.split (padded rule).

(** The text handed to [eval], with what was printed on the way. *)
Definition lambda_text (w : World) (rule : string) : list string * result string :=
  convert_parts w (rule_parts rule) "lambda state: " [].

Definition convert_to_rule (w : World) (rule : string) : list string * result PyExpr.expr :=
  let '(out, r) := lambda_text w rule in (out, r ≫= PyExpr.eval).

(** ** [stage_generate_early] *)

(** [target in cls.location_name_to_id or target in cls.events] *)
Definition known (w : World) (target : string) : bool :=
  bool_decide (is_Some (location_name_to_id w !! target))
  || bool_decide (target ∈ events w).

(** One round of the loop over the rule keys. The state is the counter
    [location_connections] and the dictionary [location_to_region]; [del] on
    a missing key raises. *)
Definition classify (w : World) (st : gmap string nat * gmap string string)
    (key : string * string) : result (gmap string nat * gmap string string) :=
  let '(location_connections, l2r) := st in
  let '(parent, target) := key in
  if negb (known w target) then Ok st
  else
    let n := S (default O (location_connections !! target)) in
    let location_connections := <[target := n]> location_connections in
    if decide (n = 1%nat) then Ok (location_connections, <[target := parent]> l2r)
    else if decide (n = 2%nat) then
      match l2r !! target with
      | Some _ => Ok (location_connections, delete target l2r)
      | None => Raise KeyError
      end
    else Ok (location_connections, l2r).

Fixpoint classify_all (w : World) (st : gmap string nat * gmap string string)
    (keys : list (string * string)) : result (gmap string nat * gmap string string) :=
  match keys with
  | [] => Ok st
  | key :: keys' => st' ← classify w st key; classify_all w st' keys'
  end.

(** [extracted] is what [extract_logic()] returns: the event names and the
    rule table. *)
Definition stage_generate_early (w : World)
    (extracted : gset string * list ((string * string) * string)) : result World :=
  let w := {| player := player w; item_dict := item_dict w;
              location_list := location_list w;
              events := extracted.1; rules := extracted.2;
              location_to_region := ∅;
              options := options w; ending := ending w |} in
  '(_, l2r) ← classify_all w (∅, ∅) (rules w).*1;
  Ok {| player := player w; item_dict := item_dict w;
        location_list := location_list w;
        events := events w; rules := rules w;
        location_to_region := l2r;
        options := options w; ending := ending w |}.

(** ** [create_regions] *)

(** Modelled from the spec: [Region], [Entrance] and [Location] of
    [BaseClasses] and [set_rule] of the generic rules, which are not part of
    the sources. A region is a named node that owns its outgoing edges, each
    with an optional predicate whose absence means unconditional, and its
    locations; a location has a name, a catalogue id (none for an event), an
    owning region, an optional locked item and a gating predicate that
    defaults to always true. Objects are referred to by the name under which
    the registry holds them. *)
Record Entrance := {
  connected_region : string;
  entrance_rule : option PyExpr.expr;
}.

Record Location := {
  location_name : string;
  address : option Z;
  parent_region : string;
  locked_item : option string;
  show_in_spoiler : bool;
  access_rule : option PyExpr.expr;
}.

Record Region := {
  region_name : string;
  exits : list Entrance;
  locations : list Location;
}.

Definition new_region (name : string) : Region :=
  {| region_name := name; exits := []; locations := [] |}.

(** [source.connect(target, rule=rule)] *)
Definition connect (target : string) (rule : option PyExpr.expr) (source : Region) : Region :=
  {| region_name := region_name source;
     exits := exits source ++ [{| connected_region := target; entrance_rule := rule |}];
     locations := locations source |}.

(** [region.locations.append(loc)] *)
Definition append_location (loc : Location) (region : Region) : Region :=
  {| region_name := region_name region;
     exits := exits region;
     locations := locations region ++ [loc] |}.

(** [set_rule(loc, rule)] *)
Definition set_rule (loc : Location) (rule : PyExpr.expr) : Location :=
  {| location_name := location_name loc; address := address loc;
     parent_region := parent_region loc; locked_item := locked_item loc;
     show_in_spoiler := show_in_spoiler loc; access_rule := Some rule |}.

(** Whether the solver may collect a location from its region: the gate,
    always true unless a rule was attached. *)
Definition can_access (loc : Location) (state : CollectionState) : bool :=
  match access_rule loc with
  | Some rule => call rule state
  | None => true
  end.


(** The local state of [create_regions]: the two dictionaries, what was
    printed, and (for the record only) the arguments [convert_to_rule] was
    called with. *)
Record Build := {
  regions : gmap string Region;
  location_rules : gmap string (option PyExpr.expr);
  stdout : list string;
  compiled : list string;
}.

Definition with_regions (b : Build) (r : gmap string Region) : Build :=
  {| regions := r; location_rules := location_rules b;
     stdout := stdout b; compiled := compiled b |}.

(** [get_parent]; [depth] bounds the nesting of the calls as the
    interpreter does. The region is returned by name, with the registry. *)
Fixpoint get_parent (w : World) (depth : nat) (name : string)
    (regions : gmap string Region) : result (string * gmap string Region) :=
  match depth with
  | O => Raise RecursionError
  | S depth =>
      match regions !! name with
      | Some _ => Ok (name, regions)
      | None =>
          match location_to_region w !! name with
          | Some parent => get_parent w depth parent regions
          | None => Ok (name, <[name := new_region name]> regions)
          end
      end
  end.

(** [get_parent(a).connect(get_parent(b), rule=logic)] *)
Definition connect_names (w : World) (depth : nat) (a b : string)
    (logic : option PyExpr.expr) (bd : Build) : result Build :=
  '(ra, regs) ← get_parent w depth a (regions bd);
  '(rb, regs) ← get_parent w depth b regs;
  Ok (with_regions bd (alter (connect rb logic) ra regs)).

(** [None if rule == "" else self.convert_to_rule(rule)] *)
Definition rule_logic (w : World) (rule : string) (bd : Build)
    : result (option PyExpr.expr * Build) :=
  if decide (rule = "") then Ok (None, bd)
  else
    let '(out, r) := convert_to_rule w rule in
    f ← r;
    Ok (Some f, {| regions := regions bd; location_rules := location_rules bd;
                   stdout := stdout bd ++ out;
                   compiled := compiled bd ++ [rule] |}).

(** One round of the loop over [self.rules.items()]. *)
Definition connect_rule (w : World) (depth : nat) (bd : Build)
    (entry : (string * string) * string) : result Build :=
  let '((parent, target), rule) := entry in
  '(logic, bd) ← rule_logic w rule bd;
  if decide (is_Some (location_to_region w !! target)) then
    Ok {| regions := regions bd;
          location_rules := <[target := logic]> (location_rules bd);
          stdout := stdout bd; compiled := compiled bd |}
  else connect_names w depth parent target logic bd.

(** [create_event] followed by the statements of the loop over the events;
    [place] is shared with the loop over the locations. *)
Definition create_event (locationName itemName region : string) : Location :=
  {| location_name := locationName; address := None; parent_region := region;
     locked_item := Some itemName; show_in_spoiler := true; access_rule := None |}.

Definition hide (loc : Location) : Location :=
  {| location_name := location_name loc; address := address loc;
     parent_region := parent_region loc; locked_item := locked_item loc;
     show_in_spoiler := false; access_rule := access_rule loc |}.

(** [rule = location_rules.get(name)], [if rule: set_rule(loc, rule)] and
    [get_parent(name).locations.append(loc)]. A function object is true, the
    marker [None] and a missing entry are false. *)
Definition place (w : World) (depth : nat) (name : string) (loc : Location)
    (bd : Build) : result Build :=
  let loc :=
    match location_rules bd !! name with
    | Some (Some rule) => set_rule loc rule
    | _ => loc
    end in
  '(r, regs) ← get_parent w depth name (regions bd);
  Ok (with_regions bd (alter (append_location loc) r regs)).

Definition add_event (w : World) (depth : nat) (bd : Build) (event : string) : result Build :=
  '(r, regs) ← get_parent w depth event (regions bd);
  place w depth event (hide (create_event event event r)) (with_regions bd regs).

Definition add_location (w : World) (depth : nat) (bd : Build) (location : string) : result Build :=
  '(r, regs) ← get_parent w depth location (regions bd);
  place w depth location
    {| location_name := location; address := location_name_to_id w !! location;
       parent_region := r; locked_item := None; show_in_spoiler := true;
       access_rule := None |}
    (with_regions bd regs).

(** A [for] loop whose body may raise. *)
Fixpoint for_each {A S} (body : S → A → result S) (st : S) (l : list A) : result S :=
  match l with
  | [] => Ok st
  | x :: l' => st' ← body st x; for_each body st' l'
  end.

Definition start_region : string := "rm_start_0[100390]".

Definition create_regions (w : World) (depth : nat) : result Build :=
  let bd := {| regions := ∅; location_rules := ∅; stdout := []; compiled := [] |} in
  bd ← connect_names w depth "Menu" start_region None bd;
  bd ← for_each (connect_rule w depth) bd (rules w);
  bd ← for_each (add_event w depth) bd (elements (events w));
  for_each (add_location w depth) bd (dict_keys ∅ (location_list w)).

(** ** [set_rules] *)

(** The five constants of the [Ending] option class, which is not part of
    the sources. *)
Record Ending := {
  option_ending_a : Z;
  option_ending_b : Z;
  option_ending_c : Z;
  option_ending_d : Z;
  option_ending_e : Z;
}.

Definition goal_event (E : Ending) (w : World) : string :=
  if decide (ending w = option_ending_a E) then "e_goal_a"
  else if decide (ending w = option_ending_b E) then "e_goal_b"
  else if decide (ending w = option_ending_c E) then "e_goal_c"
  else if decide (ending w = option_ending_d E) then "e_goal_d"
  else if decide (ending w = option_ending_e E) then "e_goal_e"
  else "e_goal_e".

(** The completion condition [set_rules] installs for the player. *)
Definition set_rules (E : Ending) (w : World) : CollectionState → bool :=
  λ state, has state (goal_event E w) (player w) 1.

(** * Vocabulary of the statements *)

Import PyExpr.

(** Every character of [s] satisfies [p]. *)
Fixpoint all_chars (p : ascii → bool) (s : string) : bool :=
  match s with
  | "" => true
  | String c s' => p c && all_chars p s'
  end.

(** A character that can stand in a name used as one part of a rule and
    inside the quotes of the emitted text: no white space, parenthesis,
    quote, backslash or null character. *)
Definition name_char (c : ascii) : bool :=
  negb (PyStr.is_space c) && negb (Ascii.eqb c "(") && negb (Ascii.eqb c ")")
  && PyExpr.is_plain c.

(** A name usable as a part: not empty, made of such characters. *)
Definition part_name (s : string) : bool :=
  negb (String.eqb s "") && all_chars name_char s.

(** What a rendered integer is read back as. *)
Definition int_tokens (z : Z) : list PyExpr.token :=
  match z with
  | Z0 => [PyExpr.TNum "0"]
  | Zpos p => [PyExpr.TNum (NilEmpty.string_of_uint (Pos.to_uint p))]
  | Zneg p => [PyExpr.TMinus; PyExpr.TNum (NilEmpty.string_of_uint (Pos.to_uint p))]
  end.

(** The optional third argument of [state.has]. *)
Definition count_arg (count : Z) : option Z :=
  if decide (1 < count) then Some count else None.

(** The tokens of [state.has("item", player)] and of
    [state.has("item", player, count)]. *)
Definition has_tokens (item : string) (player count : Z) : list token :=
  [TName NState; TDot; TName NHas; TLpar; TStr item; TComma]
  ++ int_tokens player
  ++ match count_arg count with
     | Some n => TComma :: int_tokens n ++ [TRpar]
     | None => [TRpar]
     end.

(** A name no item, option or event bears. *)
Definition free_name (w : World) (k : string) : bool :=
  bool_decide (k ∉ item_dict w) && bool_decide (k ∉ (options w).*1)
  && bool_decide (k ∉ events w).

(** The catalogues leave the operators and parentheses alone. *)
Definition operators_kept (w : World) : bool :=
  forallb (free_name w) ["("; ")"; "+"; "|"].

(** An item of the catalogue whose name can be written as a part and is
    neither an option nor one of the two aliases. *)
Definition item_part (w : World) (a : string) : bool :=
  bool_decide (a ∈ item_dict w) && bool_decide (a ∉ (options w).*1)
  && negb (String.eqb a "Grappling_Hook_Upgrade")
  && negb (String.eqb a "Infinite_Grapple")
  && part_name a.

(** The state holds at least [n] units of [item] for the player of [w]. *)
Definition owns (w : World) (state : CollectionState) (item : string) (n : Z) : Prop :=
  n ≤ prog_items state (player w) item.

(** The check [state.has(item, player)] as a compiled predicate. *)
Definition has_item (w : World) (item : string) : expr := EHas item (player w) None.


(** A counted part [key{n}] for an item [key]: the part itself is no entry
    of the lookup table, and [key] holds no brace. *)
Definition counted_part (w : World) (key count : string) : bool :=
  bool_decide (key ∈ item_dict w) && part_name key
  && all_chars (λ c, negb (Ascii.eqb c "{")) key
  && bool_decide (part_lookup w !! (key +:+ "{" +:+ count +:+ "}") = None).

(** ** Example inputs *)

Definition demo_world : World :=
  {| player := 1;
     item_dict := ["A"; "B"; "C"; "Key"; "Grappling_Hook"];
     location_list := [];
     events := ∅;
     rules := [];
     location_to_region := ∅;
     options := [("hard_maya", true); ("deathlink", false)];
     ending := 0 |}.

(** An inventory that holds [n] units of [item] and nothing else. *)
Definition only (item : string) (n : Z) : CollectionState :=
  {| prog_items := λ _ i, if String.eqb i item then n else 0 |}.

(** ** Elision chains and the registry *)

(** The region a name resolves to: the end of its chain of recorded parents,
    followed for at most [depth] names. *)
Fixpoint owner (w : World) (depth : nat) (name : string) : option string :=
  match depth with
  | O => None
  | S depth =>
      match location_to_region w !! name with
      | Some parent => owner w depth parent
      | None => Some name
      end
  end.

(** The registry with a fresh region under [name] unless it holds one. *)
Definition ensure (name : string) (regs : gmap string Region) : gmap string Region :=
  match regs !! name with
  | Some _ => regs
  | None => <[name := new_region name]> regs
  end.

(** No region stands under a name that has an elision mapping. *)
Definition tidy (w : World) (regs : gmap string Region) : Prop :=
  ∀ name, is_Some (regs !! name) → location_to_region w !! name = None.

(** Every chain ends within [depth] names. *)
Definition resolvable (w : World) (depth : nat) : bool :=
  bool_decide (0 < depth)%nat
  && forallb (λ name, bool_decide (is_Some (owner w depth name)))
             (map_to_list (location_to_region w)).*1.

(** What a rule key carries: the marker [None] for the empty text, the
    compiled predicate otherwise. *)
Definition logic_of (w : World) (rule : string) : result (option expr) :=
  if decide (rule = "") then Ok None else Some <$> (convert_to_rule w rule).2.

(** Every rule text of the table that is not empty compiles. *)
Definition compilable (w : World) : bool :=
  forallb (λ entry, match logic_of w entry.2 with Ok _ => true | Raise _ => false end)
          (rules w).

(** The rule keys that target [t]. *)
Definition targeting (t : string) (keys : list (string * string)) : list (string * string) :=
  filter (λ key, key.2 = t) keys.

(** The registry only grows: regions stay, and so do their exits and
    locations. *)
Definition grows (regs regs' : gmap string Region) : Prop :=
  ∀ name R, regs !! name = Some R →
    ∃ R', regs' !! name = Some R'
          ∧ (∀ e, e ∈ exits R → e ∈ exits R')
          ∧ (∀ l, l ∈ locations R → l ∈ locations R').

(** What the loop has recorded after the keys [seen]. *)
Definition classified (w : World) (seen : list (string * string))
    (st : gmap string nat * gmap string string) : Prop :=
  ∀ t,
    default O (st.1 !! t) = (if known w t then length (targeting t seen) else O)
    ∧ st.2 !! t = (if known w t
                   then match targeting t seen with
                        | [key] => Some key.1
                        | _ => None
                        end
                   else None).

(** ** What [create_regions] builds *)

(** The region of a name and the logic of a rule, as total functions; they
    are used where every chain ends and every rule text compiles. *)
Definition own (w : World) (depth : nat) (name : string) : string :=
  default name (owner w depth name).

Definition logic (w : World) (rule : string) : option expr :=
  match logic_of w rule with
  | Ok lg => lg
  | Raise _ => None
  end.

Definition mapped (w : World) (name : string) : Prop :=
  is_Some (location_to_region w !! name).

Definition exits_of (regs : gmap string Region) (name : string) : list Entrance :=
  from_option exits [] (regs !! name).

Definition locations_of (regs : gmap string Region) (name : string) : list Location :=
  from_option locations [] (regs !! name).

(** The first edge, from the root to the start. *)
Definition menu_exit (w : World) (depth : nat) (name : string) : list Entrance :=
  if decide (own w depth "Menu" = name)
  then [{| connected_region := own w depth start_region; entrance_rule := None |}]
  else [].

(** The edge a rule key adds to the region [name]: none when its target is
    elided, else one from the region of its parent to its target. *)
Definition rule_exit (w : World) (depth : nat) (name : string)
    (entry : (string * string) * string) : list Entrance :=
  if decide (mapped w entry.1.2) then []
  else if decide (own w depth entry.1.1 = name)
       then [{| connected_region := entry.1.2; entrance_rule := logic w entry.2 |}]
       else [].

Definition exits_built (w : World) (depth : nat)
    (seen : list ((string * string) * string)) (name : string) : list Entrance :=
  menu_exit w depth name ++ (seen ≫= rule_exit w depth name).

(** The regions a rule key registers. *)
Definition rule_regions (w : World) (depth : nat)
    (entry : (string * string) * string) : list string :=
  if decide (mapped w entry.1.2) then [] else [own w depth entry.1.1; entry.1.2].

Definition regions_built (w : World) (depth : nat)
    (seen : list ((string * string) * string)) : gset string :=
  {[own w depth "Menu"; own w depth start_region]}
  ∪ list_to_set (seen ≫= rule_regions w depth).

(** The logic stashed for the elided targets. *)
Definition stash_built (w : World) (seen : list ((string * string) * string))
    : gmap string (option expr) :=
  foldl (λ d entry, if decide (mapped w entry.1.2)
                    then <[entry.1.2 := logic w entry.2]> d else d)
        ∅ seen.

(** The non-empty rule texts, in order. *)
Definition compiled_built (seen : list ((string * string) * string)) : list string :=
  filter (λ rule, rule ≠ "") seen.*2.

(** [if rule: set_rule(loc, rule)] against a stash. *)
Definition attach (stash : gmap string (option expr)) (name : string)
    (loc : Location) : Location :=
  match stash !! name with
  | Some (Some rule) => set_rule loc rule
  | _ => loc
  end.

Definition event_built (w : World) (depth : nat) (event : string) : Location :=
  attach (stash_built w (rules w)) event
         (hide (create_event event event (own w depth event))).

Definition location_built (w : World) (depth : nat) (location : string) : Location :=
  attach (stash_built w (rules w)) location
         {| location_name := location; address := location_name_to_id w !! location;
            parent_region := own w depth location; locked_item := None;
            show_in_spoiler := true; access_rule := None |}.

(** The objects placed in the region [name] for the names [seen]. *)
Definition placed (w : World) (depth : nat) (make : string → Location)
    (seen : list string) (name : string) : list Location :=
  seen ≫= λ x, if decide (own w depth x = name) then [make x] else [].

(** The state of [create_regions] after the rule keys [seen]. *)
Definition built_rules (w : World) (depth : nat)
    (seen : list ((string * string) * string)) (bd : Build) : Prop :=
  tidy w (regions bd)
  ∧ dom (regions bd) = regions_built w depth seen
  ∧ (∀ name, exits_of (regions bd) name = exits_built w depth seen name)
  ∧ (∀ name, locations_of (regions bd) name = [])
  ∧ location_rules bd = stash_built w seen
  ∧ compiled bd = compiled_built seen.

(** The state after the rule table and then the names [seen] of one of the
    two later loops; [before] are the objects placed earlier. *)
Definition built_places (w : World) (depth : nat) (make : string → Location)
    (before : string → list Location) (extra : gset string)
    (seen : list string) (bd : Build) : Prop :=
  tidy w (regions bd)
  ∧ dom (regions bd)
    = regions_built w depth (rules w) ∪ extra ∪ list_to_set (own w depth <$> seen)
  ∧ (∀ name, exits_of (regions bd) name = exits_built w depth (rules w) name)
  ∧ (∀ name, locations_of (regions bd) name
             = before name ++ placed w depth make seen name)
  ∧ location_rules bd = stash_built w (rules w)
  ∧ compiled bd = compiled_built (rules w).

(** What [create_regions] returns. *)
Definition built (w : World) (depth : nat) (bd : Build) : Prop :=
  tidy w (regions bd)
  ∧ dom (regions bd)
    = regions_built w depth (rules w)
      ∪ list_to_set (own w depth <$> elements (events w))
      ∪ list_to_set (own w depth <$> dict_keys ∅ (location_list w))
  ∧ (∀ name, exits_of (regions bd) name = exits_built w depth (rules w) name)
  ∧ (∀ name, locations_of (regions bd) name
             = placed w depth (event_built w depth) (elements (events w)) name
               ++ placed w depth (location_built w depth)
                    (dict_keys ∅ (location_list w)) name)
  ∧ location_rules bd = stash_built w (rules w)
  ∧ compiled bd = compiled_built (rules w).

(** The rule table and catalogue of the examples: [L1] and [L2] hang on one
    parent each, [L3] on two, the event [ev] on [L3]; [X] and [Y] are in no
    catalogue. *)
Definition demo_base : World :=
  {| player := 1;
     item_dict := ["A"; "B"; "C"; "Key"; "Grappling_Hook"];
     location_list := ["L1"; "L2"; "L3"];
     events := ∅;
     rules := [];
     location_to_region := ∅;
     options := [("hard_maya", true); ("deathlink", false)];
     ending := 0 |}.

Definition demo_rules : list ((string * string) * string) :=
  [ (("rm_start_0[100390]", "L1"), "");
    (("L1", "L2"), "A");
    (("rm_start_0[100390]", "L3"), "B");
    (("L1", "L3"), "");
    (("L3", "ev"), "Key{2}");
    (("X", "Y"), "") ].

Definition demo_events : gset string := {["ev"]}.

Definition demo_graph : World :=
  {| player := 1;
     item_dict := ["A"; "B"; "C"; "Key"; "Grappling_Hook"];
     location_list := ["L1"; "L2"; "L3"];
     events := demo_events;
     rules := demo_rules;
     location_to_region :=
       {["L1" := "rm_start_0[100390]"; "L2" := "L1"; "ev" := "L3"]};
     options := [("hard_maya", true); ("deathlink", false)];
     ending := 0 |}.

(** Two locations that are each other's only parent. *)
Definition cycle_rules : list ((string * string) * string) :=
  [ (("L2", "L1"), ""); (("L1", "L2"), "A") ].

Definition cycle_graph : World :=
  {| player := 1;
     item_dict := ["A"; "B"; "C"; "Key"; "Grappling_Hook"];
     location_list := ["L1"; "L2"; "L3"];
     events := ∅;
     rules := cycle_rules;
     location_to_region := {["L1" := "L2"; "L2" := "L1"]};
     options := [("hard_maya", true); ("deathlink", false)];
     ending := 0 |}.

(** The constants of the option, numbered from zero. *)
Definition demo_ending : Ending :=
  {| option_ending_a := 0; option_ending_b := 1; option_ending_c := 2;
     option_ending_d := 3; option_ending_e := 4 |}.

(** * Items: [item_name_to_id], [create_item], [create_items] *)

(** Modelled from the spec: [RustedMossItem], an [Item] of [BaseClasses],
    which is not part of the sources: a name, a classification, a code (none
    for the marker an event holds) and the owning player. *)
Record Item := {
  item_name : string;
  classification : Z;
  code : option Z;
  item_player : Z;
}.

(** A dictionary written as the list of its entries: a later entry for a key
    replaces the value, the key keeps its place. *)
Definition dict_of {V} (entries : list (string * V)) : gmap string V :=
  foldl (λ d entry, <[entry.1 := entry.2]> d) ∅ entries.

(** [d.items()] *)
Definition dict_items {V} (entries : list (string * V)) : list (string * V) :=
  omap (λ k, pair k <$> dict_of entries !! k) (dict_keys ∅ entries.*1).

(** [{item: id for id, item in enumerate(item_dict.keys(), base_id)}], for
    the item table [entries] of name, classification and count. *)
Definition item_name_to_id (entries : list (string * (Z * Z))) : gmap string Z :=
  foldl (λ d '(i, item), <[item := base_id + Z.of_nat i]> d) ∅
        (imap (λ i item, (i, item)) (dict_keys ∅ entries.*1)).

(** [create_item]; a subscript with a missing key raises. *)
Definition create_item (player : Z) (entries : list (string * (Z * Z)))
    (item : string) : result Item :=
  match dict_of entries !! item with
  | None => Raise KeyError
  | Some value =>
      match item_name_to_id entries !! item with
      | None => Raise KeyError
      | Some id =>
          Ok {| item_name := item; classification := value.1;
                code := Some id; item_player := player |}
      end
  end.

(** [range(n)] *)
Definition range (n : Z) : list nat := seq 0 (Z.to_nat n).

(** [create_items], on the item pool of the multiworld. *)
Definition create_items (player : Z) (entries : list (string * (Z * Z)))
    (itempool : list Item) : result (list Item) :=
  for_each
    (λ pool entry,
       for_each (λ pool (_ : nat),
                   item ← create_item player entries entry.1;
                   Ok (pool ++ [item]))
                pool (range entry.2.2))
    itempool (dict_items entries).

(** An item table for the examples. *)
Definition demo_items : list (string * (Z * Z)) :=
  [("Grappling_Hook", (1, 3)); ("Key", (1, 2)); ("Coin", (0, 0))].

(** * Vocabulary of the further properties *)

(** A character of a count between braces: one that can stand in a part,
    and no brace. *)
Definition count_char (c : ascii) : bool :=
  name_char c && negb (Ascii.eqb c "{") && negb (Ascii.eqb c "}").

(** A part the lookup table does not know and that is no counted item: the
    loop prints it and goes on. *)
Definition unknown_part (w : World) (part : string) : Prop :=
  part_lookup w !! part = None ∧ hd "" (PyStr.split_on "{" part) ∉ item_dict w.

(** What the loop prints for the parts it does not know. *)
Definition reported (parts : list string) : list string :=
  parts ≫= λ part, ["unexpected part of rule"; part].

(** The pieces of a text, put end to end. *)
Definition joined (pieces : list string) : string := foldr String.append "" pieces.

(** The items [create_items] makes for one entry of the item table: as many
    as its count says. *)
Definition copies (player : Z) (entries : list (string * (Z * Z)))
    (entry : string * (Z * Z)) : list Item :=
  replicate (Z.to_nat entry.2.2)
            {| item_name := entry.1; classification := entry.2.1;
               code := item_name_to_id entries !! entry.1; item_player := player |}.

(** A registry in which every region bears the name it stands under, every
    object lies in the region it names as its parent, and every edge leads
    to a region of the registry. *)
Definition wellformed (regs : gmap string Region) : Prop :=
  ∀ name R, regs !! name = Some R →
    region_name R = name
    ∧ (∀ loc, loc ∈ locations R → parent_region loc = name)
    ∧ (∀ e, e ∈ exits R → is_Some (regs !! connected_region e)).

(** ** Further example inputs *)



(** A rule table whose second text does not compile: [Bogus] is no part the
    compiler knows. *)
Definition broken_rules : list ((string * string) * string) :=
  [ (("rm_start_0[100390]", "L3"), "B");
    (("L3", "Y"), "A + Bogus");
    (("L3", "ev"), "Key{2}") ].

Definition broken_graph : World :=
  {| player := 1;
     item_dict := ["A"; "B"; "C"; "Key"; "Grappling_Hook"];
     location_list := ["L1"; "L2"; "L3"];
     events := demo_events;
     rules := broken_rules;
     location_to_region :=
       {["L1" := "rm_start_0[100390]"; "L2" := "L1"; "ev" := "L3"]};
     options := [("hard_maya", true); ("deathlink", false)];
     ending := 0 |}.
(** * Properties *)

Local Set Warnings "-clear-no-such-hyp".

(** ** Strings *)




Lemma app_snoc (a : string) (c : ascii) (s : string) :
  PyStr.snoc a c +:+ s = a +:+ String c s.
Proof. induction a as [|x a IH]; simpl; [done|by rewrite IH]. Qed.

Lemma app_empty_r (s : string) : s +:+ "" = s.
Proof. induction s as [|c s IH]; simpl; [done|by rewrite IH]. Qed.

Lemma app_assoc' (a b c : string) : (a +:+ b) +:+ c = a +:+ (b +:+ c).
Proof. induction a as [|x a IH]; simpl; [done|by rewrite IH]. Qed.

Lemma all_chars_impl (p q : ascii → bool) (s : string) :
  (∀ c, p c = true → q c = true) → all_chars p s = true → all_chars q s = true.
Proof.
  intros Hpq. induction s as [|c s IH]; simpl; [done|].
  intros [Hc Hs]%andb_prop. rewrite (Hpq _ Hc). by apply IH.
Qed.

Lemma part_name_chars (s : string) :
  part_name s = true → s ≠ "" ∧ all_chars name_char s = true.
Proof.
  unfold part_name. intros [Hne Hs]%andb_prop. split; [|done].
  intros ->. done.
Qed.

Lemma split_go_word (w : string) : ∀ cur rest,
  all_chars (λ c, negb (PyStr.is_space c)) w = true →
  PyStr.split_go cur (w +:+ rest) = PyStr.split_go (cur +:+ w) rest.
Proof.
  induction w as [|c w IH]; intros cur rest; simpl.
  - by rewrite app_empty_r.
  - intros [Hc Hw]%andb_prop. apply negb_true_iff in Hc. rewrite Hc.
    rewrite IH by done. by rewrite app_snoc.
Qed.

Lemma replace_word (old : ascii) (new w : string) : ∀ rest,
  all_chars (λ c, negb (Ascii.eqb c old)) w = true →
  PyStr.replace old new (w +:+ rest) = w +:+ PyStr.replace old new rest.
Proof.
  induction w as [|c w IH]; intros rest; simpl; [done|].
  intros [Hc Hw]%andb_prop. apply negb_true_iff in Hc. rewrite Hc.
  by rewrite IH.
Qed.

Lemma split_on_go_word (sep : ascii) (w : string) : ∀ cur rest,
  all_chars (λ c, negb (Ascii.eqb c sep)) w = true →
  PyStr.split_on_go sep cur (w +:+ rest) = PyStr.split_on_go sep (cur +:+ w) rest.
Proof.
  induction w as [|c w IH]; intros cur rest; simpl.
  - by rewrite app_empty_r.
  - intros [Hc Hw]%andb_prop. apply negb_true_iff in Hc. rewrite Hc.
    rewrite IH by done. by rewrite app_snoc.
Qed.

Lemma name_char_no_space c : name_char c = true → negb (PyStr.is_space c) = true.
Proof. unfold name_char. by intros [[[? ?]%andb_prop ?]%andb_prop ?]%andb_prop. Qed.

Lemma name_char_no_lpar c : name_char c = true → negb (Ascii.eqb c "(") = true.
Proof. unfold name_char. by intros [[[? ?]%andb_prop ?]%andb_prop ?]%andb_prop. Qed.

Lemma name_char_no_rpar c : name_char c = true → negb (Ascii.eqb c ")") = true.
Proof. unfold name_char. by intros [[[? ?]%andb_prop ?]%andb_prop ?]%andb_prop. Qed.

Lemma name_char_plain c : name_char c = true → PyExpr.is_plain c = true.
Proof. unfold name_char. by intros [[[? ?]%andb_prop ?]%andb_prop ?]%andb_prop. Qed.

(** ** The tokenizer on the emitted text *)

Lemma is_plain_not_quote c : PyExpr.is_plain c = true → Ascii.eqb c dquote = false.
Proof.
  intros H. destruct (Ascii.eqb_spec c dquote) as [->|]; [|done].
  by vm_compute in H.
Qed.

Lemma lex_str (s : string) : ∀ acc rest,
  all_chars PyExpr.is_plain s = true →
  PyExpr.lex (PyExpr.MStr acc) (s +:+ String dquote rest)
  = cons (PyExpr.TStr (acc +:+ s)) <$> PyExpr.lex PyExpr.MStart rest.
Proof.
  induction s as [|c s IH]; intros acc rest; simpl.
  - by rewrite app_empty_r.
  - intros [Hc Hs]%andb_prop. rewrite (is_plain_not_quote _ Hc), Hc.
    rewrite IH by done. by rewrite app_snoc.
Qed.

Lemma lex_digits (d : uint) : ∀ acc rest,
  PyExpr.lex (PyExpr.MNum acc) (NilEmpty.string_of_uint d +:+ rest)
  = PyExpr.lex (PyExpr.MNum (acc +:+ NilEmpty.string_of_uint d)) rest.
Proof.
  induction d; intros acc rest; simpl;
    rewrite ?app_empty_r; try done;
    rewrite IHd; by rewrite app_snoc.
Qed.


Lemma lex_digits_start (d : uint) (rest : string) :
  d ≠ Nil →
  PyExpr.lex PyExpr.MStart (NilEmpty.string_of_uint d +:+ rest)
  = PyExpr.lex (PyExpr.MNum (NilEmpty.string_of_uint d)) rest.
Proof.
  intros Hd. destruct d; try done; simpl; by rewrite lex_digits.
Qed.

Lemma string_of_uint_nonnil (d : uint) :
  d ≠ Nil → NilZero.string_of_uint d = NilEmpty.string_of_uint d.
Proof. by destruct d. Qed.

(** A rendered integer followed by a closing parenthesis or a comma. *)
Lemma lex_int (z : Z) (c : ascii) (rest : string) :
  c = ")"%char ∨ c = ","%char →
  PyExpr.lex PyExpr.MStart (PyStr.of_int z +:+ String c rest)
  = app (int_tokens z) <$> PyExpr.lex PyExpr.MStart (String c rest).
Proof.
  intros Hc. unfold PyStr.of_int.
  assert (Hnum : ∀ a, PyExpr.lex (PyExpr.MNum a) (String c rest)
                      = cons (PyExpr.TNum a) <$> PyExpr.lex PyExpr.MStart (String c rest)).
  { intros a. destruct Hc as [-> | ->]; done. }
  assert (Hzero : PyExpr.lex PyExpr.MStart (String "0" (String c rest))
                  = cons (PyExpr.TNum "0") <$> PyExpr.lex PyExpr.MStart (String c rest)).
  { destruct Hc as [-> | ->]; done. }
  remember (PyExpr.lex PyExpr.MStart (String c rest)) as X eqn:HX.
  destruct z as [|p|p]; [|simpl..].
  - change (PyExpr.lex PyExpr.MStart (String "0" (String c rest))
            = app [PyExpr.TNum "0"] <$> X).
    rewrite Hzero. by destruct X.
  - rewrite string_of_uint_nonnil by apply Unsigned.to_uint_nonnil.
    rewrite lex_digits_start by apply Unsigned.to_uint_nonnil.
    rewrite Hnum. by destruct X.
  - rewrite string_of_uint_nonnil by apply Unsigned.to_uint_nonnil.
    rewrite lex_digits_start by apply Unsigned.to_uint_nonnil.
    rewrite Hnum. by destruct X.
Qed.
Lemma to_uint_head (p : positive) (d : uint) : Pos.to_uint p ≠ D0 d.
Proof.
  intros H.
  pose proof (DecimalPos.Unsigned.to_of (Pos.to_uint p)) as Hn.
  rewrite DecimalPos.Unsigned.of_to in Hn. simpl in Hn.
  rewrite H in Hn. unfold unorm in Hn. simpl in Hn.
  destruct (nzhead d) eqn:Hd; try discriminate.
  - injection Hn as ->. by apply (DecimalPos.Unsigned.to_uint_nonzero p).
  - by apply nzhead_nonzero in Hd.
Qed.

Lemma num_value_pos (p : positive) :
  PyExpr.num_value (NilEmpty.string_of_uint (Pos.to_uint p)) = Ok (Zpos p).
Proof.
  assert (Hv : NilZero.uint_of_string (NilEmpty.string_of_uint (Pos.to_uint p))
               = Some (Pos.to_uint p)).
  { rewrite <- string_of_uint_nonnil by apply Unsigned.to_uint_nonnil.
    apply NilZero.usu, Unsigned.to_uint_nonnil. }
  assert (Hz : Z.of_uint (Pos.to_uint p) = Zpos p).
  { unfold Z.of_uint. by rewrite DecimalPos.Unsigned.of_to. }
  unfold PyExpr.num_value. rewrite Hv, Hz.
  destruct (Pos.to_uint p) as [|d|d|d|d|d|d|d|d|d|d] eqn:Hp; simpl; try done;
    try (by destruct (NilEmpty.string_of_uint d)).
  by destruct (to_uint_head p d).
Qed.

Lemma parse_int_tokens (z : Z) (rest : list PyExpr.token) :
  PyExpr.parse_int (int_tokens z ++ rest) = Ok (z, rest).
Proof.
  destruct z as [|p|p]; simpl; [done| |]; by rewrite num_value_pos.
Qed.




Lemma lex_has (w : World) (item : string) (count : Z) (rest : string) :
  all_chars is_plain item = true →
  lex MStart (make_has w item count +:+ rest)
  = app (has_tokens item (player w) count) <$> lex MStart rest.
Proof.
  intros Hitem. unfold make_has, quoted, has_tokens, count_arg.
  destruct (decide (1 < count)); rewrite !app_assoc'; simpl;
    rewrite lex_str by done; simpl.
  - rewrite (lex_int (player w) "," _) by auto. simpl.
    rewrite (lex_int count ")" _) by auto. simpl.
    destruct (lex MStart rest); simpl; [|done].
    rewrite <- !app_assoc. simpl. rewrite <- ?app_assoc. reflexivity.
  - rewrite (lex_int (player w) ")" _) by auto. simpl.
    destruct (lex MStart rest); simpl; [|done].
    rewrite <- !app_assoc. reflexivity.
Qed.

Lemma parse_atom_has (fuel : nat) (item : string) (p n : Z) (rest : list token) :
  parse_atom (S fuel) (has_tokens item p n ++ rest)
  = after_atom (EHas item p (count_arg n), rest).
Proof.
  unfold has_tokens. simpl. rewrite <- app_assoc, parse_int_tokens. simpl.
  destruct (count_arg n); simpl.
  - rewrite <- app_assoc, parse_int_tokens. done.
  - done.
Qed.

(** More fuel does not change what the parser returns. *)
Lemma parse_mono (fuel : nat) :
  (∀ ts r fuel', (fuel ≤ fuel')%nat → parse_or fuel ts = Ok r → parse_or fuel' ts = Ok r)
  ∧ (∀ e ts r fuel', (fuel ≤ fuel')%nat → parse_or_rest fuel e ts = Ok r → parse_or_rest fuel' e ts = Ok r)
  ∧ (∀ ts r fuel', (fuel ≤ fuel')%nat → parse_and fuel ts = Ok r → parse_and fuel' ts = Ok r)
  ∧ (∀ e ts r fuel', (fuel ≤ fuel')%nat → parse_and_rest fuel e ts = Ok r → parse_and_rest fuel' e ts = Ok r)
  ∧ (∀ ts r fuel', (fuel ≤ fuel')%nat → parse_atom fuel ts = Ok r → parse_atom fuel' ts = Ok r).
Proof.
  induction fuel as [|fuel (IHor & IHorr & IHand & IHandr & IHatom)].
  { repeat split; intros; discriminate. }
  repeat split.
  - intros ts r [|fuel'] Hle; [lia|]. simpl.
    destruct (parse_and fuel ts) as [[e ts']|] eqn:H1; [|done]. simpl.
    rewrite (IHand _ _ fuel' ltac:(lia) H1). simpl. apply IHorr. lia.
  - intros e ts r [|fuel'] Hle; [lia|]. simpl.
    destruct ts as [|[[]|?|?| | | | | |] ts]; try done.
    destruct (parse_and fuel ts) as [[e2 ts']|] eqn:H1; [|done]. simpl.
    rewrite (IHand _ _ fuel' ltac:(lia) H1). simpl. apply IHorr. lia.
  - intros ts r [|fuel'] Hle; [lia|]. simpl.
    destruct (parse_atom fuel ts) as [[e ts']|] eqn:H1; [|done]. simpl.
    rewrite (IHatom _ _ fuel' ltac:(lia) H1). simpl. apply IHandr. lia.
  - intros e ts r [|fuel'] Hle; [lia|]. simpl.
    destruct ts as [|[[]|?|?| | | | | |] ts]; try done.
    destruct (parse_atom fuel ts) as [[e2 ts']|] eqn:H1; [|done]. simpl.
    rewrite (IHatom _ _ fuel' ltac:(lia) H1). simpl. apply IHandr. lia.
  - intros ts r [|fuel'] Hle; [lia|]. simpl.
    destruct ts as [|[[]|?|?| | | | | |] ts]; try done.
    destruct (parse_or fuel ts) as [[e ts']|] eqn:H1; [|done]. simpl.
    by rewrite (IHor _ _ fuel' ltac:(lia) H1).
Qed.

(** The steps of the parser, as equations. *)
Lemma parse_or_eq fuel ts :
  parse_or (S fuel) ts = parse_and fuel ts ≫= λ '(e, ts'), parse_or_rest fuel e ts'.
Proof. done. Qed.

Lemma parse_and_eq fuel ts :
  parse_and (S fuel) ts = parse_atom fuel ts ≫= λ '(e, ts'), parse_and_rest fuel e ts'.
Proof. done. Qed.

Lemma parse_or_rest_or fuel e ts :
  parse_or_rest (S fuel) e (TName NOr :: ts)
  = parse_and fuel ts ≫= λ '(e2, ts'), parse_or_rest fuel (EOr e e2) ts'.
Proof. done. Qed.

Lemma parse_and_rest_and fuel e ts :
  parse_and_rest (S fuel) e (TName NAnd :: ts)
  = parse_atom fuel ts ≫= λ '(e2, ts'), parse_and_rest fuel (EAnd e e2) ts'.
Proof. done. Qed.

Lemma parse_atom_paren fuel ts :
  parse_atom (S fuel) (TLpar :: ts)
  = parse_or fuel ts ≫= λ '(e, ts'),
      match ts' with
      | TRpar :: ts3 => after_atom (e, ts3)
      | [] => Raise SyntaxError
      | _ => Raise Unsupported
      end.
Proof. done. Qed.

Lemma eval_enough (fuel : nat) (text : string) (body : list token) (e : expr) :
  lex MStart text = Ok (TName NLambda :: TName NState :: TColon :: body) →
  parse_or fuel body = Ok (e, []) →
  (fuel ≤ 4 * length body + 4)%nat →
  eval text = Ok e.
Proof.
  intros Hlex Hparse Hfuel. unfold eval. rewrite Hlex.
  destruct (parse_mono fuel) as (Hor & _).
  unfold mbind at 1, result_bind at 1.
  by rewrite (Hor _ _ _ Hfuel Hparse).
Qed.

(** ** The lookup table and the parts of a rule *)

Lemma dict_comp_lookup {V} (f : string → V) (keys : list string) (d : gmap string V) (k : string) :
  dict_comp f keys d !! k = if decide (k ∈ keys) then Some (f k) else d !! k.
Proof.
  unfold dict_comp. revert d. induction keys as [|x keys IH]; intros d; cbn [foldl].
  - by rewrite decide_False by apply not_elem_of_nil.
  - rewrite IH. destruct (decide (k ∈ keys)) as [Hin|Hnin].
    + rewrite decide_True by (by right). done.
    + destruct (decide (x = k)) as [->|Hne].
      * rewrite decide_True by (by left). by rewrite lookup_insert_eq.
      * rewrite decide_False by (intros [?|?]%elem_of_cons; congruence).
        by rewrite lookup_insert_ne.
Qed.

Lemma options_lookup (opts : list (string * bool)) (d : gmap string string) (k : string) :
  k ∉ opts.*1 →
  foldl (λ d '(name, value), <[name := PyStr.of_bool value]> d) d opts !! k = d !! k.
Proof.
  revert d. induction opts as [|[n v] opts IH]; intros d Hk; simpl; [done|].
  rewrite IH by (intros ?; apply Hk; by right).
  rewrite lookup_insert_ne; [done|]. intros ->. apply Hk. by left.
Qed.




Lemma part_lookup_free (w : World) (k : string) :
  free_name w k = true →
  part_lookup w !! k
  = (<["Infinite_Grapple" := make_has w "Grappling_Hook" 3]>
      (<["Grappling_Hook_Upgrade" := make_has w "Grappling_Hook" 2]>
        (<["|" := " or "]> (<["+" := " and "]> (<[")" := ")"]> (<["(" := "("]> (∅ : gmap string string))))))) !! k.
Proof.
  unfold free_name. intros [[Hi Ho]%andb_prop He]%andb_prop.
  apply bool_decide_eq_true in Hi, Ho, He.
  unfold part_lookup. rewrite dict_comp_lookup.
  rewrite decide_False by (by rewrite elem_of_elements).
  rewrite options_lookup by done.
  destruct (decide (k = "Infinite_Grapple")) as [->|?];
    [by rewrite !lookup_insert_eq|rewrite !(lookup_insert_ne _ "Infinite_Grapple") by done].
  destruct (decide (k = "Grappling_Hook_Upgrade")) as [->|?];
    [by rewrite !lookup_insert_eq|rewrite !(lookup_insert_ne _ "Grappling_Hook_Upgrade") by done].
  rewrite dict_comp_lookup. by rewrite decide_False by done.
Qed.

Lemma part_lookup_operators (w : World) :
  operators_kept w = true →
  part_lookup w !! "(" = Some "(" ∧ part_lookup w !! ")" = Some ")"
  ∧ part_lookup w !! "+" = Some " and " ∧ part_lookup w !! "|" = Some " or ".
Proof.
  unfold operators_kept. simpl.
  intros (H1 & (H2 & (H3 & (H4 & _)%andb_prop)%andb_prop)%andb_prop)%andb_prop.
  rewrite !part_lookup_free by done. done.
Qed.

Lemma part_lookup_item (w : World) (a : string) :
  item_part w a = true → part_lookup w !! a = Some (make_has w a 1).
Proof.
  unfold item_part.
  intros [[[[Hi Ho]%andb_prop Hu]%andb_prop Hg]%andb_prop _]%andb_prop.
  apply bool_decide_eq_true in Hi, Ho.
  apply negb_true_iff, String.eqb_neq in Hu, Hg.
  unfold part_lookup. rewrite dict_comp_lookup.
  destruct (decide (a ∈ elements (events w))); [done|].
  rewrite options_lookup by done.
  rewrite !lookup_insert_ne by done.
  rewrite dict_comp_lookup. by rewrite decide_True by done.
Qed.

Lemma item_part_name (w : World) (a : string) : item_part w a = true → part_name a = true.
Proof. unfold item_part. by intros [_ ?]%andb_prop. Qed.

Lemma convert_parts_lookup (w : World) (part v : string) parts text out :
  part_lookup w !! part = Some v →
  convert_parts w (part :: parts) text out = convert_parts w parts (text +:+ v) out.
Proof. intros H. simpl. by rewrite H. Qed.

(** The padding of the parentheses and the split, on a rule that starts with a
    name. *)

Lemma padded_name (a rest : string) :
  part_name a = true → padded (a +:+ rest) = a +:+ padded rest.
Proof.
  intros [_ Ha]%part_name_chars. unfold padded.
  rewrite replace_word by (eapply all_chars_impl; [apply name_char_no_lpar|done]).
  by rewrite replace_word by (eapply all_chars_impl; [apply name_char_no_rpar|done]).
Qed.

Lemma padded_name_end (a : string) : part_name a = true → padded a = a.
Proof.
  intros Ha. rewrite <- (app_empty_r a) at 1. rewrite padded_name by done.
  apply app_empty_r.
Qed.

Lemma split_name (a rest : string) :
  part_name a = true →
  PyStr.split_go "" (a +:+ String " " rest) = a :: PyStr.split_go "" rest.
Proof.
  intros [Hne Ha]%part_name_chars.
  rewrite split_go_word by (eapply all_chars_impl; [apply name_char_no_space|done]).
  simpl. by rewrite decide_False.
Qed.

Lemma split_name_end (a : string) :
  part_name a = true → PyStr.split_go "" a = [a].
Proof.
  intros [Hne Ha]%part_name_chars. rewrite <- (app_empty_r a) at 1.
  rewrite split_go_word by (eapply all_chars_impl; [apply name_char_no_space|done]).
  simpl. by rewrite decide_False.
Qed.

Lemma part_name_plain (a : string) : part_name a = true → all_chars is_plain a = true.
Proof.
  intros [_ Ha]%part_name_chars. eapply all_chars_impl; [apply name_char_plain|done].
Qed.
(** ** The padding, the parser and the shapes of rule *)

Lemma padded_lpar (rest : string) : padded (String "(" rest) = "( " +:+ padded rest.
Proof. done. Qed.

Lemma padded_rpar (rest : string) : padded (String ")" rest) = " )" +:+ padded rest.
Proof. done. Qed.

Lemma padded_char (c : ascii) (rest : string) :
  Ascii.eqb c "(" = false → Ascii.eqb c ")" = false →
  padded (String c rest) = String c (padded rest).
Proof. intros H1 H2. unfold padded. simpl. rewrite H1. simpl. by rewrite H2. Qed.

Lemma padded_empty : padded "" = "".
Proof. done. Qed.

Lemma split_char (c : ascii) (rest : string) :
  PyStr.is_space c = false →
  PyStr.split_go "" (String c (String " " rest)) = String c "" :: PyStr.split_go "" rest.
Proof. intros H. simpl. by rewrite H. Qed.

Lemma split_space (rest : string) :
  PyStr.split_go "" (String " " rest) = PyStr.split_go "" rest.
Proof. done. Qed.

Local Opaque padded.

Ltac pad :=
  repeat first
    [ rewrite padded_name by done
    | rewrite padded_name_end by done
    | rewrite padded_lpar
    | rewrite padded_rpar
    | rewrite padded_char by done
    | rewrite padded_empty
    | progress simpl ].

Ltac parts :=
  repeat first
    [ rewrite split_name by done
    | rewrite split_name_end by done
    | rewrite split_char by done
    | rewrite split_space
    | progress simpl ].


Lemma lex_has_end (w : World) (item : string) (count : Z) :
  all_chars is_plain item = true →
  lex MStart (make_has w item count) = Ok (has_tokens item (player w) count ++ [])%list.
Proof.
  intros H. rewrite <- (app_empty_r (make_has w item count)).
  by rewrite lex_has.
Qed.

Lemma parse_or_rest_nil fuel e : parse_or_rest (S fuel) e [] = Ok (e, []).
Proof. done. Qed.

Lemma parse_or_rest_rpar fuel e ts :
  parse_or_rest (S fuel) e (TRpar :: ts) = Ok (e, TRpar :: ts).
Proof. done. Qed.

Lemma parse_and_rest_nil fuel e : parse_and_rest (S fuel) e [] = Ok (e, []).
Proof. done. Qed.

Lemma parse_and_rest_rpar fuel e ts :
  parse_and_rest (S fuel) e (TRpar :: ts) = Ok (e, TRpar :: ts).
Proof. done. Qed.

Lemma parse_and_rest_or fuel e ts :
  parse_and_rest (S fuel) e (TName NOr :: ts) = Ok (e, TName NOr :: ts).
Proof. done. Qed.

Local Opaque make_has has_tokens.

Ltac names :=
  repeat match goal with
         | |- context [name_of ?s] =>
             let v := eval vm_compute in (name_of s) in
             change (name_of s) with v
         end.

Ltac lex_text :=
  rewrite ?app_assoc';
  repeat first
    [ rewrite lex_has by (by apply part_name_plain)
    | rewrite lex_has_end by (by apply part_name_plain)
    | progress simpl ];
  names.

Ltac parse_text :=
  repeat first
    [ rewrite parse_or_eq
    | rewrite parse_and_eq
    | rewrite parse_atom_has
    | rewrite parse_atom_paren
    | rewrite parse_or_rest_or
    | rewrite parse_or_rest_nil
    | rewrite parse_or_rest_rpar
    | rewrite parse_and_rest_and
    | rewrite parse_and_rest_nil
    | rewrite parse_and_rest_rpar
    | rewrite parse_and_rest_or
    | progress cbn [mbind result_bind after_atom snd] ].

Ltac rule_parts_tac := unfold rule_parts, PyStr.split; pad; parts; reflexivity.

Ltac fuel_ok := repeat (rewrite ?length_app; progress cbn [length]); lia.

Lemma has_owns (w : World) (state : CollectionState) (item : string) (n : Z) :
  has state item (player w) n = true ↔ owns w state item n.
Proof. unfold has, owns. apply bool_decide_eq_true. Qed.

Lemma call_has (w : World) (state : CollectionState) (item : string) (n : Z) :
  call (EHas item (player w) (count_arg n)) state = true
  ↔ owns w state item (if decide (1 < n) then n else 1).
Proof. unfold count_arg. simpl. destruct (decide (1 < n)); apply has_owns. Qed.

Lemma call_and (l r : expr) (state : CollectionState) :
  call (EAnd l r) state = true ↔ call l state = true ∧ call r state = true.
Proof. simpl. destruct (call l state); intuition congruence. Qed.

Lemma call_or (l r : expr) (state : CollectionState) :
  call (EOr l r) state = true ↔ call l state = true ∨ call r state = true.
Proof. simpl. destruct (call l state); intuition congruence. Qed.

(** What the compiler returns on four shapes of rule. *)
Section Shapes.
Context (w : World) (a b c : string).
Hypothesis Hops : operators_kept w = true.
Hypothesis Ha : item_part w a = true.
Hypothesis Hb : item_part w b = true.
Hypothesis Hc : item_part w c = true.

Ltac setup :=
  destruct (part_lookup_operators w Hops) as (Hlp & Hrp & Hand & Hor);
  pose proof (item_part_name _ _ Ha); pose proof (item_part_name _ _ Hb);
  pose proof (item_part_name _ _ Hc);
  pose proof (part_lookup_item _ _ Ha); pose proof (part_lookup_item _ _ Hb);
  pose proof (part_lookup_item _ _ Hc).

Ltac compile fuel parts_eq :=
  unfold convert_to_rule, lambda_text; rewrite parts_eq;
  repeat (erewrite convert_parts_lookup by eassumption);
  cbn [convert_parts mbind result_bind]; f_equal;
  eapply (eval_enough fuel); [lex_text; reflexivity | parse_text; reflexivity | fuel_ok].

Lemma compile_and :
  convert_to_rule w (a +:+ " + " +:+ b) = ([], Ok (EAnd (has_item w a) (has_item w b))).
Proof.
  setup.
  assert (Hp : rule_parts (a +:+ " + " +:+ b) = [a; "+"; b]) by rule_parts_tac.
  compile 5%nat Hp.
Qed.

Lemma compile_or :
  convert_to_rule w (a +:+ " | " +:+ b) = ([], Ok (EOr (has_item w a) (has_item w b))).
Proof.
  setup.
  assert (Hp : rule_parts (a +:+ " | " +:+ b) = [a; "|"; b]) by rule_parts_tac.
  compile 5%nat Hp.
Qed.

Lemma compile_group :
  convert_to_rule w ("(" +:+ a +:+ " + " +:+ b +:+ ") | " +:+ c)
  = ([], Ok (EOr (EAnd (has_item w a) (has_item w b)) (has_item w c))).
Proof.
  setup.
  assert (Hp : rule_parts ("(" +:+ a +:+ " + " +:+ b +:+ ") | " +:+ c)
               = ["("; a; "+"; b; ")"; "|"; c]) by rule_parts_tac.
  compile 9%nat Hp.
Qed.

Lemma compile_mixed :
  convert_to_rule w (a +:+ " | " +:+ b +:+ " + " +:+ c)
  = ([], Ok (EOr (has_item w a) (EAnd (has_item w b) (has_item w c)))).
Proof.
  setup.
  assert (Hp : rule_parts (a +:+ " | " +:+ b +:+ " + " +:+ c)
               = [a; "|"; b; "+"; c]) by rule_parts_tac.
  compile 6%nat Hp.
Qed.
End Shapes.

(** ** Counted parts and the two aliases *)

Lemma all_chars_app (p : ascii → bool) (a b : string) :
  all_chars p (a +:+ b) = all_chars p a && all_chars p b.
Proof. induction a as [|x a IH]; simpl; [done|]. by rewrite IH, andb_assoc. Qed.

Lemma part_name_app (a b : string) :
  part_name a = true → all_chars name_char b = true → part_name (a +:+ b) = true.
Proof.
  intros [Hne Ha]%part_name_chars Hb. unfold part_name.
  rewrite all_chars_app, Ha, Hb. destruct a; done.
Qed.





(** ** The compiler: main results *)

(** C4, as stated, fails: a rule text written without white space around the
    operator is one part, which no catalogue knows; it is printed and
    skipped, and [eval] rejects the text that is left. *)
Lemma compile_and_unspaced :
  item_part demo_world "A" = true ∧ item_part demo_world "B" = true
  ∧ convert_to_rule demo_world "A+B"
    = (["unexpected part of rule"; "A+B"], Raise SyntaxError).
Proof. by vm_compute. Qed.

(** C4 (amended): with the operators set off by white space, for items [a],
    [b], [c] of the catalogue, the predicate compiled from [a + b] is true
    exactly on the states that hold [a] and [b], the one compiled from
    [a | b] exactly on those that hold [a] or [b], and the one compiled from
    [(a + b) | c] exactly on those that hold [a] and [b], or [c]. *)
Theorem compile_and_or (w : World) (a b c : string) :
  operators_kept w = true →
  item_part w a = true → item_part w b = true → item_part w c = true →
  ∃ f_and f_or f_group,
    convert_to_rule w (a +:+ " + " +:+ b) = ([], Ok f_and)
    ∧ convert_to_rule w (a +:+ " | " +:+ b) = ([], Ok f_or)
    ∧ convert_to_rule w ("(" +:+ a +:+ " + " +:+ b +:+ ") | " +:+ c) = ([], Ok f_group)
    ∧ ∀ state,
        (call f_and state = true ↔ owns w state a 1 ∧ owns w state b 1)
        ∧ (call f_or state = true ↔ owns w state a 1 ∨ owns w state b 1)
        ∧ (call f_group state = true
           ↔ (owns w state a 1 ∧ owns w state b 1) ∨ owns w state c 1).
Proof.
  intros Hops Ha Hb Hc.
  eexists _, _, _. split; [by apply (compile_and w a b c)|].
  split; [by apply (compile_or w a b c)|]. split; [by apply (compile_group w a b c)|].
  intros state. unfold has_item.
  rewrite !call_or, !call_and. change None with (count_arg 1).
  rewrite !call_has. done.
Qed.

Lemma compile_and_or_witness :
  ∃ f_and f_or f_group,
    convert_to_rule demo_world ("A" +:+ " + " +:+ "B") = ([], Ok f_and)
    ∧ convert_to_rule demo_world ("A" +:+ " | " +:+ "B") = ([], Ok f_or)
    ∧ convert_to_rule demo_world ("(" +:+ "A" +:+ " + " +:+ "B" +:+ ") | " +:+ "C")
      = ([], Ok f_group)
    ∧ ∀ state,
        (call f_and state = true
         ↔ owns demo_world state "A" 1 ∧ owns demo_world state "B" 1)
        ∧ (call f_or state = true
           ↔ owns demo_world state "A" 1 ∨ owns demo_world state "B" 1)
        ∧ (call f_group state = true
           ↔ (owns demo_world state "A" 1 ∧ owns demo_world state "B" 1)
             ∨ owns demo_world state "C" 1).
Proof. apply (compile_and_or demo_world "A" "B" "C"); vm_compute; reflexivity. Defined.

(** C5, as stated, fails twice over: the text without white space is not
    compiled at all, and with white space the conjunction binds tighter than
    the disjunction: on a state that holds only [A] the predicate compiled
    from [A | B + C] is true, although [(A or B) and C] is false there. *)
Lemma mixed_not_left_to_right :
  convert_to_rule demo_world "A|B+C"
  = (["unexpected part of rule"; "A|B+C"], Raise SyntaxError)
  ∧ ∃ f, convert_to_rule demo_world "A | B + C" = ([], Ok f)
         ∧ call f (only "A" 1) = true
         ∧ ¬ ((owns demo_world (only "A" 1) "A" 1 ∨ owns demo_world (only "A" 1) "B" 1)
              ∧ owns demo_world (only "A" 1) "C" 1).
Proof.
  split; [by vm_compute|]. eexists. split; [by vm_compute|].
  split; [by vm_compute|]. intros [_ H]. by vm_compute in H.
Qed.

(** C5 (amended): the compiler leaves the precedence to the host language,
    where [and] binds tighter than [or] whatever the order: the predicate
    compiled from [a | b + c] is true exactly on the states that hold [a],
    or both [b] and [c]. *)
Theorem compile_mixed_precedence (w : World) (a b c : string) :
  operators_kept w = true →
  item_part w a = true → item_part w b = true → item_part w c = true →
  ∃ f,
    convert_to_rule w (a +:+ " | " +:+ b +:+ " + " +:+ c) = ([], Ok f)
    ∧ ∀ state,
        call f state = true
        ↔ owns w state a 1 ∨ (owns w state b 1 ∧ owns w state c 1).
Proof.
  intros Hops Ha Hb Hc. eexists. split; [by apply (compile_mixed w a b c)|].
  intros state. unfold has_item.
  rewrite !call_or, !call_and. change None with (count_arg 1).
  rewrite !call_has. done.
Qed.

Lemma compile_mixed_precedence_witness :
  ∃ f,
    convert_to_rule demo_world ("A" +:+ " | " +:+ "B" +:+ " + " +:+ "C") = ([], Ok f)
    ∧ ∀ state,
        call f state = true
        ↔ owns demo_world state "A" 1
          ∨ (owns demo_world state "B" 1 ∧ owns demo_world state "C" 1).
Proof.
  apply (compile_mixed_precedence demo_world "A" "B" "C"); vm_compute; reflexivity.
Defined.

(** An unknown part is printed and left out, and the loop goes on. *)
Lemma convert_parts_unknown (w : World) (part : string) parts text out :
  part_lookup w !! part = None →
  hd "" (PyStr.split_on "{" part) ∉ item_dict w →
  convert_parts w (part :: parts) text out
  = convert_parts w parts text (out ++ ["unexpected part of rule"; part]).
Proof.
  intros Hl Hi. cbn [convert_parts]. rewrite Hl.
  by rewrite bool_decide_eq_false_2.
Qed.

(** C6 (the code departs from the claim): the unknown part [Bogus] is
    printed and skipped and the loop reaches the end of the rule, but the text
    that is left, [lambda state: state.has("A", 1) and ], is handed to [eval],
    which raises; no predicate is produced. *)
Theorem unknown_part_raises :
  part_lookup demo_world !! "Bogus" = None
  ∧ lambda_text demo_world "A + Bogus"
    = (["unexpected part of rule"; "Bogus"],
       Ok ("lambda state: state.has(" +:+ quoted "A" +:+ ", 1) and "))
  ∧ convert_to_rule demo_world "A + Bogus"
    = (["unexpected part of rule"; "Bogus"], Raise SyntaxError)
  ∧ convert_to_rule demo_world "Bogus"
    = (["unexpected part of rule"; "Bogus"], Raise SyntaxError).
Proof. by vm_compute. Qed.




Local Transparent make_has has_tokens padded.

(** ** [get_parent] and the registry *)

Lemma owner_unmapped (w : World) (depth : nat) : ∀ name r,
  owner w depth name = Some r → location_to_region w !! r = None.
Proof.
  induction depth as [|depth IH]; intros name r; simpl; [done|].
  destruct (location_to_region w !! name) as [parent|] eqn:Hp.
  - apply IH.
  - by intros [= <-].
Qed.

Lemma owner_mono (w : World) (depth : nat) : ∀ depth' name r,
  (depth ≤ depth')%nat → owner w depth name = Some r → owner w depth' name = Some r.
Proof.
  induction depth as [|depth IH]; intros [|depth'] name r Hle; simpl; try done; [lia|].
  destruct (location_to_region w !! name); [apply IH; lia|done].
Qed.

Lemma owner_self (w : World) (depth : nat) (name : string) :
  location_to_region w !! name = None → owner w (S depth) name = Some name.
Proof. intros H. simpl. by rewrite H. Qed.

Lemma owner_step (w : World) (depth : nat) (name parent : string) :
  location_to_region w !! name = Some parent →
  owner w (S depth) name = owner w depth parent.
Proof. intros H. simpl. by rewrite H. Qed.

Lemma resolvable_owner (w : World) (depth : nat) :
  resolvable w depth = true → ∀ name, is_Some (owner w depth name).
Proof.
  unfold resolvable. intros [Hd Hall]%andb_prop name.
  apply bool_decide_eq_true in Hd.
  destruct (location_to_region w !! name) as [parent|] eqn:Hp.
  - rewrite forallb_forall in Hall.
    eapply bool_decide_eq_true, Hall, list_elem_of_In.
    apply list_elem_of_fmap. exists (name, parent). split; [done|].
    by apply elem_of_map_to_list.
  - destruct depth; [lia|]. rewrite owner_self by done. by eexists.
Qed.

Lemma ensure_lookup (name n : string) (regs : gmap string Region) :
  ensure name regs !! n
  = match regs !! n with
    | Some R => Some R
    | None => if decide (name = n) then Some (new_region name) else None
    end.
Proof.
  unfold ensure. destruct (regs !! name) as [R|] eqn:Hr.
  - destruct (regs !! n) eqn:Hn; [done|]. rewrite decide_False; [done|]. congruence.
  - destruct (decide (name = n)) as [<-|Hne].
    + by rewrite lookup_insert_eq, Hr.
    + rewrite lookup_insert_ne by done. by destruct (regs !! n).
Qed.

Lemma ensure_is_Some (name : string) (regs : gmap string Region) :
  is_Some (ensure name regs !! name).
Proof.
  rewrite ensure_lookup. destruct (regs !! name); [by eexists|].
  rewrite decide_True by done. by eexists.
Qed.

Lemma ensure_idem (name : string) (regs : gmap string Region) :
  is_Some (regs !! name) → ensure name regs = regs.
Proof. intros [R HR]. unfold ensure. by rewrite HR. Qed.

Lemma tidy_empty (w : World) : tidy w ∅.
Proof. intros name [R HR]. by rewrite lookup_empty in HR. Qed.

Lemma tidy_ensure (w : World) (name : string) (regs : gmap string Region) :
  tidy w regs → location_to_region w !! name = None → tidy w (ensure name regs).
Proof.
  intros Ht Hn n. rewrite ensure_lookup.
  destruct (regs !! n) eqn:Hr.
  - intros _. apply Ht. rewrite Hr. by eexists.
  - destruct (decide (name = n)) as [<-|]; [done|]. by intros [? ?].
Qed.

Lemma tidy_alter (w : World) (f : Region → Region) (name : string) (regs : gmap string Region) :
  tidy w regs → tidy w (alter f name regs).
Proof.
  intros Ht n Hn. apply Ht. rewrite lookup_alter in Hn.
  destruct (decide (name = n)) as [->|]; [|done]. by apply fmap_is_Some in Hn.
Qed.

(** [get_parent] follows the chain and registers its end. *)
Lemma get_parent_owner (w : World) (depth : nat) : ∀ name regs,
  tidy w regs →
  get_parent w depth name regs
  = match owner w depth name with
    | Some r => Ok (r, ensure r regs)
    | None => Raise RecursionError
    end.
Proof.
  induction depth as [|depth IH]; intros name regs Ht; simpl; [done|].
  destruct (regs !! name) as [R|] eqn:HR.
  - rewrite (Ht name) by (by eexists). unfold ensure. by rewrite HR.
  - destruct (location_to_region w !! name) as [parent|]; [by apply IH|].
    unfold ensure. by rewrite HR.
Qed.

Lemma grows_refl (regs : gmap string Region) : grows regs regs.
Proof. intros name R HR. by exists R. Qed.

Lemma grows_trans (r1 r2 r3 : gmap string Region) :
  grows r1 r2 → grows r2 r3 → grows r1 r3.
Proof.
  intros H12 H23 name R HR.
  destruct (H12 _ _ HR) as (R2 & HR2 & He2 & Hl2).
  destruct (H23 _ _ HR2) as (R3 & HR3 & He3 & Hl3).
  exists R3. naive_solver.
Qed.

Lemma grows_ensure (name : string) (regs : gmap string Region) :
  grows regs (ensure name regs).
Proof. intros n R HR. exists R. by rewrite ensure_lookup, HR. Qed.

Lemma grows_alter (f : Region → Region) (name : string) (regs : gmap string Region) :
  (∀ R e, e ∈ exits R → e ∈ exits (f R)) →
  (∀ R l, l ∈ locations R → l ∈ locations (f R)) →
  grows regs (alter f name regs).
Proof.
  intros He Hl n R HR. rewrite lookup_alter.
  destruct (decide (name = n)) as [<-|]; rewrite ?HR; simpl; [|by exists R].
  exists (f R). naive_solver.
Qed.

Lemma grows_connect (target : string) rule (name : string) (regs : gmap string Region) :
  grows regs (alter (connect target rule) name regs).
Proof.
  apply grows_alter; intros R x Hx; simpl; [|done].
  apply elem_of_app. by left.
Qed.

Lemma grows_append (loc : Location) (name : string) (regs : gmap string Region) :
  grows regs (alter (append_location loc) name regs).
Proof.
  apply grows_alter; intros R x Hx; simpl; [done|].
  apply elem_of_app. by left.
Qed.

(** ** [stage_generate_early] *)

Lemma location_ids_lookup (names : list string) : ∀ (d : gmap string Z) (k : nat) (t : string),
  is_Some (foldl (λ d '(i, location), <[location := base_id + Z.of_nat i]> d) d
                 (imap (λ i location, (k + i, location)%nat) names) !! t)
  ↔ t ∈ names ∨ is_Some (d !! t).
Proof.
  induction names as [|x names IH]; intros d k t; simpl.
  - split; [by right|]. intros [H|H]; [by apply elem_of_nil in H|done].
  - rewrite (imap_ext _ (λ i location, (S k + i, location)%nat)) by (intros; unfold compose; simpl; f_equal; lia).
    rewrite IH. rewrite elem_of_cons.
    destruct (decide (x = t)) as [->|Hne].
    + rewrite lookup_insert_eq. split; [by left; left|by right].
    + rewrite lookup_insert_ne by done. intuition congruence.
Qed.

Lemma known_spec (w : World) (t : string) :
  known w t = true ↔ t ∈ location_list w ∨ t ∈ events w.
Proof.
  unfold known, location_name_to_id.
  rewrite orb_true_iff, !bool_decide_eq_true.
  rewrite (location_ids_lookup (location_list w) ∅ 0 t).
  rewrite lookup_empty. split; [|intuition].
  intros [[?|[? ?]]|?]; by auto.
Qed.

Lemma targeting_snoc (t : string) (seen : list (string * string)) (key : string * string) :
  targeting t (seen ++ [key])
  = targeting t seen ++ (if decide (key.2 = t) then [key] else []).
Proof.
  unfold targeting. by rewrite filter_app.
Qed.

Lemma classify_step (w : World) (seen : list (string * string)) st (key : string * string) :
  classified w seen st →
  ∃ st', classify w st key = Ok st' ∧ classified w (seen ++ [key]) st'.
Proof.
  destruct st as [cnt l2r], key as [parent target]. intros Hst. unfold classify.
  destruct (known w target) eqn:Hk; simpl.
  - destruct (Hst target) as [Hc Hl]. rewrite Hk in Hc, Hl. simpl in Hc, Hl.
    rewrite Hc.
    destruct (targeting target seen) as [|k1 [|k2 rest]] eqn:Hobs; simpl.
    + eexists; split; [done|]. intros t. rewrite targeting_snoc. simpl.
      destruct (decide (target = t)) as [<-|Hne].
      * rewrite !lookup_insert_eq, Hk, Hobs. done.
      * rewrite !lookup_insert_ne by done. rewrite app_nil_r. apply Hst.
    + rewrite Hl. eexists; split; [done|]. intros t. rewrite targeting_snoc. simpl.
      destruct (decide (target = t)) as [<-|Hne].
      * rewrite lookup_insert_eq, lookup_delete_eq, Hk, Hobs. done.
      * rewrite lookup_insert_ne, lookup_delete_ne by done. rewrite app_nil_r. apply Hst.
    + eexists; split; [done|]. intros t. rewrite targeting_snoc. simpl.
      destruct (decide (target = t)) as [<-|Hne].
      * rewrite lookup_insert_eq, Hk, Hobs, Hl. simpl. split; [|done].
        rewrite length_app. simpl. lia.
      * rewrite lookup_insert_ne by done. rewrite app_nil_r. apply Hst.
  - eexists; split; [done|]. intros t. rewrite targeting_snoc. simpl.
    destruct (decide (target = t)) as [<-|Hne].
    + rewrite Hk. specialize (Hst target). by rewrite Hk in Hst.
    + rewrite app_nil_r. apply Hst.
Qed.

Lemma classify_all_spec (w : World) (keys : list (string * string)) : ∀ seen st,
  classified w seen st →
  ∃ st', classify_all w st keys = Ok st' ∧ classified w (seen ++ keys) st'.
Proof.
  induction keys as [|key keys IH]; intros seen st Hst; simpl.
  - exists st. by rewrite app_nil_r.
  - destruct (classify_step w seen st key Hst) as (st1 & -> & Hst1). simpl.
    destruct (IH _ _ Hst1) as (st' & Hrun & Hst').
    exists st'. split; [done|]. by rewrite <- app_assoc in Hst'.
Qed.

Lemma classify_first (w : World) cnt l2r (p t : string) :
  known w t = true → cnt !! t = None →
  classify w (cnt, l2r) (p, t) = Ok (<[t := 1%nat]> cnt, <[t := p]> l2r).
Proof. intros Hk Hc. unfold classify. by rewrite Hk, Hc. Qed.

Lemma classify_second (w : World) cnt l2r (p t : string) :
  known w t = true → cnt !! t = Some 1%nat → is_Some (l2r !! t) →
  classify w (cnt, l2r) (p, t) = Ok (<[t := 2%nat]> cnt, delete t l2r).
Proof. intros Hk Hc [x Hx]. unfold classify. by rewrite Hk, Hc, Hx. Qed.

Lemma classify_later (w : World) cnt l2r (p t : string) (n : nat) :
  known w t = true → cnt !! t = Some n → (2 ≤ n)%nat →
  classify w (cnt, l2r) (p, t) = Ok (<[t := S n]> cnt, l2r).
Proof.
  intros Hk Hc Hn. unfold classify. rewrite Hk, Hc. simpl.
  rewrite decide_False by lia. by rewrite decide_False by lia.
Qed.

Lemma classify_unknown (w : World) st (p t : string) :
  known w t = false → classify w st (p, t) = Ok st.
Proof. intros Hk. unfold classify. destruct st. by rewrite Hk. Qed.

(** [stage_generate_early] returns; what it records. *)
Lemma stage_generate_early_spec (w : World) (evs : gset string)
    (rls : list ((string * string) * string)) :
  ∃ w',
    stage_generate_early w (evs, rls) = Ok w'
    ∧ events w' = evs ∧ rules w' = rls ∧ location_list w' = location_list w
    ∧ (∀ t, known w' t = true ↔ t ∈ location_list w ∨ t ∈ evs)
    ∧ (∀ t p, location_to_region w' !! t = Some p
              ↔ (t ∈ location_list w ∨ t ∈ evs) ∧ targeting t rls.*1 = [(p, t)]).
Proof.
  unfold stage_generate_early. simpl.
  set (w1 := {| player := player w; item_dict := item_dict w;
                location_list := location_list w; events := evs; rules := rls;
                location_to_region := ∅; options := options w; ending := ending w |}).
  assert (Hinit : classified w1 [] (∅, ∅)).
  { intros t. simpl. rewrite !lookup_empty. simpl. by destruct (known w1 t). }
  destruct (classify_all_spec w1 rls.*1 [] (∅, ∅) Hinit) as ([cnt l2r] & Hrun & Hfin).
  rewrite Hrun. simpl. eexists. split; [done|]. simpl.
  assert (Hk1 : ∀ t, known w1 t = true ↔ t ∈ location_list w ∨ t ∈ evs).
  { intros t. apply (known_spec w1). }
  split_and!; try done.
  intros t p. destruct (Hfin t) as [_ Hl]. simpl in Hl. rewrite Hl.
  rewrite <- Hk1. destruct (known w1 t) eqn:Hk.
  - assert (Hin : ∀ key, key ∈ targeting t rls.*1 → key.2 = t).
    { intros key [? _]%list_elem_of_filter. done. }
    destruct (targeting t rls.*1) as [|[p1 t1] [|k2 rest]] eqn:Hobs.
    + split; [done|]. by intros [_ ?].
    + assert (t1 = t) as -> by (apply (Hin (p1, t1)); by left).
      simpl. split; [by intros [= ->]|]. by intros [_ [= ->]].
    + split; [done|]. by intros [_ ?].
  - split; [done|]. by intros [? _].
Qed.

(** C1: [stage_generate_early] returns, and afterwards a name [t] is mapped
    to [p] exactly when [t] is a location or an event and [(p, t)] is the one
    rule key that targets it. Round by round: the first observation of a known
    target records its parent, the second deletes the entry, any later one
    leaves the dictionary alone, and a target that is neither a location nor
    an event leaves the whole state alone. *)
Theorem stage_generate_early_elision (w : World) (evs : gset string)
    (rls : list ((string * string) * string)) :
  ∃ w',
    stage_generate_early w (evs, rls) = Ok w'
    ∧ events w' = evs ∧ rules w' = rls ∧ location_list w' = location_list w
    ∧ (∀ t, known w' t = true ↔ t ∈ location_list w ∨ t ∈ evs)
    ∧ (∀ t p, location_to_region w' !! t = Some p
              ↔ (t ∈ location_list w ∨ t ∈ evs) ∧ targeting t rls.*1 = [(p, t)])
    ∧ (∀ cnt l2r p t, known w' t = true → cnt !! t = None →
         classify w' (cnt, l2r) (p, t) = Ok (<[t := 1%nat]> cnt, <[t := p]> l2r))
    ∧ (∀ cnt l2r p t, known w' t = true → cnt !! t = Some 1%nat → is_Some (l2r !! t) →
         classify w' (cnt, l2r) (p, t) = Ok (<[t := 2%nat]> cnt, delete t l2r))
    ∧ (∀ cnt l2r p t n, known w' t = true → cnt !! t = Some n → (2 ≤ n)%nat →
         classify w' (cnt, l2r) (p, t) = Ok (<[t := S n]> cnt, l2r))
    ∧ (∀ st p t, known w' t = false → classify w' st (p, t) = Ok st).
Proof.
  destruct (stage_generate_early_spec w evs rls) as (w' & Hrun & He & Hr & Hl & Hk & Hm).
  exists w'. split_and!; try done.
  - intros. by apply classify_first.
  - intros. by apply classify_second.
  - intros. by apply classify_later.
  - intros. by apply classify_unknown.
Qed.

(** ** The steps of [create_regions] *)

Lemma own_owner (w : World) (depth : nat) (name : string) :
  resolvable w depth = true → owner w depth name = Some (own w depth name).
Proof.
  intros Hr. unfold own.
  by destruct (resolvable_owner w depth Hr name) as [r ->].
Qed.

Lemma own_unmapped (w : World) (depth : nat) (name : string) :
  resolvable w depth = true → location_to_region w !! own w depth name = None.
Proof. intros Hr. eapply owner_unmapped. by apply own_owner. Qed.

Lemma own_self (w : World) (depth : nat) (name : string) :
  resolvable w depth = true → location_to_region w !! name = None →
  own w depth name = name.
Proof.
  intros Hr Hn. pose proof (own_owner w depth name Hr) as Ho.
  destruct depth; [done|]. rewrite owner_self in Ho by done. congruence.
Qed.

Lemma get_parent_own (w : World) (depth : nat) (name : string) regs :
  resolvable w depth = true → tidy w regs →
  get_parent w depth name regs = Ok (own w depth name, ensure (own w depth name) regs).
Proof. intros Hr Ht. rewrite get_parent_owner by done. by rewrite own_owner. Qed.

Lemma exits_of_ensure (r : string) regs (n : string) :
  exits_of (ensure r regs) n = exits_of regs n.
Proof.
  unfold exits_of. rewrite ensure_lookup. destruct (regs !! n); [done|].
  by destruct (decide (r = n)).
Qed.

Lemma locations_of_ensure (r : string) regs (n : string) :
  locations_of (ensure r regs) n = locations_of regs n.
Proof.
  unfold locations_of. rewrite ensure_lookup. destruct (regs !! n); [done|].
  by destruct (decide (r = n)).
Qed.

Lemma dom_ensure (r : string) (regs : gmap string Region) :
  dom (ensure r regs) = {[r]} ∪ dom regs.
Proof.
  unfold ensure. destruct (regs !! r) eqn:Hr.
  - assert (r ∈ dom regs) by (apply elem_of_dom; by eexists). set_solver.
  - by rewrite dom_insert_L.
Qed.

Lemma exits_of_connect (t : string) lg (rp : string) regs (n : string) :
  is_Some (regs !! rp) →
  exits_of (alter (connect t lg) rp regs) n
  = exits_of regs n
    ++ (if decide (rp = n) then [{| connected_region := t; entrance_rule := lg |}] else []).
Proof.
  intros [R HR]. unfold exits_of. rewrite lookup_alter.
  destruct (decide (rp = n)) as [<-|]; [by rewrite HR|by rewrite app_nil_r].
Qed.

Lemma locations_of_connect (t : string) lg (rp : string) regs (n : string) :
  locations_of (alter (connect t lg) rp regs) n = locations_of regs n.
Proof.
  unfold locations_of. rewrite lookup_alter.
  destruct (decide (rp = n)) as [<-|]; [|done]. by destruct (regs !! rp).
Qed.

Lemma exits_of_append (loc : Location) (r : string) regs (n : string) :
  exits_of (alter (append_location loc) r regs) n = exits_of regs n.
Proof.
  unfold exits_of. rewrite lookup_alter.
  destruct (decide (r = n)) as [<-|]; [|done]. by destruct (regs !! r).
Qed.

Lemma locations_of_append (loc : Location) (r : string) regs (n : string) :
  is_Some (regs !! r) →
  locations_of (alter (append_location loc) r regs) n
  = locations_of regs n ++ (if decide (r = n) then [loc] else []).
Proof.
  intros [R HR]. unfold locations_of. rewrite lookup_alter.
  destruct (decide (r = n)) as [<-|]; [by rewrite HR|by rewrite app_nil_r].
Qed.

Lemma connect_names_spec (w : World) (depth : nat) (a b : string) lg (bd : Build) :
  resolvable w depth = true → tidy w (regions bd) →
  connect_names w depth a b lg bd
  = Ok (with_regions bd
          (alter (connect (own w depth b) lg) (own w depth a)
                 (ensure (own w depth b) (ensure (own w depth a) (regions bd))))).
Proof.
  intros Hr Ht. unfold connect_names.
  rewrite get_parent_own by done. simpl.
  rewrite get_parent_own by (by auto using tidy_ensure, own_unmapped). done.
Qed.

Lemma logic_of_logic (w : World) (rule : string) lg :
  logic_of w rule = Ok lg → logic w rule = lg.
Proof. unfold logic. by intros ->. Qed.

Lemma rule_logic_spec (w : World) (rule : string) (bd : Build) lg :
  logic_of w rule = Ok lg →
  ∃ bd', rule_logic w rule bd = Ok (lg, bd')
         ∧ regions bd' = regions bd ∧ location_rules bd' = location_rules bd
         ∧ compiled bd' = compiled bd ++ (if decide (rule = "") then [] else [rule]).
Proof.
  unfold logic_of, rule_logic. destruct (decide (rule = "")) as [->|Hne].
  - intros [= <-]. exists bd. by rewrite app_nil_r.
  - destruct (convert_to_rule w rule) as [out [f|e]]; simpl; [|done].
    intros [= <-]. by eexists.
Qed.

Lemma connect_rule_step (w : World) (depth : nat) seen (bd : Build) entry :
  resolvable w depth = true →
  (∃ lg, logic_of w entry.2 = Ok lg) →
  built_rules w depth seen bd →
  ∃ bd', connect_rule w depth bd entry = Ok bd'
         ∧ built_rules w depth (seen ++ [entry]) bd'.
Proof.
  intros Hr [lg Hlg] (Ht & Hd & He & Hl & Hs & Hc).
  destruct entry as [[p t] rule]. simpl in Hlg.
  destruct (rule_logic_spec w rule bd lg Hlg) as (bd1 & Hrun & Hr1 & Hs1 & Hc1).
  unfold connect_rule. rewrite Hrun. simpl.
  assert (Hcomp : compiled bd1 = compiled_built (seen ++ [((p, t), rule)])).
  { rewrite Hc1, Hc. unfold compiled_built. rewrite fmap_app, filter_app. f_equal.
    simpl. rewrite filter_cons, filter_nil. simpl.
    destruct (decide (rule = "")); [by rewrite decide_False by tauto|by rewrite decide_True]. }
  assert (Hstash : stash_built w (seen ++ [((p, t), rule)])
                   = if decide (mapped w t) then <[t := lg]> (stash_built w seen)
                     else stash_built w seen).
  { unfold stash_built. rewrite foldl_app. simpl.
    by rewrite (logic_of_logic _ _ _ Hlg). }
  assert (Hexits : ∀ n, exits_built w depth (seen ++ [((p, t), rule)]) n
                        = exits_built w depth seen n ++ rule_exit w depth n ((p, t), rule)).
  { intros n. unfold exits_built. rewrite bind_app, app_assoc. f_equal.
    simpl. by rewrite app_nil_r. }
  assert (Hregs : regions_built w depth (seen ++ [((p, t), rule)])
                  = regions_built w depth seen
                    ∪ list_to_set (rule_regions w depth ((p, t), rule))).
  { unfold regions_built. rewrite bind_app, list_to_set_app_L. simpl.
    rewrite app_nil_r. set_solver. }
  destruct (decide (is_Some (location_to_region w !! t))) as [Hm|Hm].
  - eexists. split; [done|]. unfold built_rules. simpl.
    rewrite Hr1, Hs1, Hs, Hstash, Hregs. unfold rule_regions, mapped. simpl.
    rewrite !decide_True by done.
    split_and!; try done.
    + set_solver.
    + intros n. rewrite Hexits, He. unfold rule_exit, mapped. simpl.
      rewrite decide_True by done. by rewrite app_nil_r.
  - rewrite connect_names_spec by (by rewrite ?Hr1). rewrite Hr1.
    assert (Hto : own w depth t = t).
    { apply own_self; [done|]. by apply eq_None_not_Some. }
    rewrite Hto.
    eexists. split; [done|]. unfold built_rules. simpl.
    rewrite Hs1, Hs, Hstash, Hregs. unfold rule_regions, mapped. simpl.
    rewrite !decide_False by done.
    split_and!; try done.
    + apply tidy_alter, tidy_ensure; [apply tidy_ensure; [done|]|].
      * by apply own_unmapped.
      * by apply eq_None_not_Some.
    + rewrite dom_alter_L, !dom_ensure, Hd. set_solver.
    + intros n. rewrite exits_of_connect.
      * rewrite !exits_of_ensure, Hexits, He. unfold rule_exit, mapped. simpl.
        destruct (decide (is_Some (location_to_region w !! t))); [done|].
        by rewrite (logic_of_logic _ _ _ Hlg).
      * rewrite ensure_lookup. destruct (ensure (own w depth p) (regions bd) !! own w depth p) eqn:Hx;
          [by eexists|]. by destruct (ensure_is_Some (own w depth p) (regions bd)) as [? ?]; congruence.
    + intros n. by rewrite locations_of_connect, !locations_of_ensure.
Qed.

(** ** The loops of [create_regions] *)

Lemma for_each_steps {A S} (body : S → A → result S) (I : list A → S → Prop) (l : list A) :
  (∀ seen x st, x ∈ l → I seen st → ∃ st', body st x = Ok st' ∧ I (seen ++ [x]) st') →
  ∀ st, I [] st → ∃ st', for_each body st l = Ok st' ∧ I l st'.
Proof.
  intros Hstep.
  assert (Hgen : ∀ rest seen st, (∀ x, x ∈ rest → x ∈ l) → I seen st →
            ∃ st', for_each body st rest = Ok st' ∧ I (seen ++ rest) st').
  { induction rest as [|x rest IH]; intros seen st Hin Hst; simpl.
    - exists st. by rewrite app_nil_r.
    - destruct (Hstep seen x st) as (st1 & -> & Hst1); [apply Hin; by left|done|].
      simpl. destruct (IH (seen ++ [x]) st1) as (st' & Hrun & Hst').
      + intros y Hy. apply Hin. by right.
      + done.
      + exists st'. split; [done|]. by rewrite <- app_assoc in Hst'. }
  intros st Hst. by apply (Hgen l [] st).
Qed.

Lemma place_step (w : World) (depth : nat) (make : string → Location) before extra
    (seen : list string) (bd : Build) (x : string) (loc : Location) :
  resolvable w depth = true →
  built_places w depth make before extra seen bd →
  attach (stash_built w (rules w)) x loc = make x →
  ∃ bd', place w depth x loc (with_regions bd (ensure (own w depth x) (regions bd))) = Ok bd'
         ∧ built_places w depth make before extra (seen ++ [x]) bd'.
Proof.
  intros Hr (Ht & Hd & He & Hl & Hs & Hc) Hmake.
  assert (Ht1 : tidy w (ensure (own w depth x) (regions bd)))
    by (by auto using tidy_ensure, own_unmapped).
  unfold place. simpl. rewrite get_parent_own by done. simpl.
  rewrite (ensure_idem _ (ensure _ _)) by apply ensure_is_Some.
  eexists. split; [done|]. unfold built_places. simpl. split_and!; try done.
  - by apply tidy_alter.
  - rewrite dom_alter_L, dom_ensure, Hd, fmap_app, list_to_set_app_L. simpl. set_solver.
  - intros n. by rewrite exits_of_append, exits_of_ensure.
  - intros n. rewrite locations_of_append by apply ensure_is_Some.
    rewrite locations_of_ensure, Hl. unfold placed. rewrite bind_app, app_assoc.
    f_equal. simpl. rewrite app_nil_r. fold (attach (location_rules bd) x loc).
    by rewrite Hs, Hmake.
Qed.

Lemma add_event_step (w : World) (depth : nat) before extra (seen : list string)
    (bd : Build) (event : string) :
  resolvable w depth = true →
  built_places w depth (event_built w depth) before extra seen bd →
  ∃ bd', add_event w depth bd event = Ok bd'
         ∧ built_places w depth (event_built w depth) before extra (seen ++ [event]) bd'.
Proof.
  intros Hr Hb. unfold add_event.
  rewrite get_parent_own by (done || apply Hb). simpl.
  by apply place_step.
Qed.

Lemma add_location_step (w : World) (depth : nat) before extra (seen : list string)
    (bd : Build) (location : string) :
  resolvable w depth = true →
  built_places w depth (location_built w depth) before extra seen bd →
  ∃ bd', add_location w depth bd location = Ok bd'
         ∧ built_places w depth (location_built w depth) before extra
                        (seen ++ [location]) bd'.
Proof.
  intros Hr Hb. unfold add_location.
  rewrite get_parent_own by (done || apply Hb). simpl.
  by apply place_step.
Qed.

Lemma compilable_entry (w : World) entry :
  compilable w = true → entry ∈ rules w → ∃ lg, logic_of w entry.2 = Ok lg.
Proof.
  unfold compilable. rewrite forallb_forall. intros Hall Hin.
  specialize (Hall entry (proj1 (list_elem_of_In _ _) Hin)).
  destruct (logic_of w entry.2); [by eexists|done].
Qed.

(** [create_regions] returns, and builds what is described. *)
Lemma create_regions_built (w : World) (depth : nat) :
  resolvable w depth = true → compilable w = true →
  ∃ bd, create_regions w depth = Ok bd ∧ built w depth bd.
Proof.
  intros Hr Hc. unfold create_regions.
  rewrite connect_names_spec by (done || apply tidy_empty). simpl.
  set (bd0 := with_regions _ _).
  assert (H0 : built_rules w depth [] bd0).
  { unfold built_rules, bd0. simpl. split_and!; try done.
    - apply tidy_alter, tidy_ensure; [apply tidy_ensure; [apply tidy_empty|]|];
        by apply own_unmapped.
    - rewrite dom_alter_L, !dom_ensure, dom_empty_L.
      unfold regions_built. simpl. set_solver.
    - intros n. rewrite exits_of_connect.
      + rewrite !exits_of_ensure. unfold exits_built, menu_exit. simpl.
        by rewrite app_nil_r.
      + rewrite ensure_lookup.
        destruct (ensure_is_Some (own w depth "Menu") ∅) as [R ->]. by eexists.
    - intros n. by rewrite locations_of_connect, !locations_of_ensure. }
  destruct (for_each_steps (connect_rule w depth) (built_rules w depth) (rules w))
    with (st := bd0) as (bd1 & -> & H1); [|done|].
  { intros seen x st Hx Hst. apply connect_rule_step; [done| |done].
    by apply compilable_entry. }
  simpl.
  assert (H1' : built_places w depth (event_built w depth) (λ _, []) ∅ [] bd1).
  { destruct H1 as (? & Hd & ? & ? & ? & ?). unfold built_places. split_and!; try done.
    rewrite Hd. simpl. set_solver. }
  destruct (for_each_steps (add_event w depth)
              (built_places w depth (event_built w depth) (λ _, []) ∅)
              (elements (events w))) with (st := bd1) as (bd2 & -> & H2); [|done|].
  { intros seen x st _ Hst. by apply add_event_step. }
  simpl.
  assert (H2' : built_places w depth (location_built w depth)
                  (placed w depth (event_built w depth) (elements (events w)))
                  (list_to_set (own w depth <$> elements (events w))) [] bd2).
  { destruct H2 as (? & Hd & ? & Hl & ? & ?). unfold built_places. split_and!; try done.
    - rewrite Hd. simpl. set_solver.
    - intros n. rewrite Hl. simpl. unfold placed at 2. simpl. by rewrite app_nil_r. }
  destruct (for_each_steps (add_location w depth)
              (built_places w depth (location_built w depth)
                 (placed w depth (event_built w depth) (elements (events w)))
                 (list_to_set (own w depth <$> elements (events w))))
              (dict_keys ∅ (location_list w))) with (st := bd2) as (bd3 & -> & H3); [|done|].
  { intros seen x st _ Hst. by apply add_location_step. }
  exists bd3. split; [done|]. exact H3.
Qed.

(** ** Region resolution: main results *)

Lemma demo_graph_classified :
  stage_generate_early demo_base (demo_events, demo_rules) = Ok demo_graph.
Proof. vm_compute. reflexivity. Qed.

Lemma cycle_graph_classified :
  stage_generate_early demo_base (∅, cycle_rules) = Ok cycle_graph.
Proof. vm_compute. reflexivity. Qed.

Lemma demo_ok : resolvable demo_graph 3 = true ∧ compilable demo_graph = true.
Proof. vm_compute. done. Qed.

(** The chain has to end: the two locations of [cycle_rules] have one rule
    key each, so Phase 1 maps each to the other, and [get_parent] returns on
    neither, however deep the calls may nest. *)
Lemma get_parent_cycle :
  stage_generate_early demo_base (∅, cycle_rules) = Ok cycle_graph
  ∧ location_to_region cycle_graph !! "L1" = Some "L2"
  ∧ ¬ ∃ depth r, get_parent cycle_graph depth "L1" ∅ = Ok r.
Proof.
  split; [apply cycle_graph_classified|]. split; [done|].
  assert (H : ∀ depth, get_parent cycle_graph depth "L1" ∅ = Raise RecursionError
                       ∧ get_parent cycle_graph depth "L2" ∅ = Raise RecursionError).
  { induction depth as [|depth [IH1 IH2]]; [done|]. split.
    - change (get_parent cycle_graph (S depth) "L1" ∅)
        with (get_parent cycle_graph depth "L2" ∅). done.
    - change (get_parent cycle_graph (S depth) "L2" ∅)
        with (get_parent cycle_graph depth "L1" ∅). done. }
  intros (depth & r & Hr). destruct (H depth) as [H1 _]. congruence.
Qed.

(** Once a region stands under a name, [get_parent] hands it out and leaves
    the registry alone. *)
Lemma get_parent_registered (w : World) (depth : nat) (name : string) regs :
  is_Some (regs !! name) → get_parent w (S depth) name regs = Ok (name, regs).
Proof. intros [R HR]. simpl. by rewrite HR. Qed.

(** C2: in a registry that holds no region under a mapped name, for a name
    mapped to [parent] whose chain of recorded parents ends at [r] within the
    depth the calls may nest, [get_parent] returns for the name what it
    returns for its parent, the region [r] at the end of the chain, and puts
    no region under the name; for a name without a mapping it returns the
    region of that name, made on the first request, and the same region on
    every later request. At the end of [create_regions] no mapped name has a
    region. *)
Theorem get_parent_resolves (w : World) (depth : nat) (regs : gmap string Region) :
  tidy w regs →
  (∀ name parent r,
     location_to_region w !! name = Some parent →
     owner w depth parent = Some r →
     get_parent w (S depth) name regs = get_parent w depth parent regs
     ∧ get_parent w (S depth) name regs = Ok (r, ensure r regs)
     ∧ location_to_region w !! r = None
     ∧ ensure r regs !! name = None
     ∧ tidy w (ensure r regs))
  ∧ (∀ name,
       location_to_region w !! name = None →
       get_parent w (S depth) name regs = Ok (name, ensure name regs)
       ∧ (regs !! name = None → ensure name regs = <[name := new_region name]> regs)
       ∧ (∀ regs', grows (ensure name regs) regs' →
            get_parent w (S depth) name regs' = Ok (name, regs')))
  ∧ (resolvable w depth = true → compilable w = true →
     ∃ bd, create_regions w depth = Ok bd
           ∧ ∀ name, mapped w name → regions bd !! name = None).
Proof.
  intros Ht. split_and!.
  - intros name parent r Hname Hr.
    assert (Hown : owner w (S depth) name = Some r) by (by rewrite (owner_step _ _ _ _ Hname)).
    pose proof (owner_unmapped _ _ _ _ Hr) as Hun.
    assert (Ht' : tidy w (ensure r regs)) by (by apply tidy_ensure).
    split_and!; try done.
    + rewrite !get_parent_owner by done. by rewrite Hown, Hr.
    + rewrite get_parent_owner by done. by rewrite Hown.
    + apply eq_None_not_Some. intros Hs. specialize (Ht' _ Hs). congruence.
  - intros name Hname. split_and!.
    + rewrite get_parent_owner by done. by rewrite owner_self.
    + intros Hnone. unfold ensure. by rewrite Hnone.
    + intros regs' Hg. apply get_parent_registered.
      destruct (ensure_is_Some name regs) as [R HR].
      destruct (Hg _ _ HR) as (R' & HR' & _). by eexists.
  - intros Hr Hc. destruct (create_regions_built w depth Hr Hc) as (bd & Hrun & Hb & _).
    exists bd. split; [done|]. intros name Hm.
    apply eq_None_not_Some. intros Hs. specialize (Hb _ Hs).
    destruct Hm as [? Hm]. congruence.
Qed.

Lemma get_parent_resolves_witness :
  get_parent demo_graph 4 "L2" ∅ = get_parent demo_graph 3 "L1" ∅
  ∧ get_parent demo_graph 4 "L2" ∅
    = Ok ("rm_start_0[100390]", ensure "rm_start_0[100390]" ∅)
  ∧ get_parent demo_graph 4 "L3" ∅ = Ok ("L3", ensure "L3" ∅)
  ∧ ∃ bd, create_regions demo_graph 3 = Ok bd
          ∧ ∀ name, mapped demo_graph name → regions bd !! name = None.
Proof.
  destruct (get_parent_resolves demo_graph 3 ∅ (tidy_empty demo_graph))
    as (Hmapped & Hfree & Hrun).
  destruct (Hmapped "L2" "L1" "rm_start_0[100390]") as (H1 & H2 & _);
    [vm_compute; reflexivity..|].
  destruct (Hfree "L3") as (H3 & _); [vm_compute; reflexivity|].
  split; [exact H1|]. split; [exact H2|]. split; [exact H3|].
  apply Hrun; vm_compute; reflexivity.
Defined.

(** ** Reading the built graph *)

Lemma elem_of_exits_built (w : World) (depth : nat) seen (name : string) (e : Entrance) :
  e ∈ exits_built w depth seen name
  ↔ (own w depth "Menu" = name
     ∧ e = {| connected_region := own w depth start_region; entrance_rule := None |})
    ∨ ∃ p t rule, ((p, t), rule) ∈ seen ∧ ¬ mapped w t ∧ own w depth p = name
                  ∧ e = {| connected_region := t; entrance_rule := logic w rule |}.
Proof.
  unfold exits_built, menu_exit. rewrite elem_of_app, list_elem_of_bind.
  split.
  - intros [H|([[p t] rule] & H & Hin)].
    + left. destruct (decide (own w depth "Menu" = name)); [|by apply elem_of_nil in H].
      apply list_elem_of_singleton in H. done.
    + right. unfold rule_exit in H. simpl in H.
      destruct (decide (mapped w t)); [by apply elem_of_nil in H|].
      destruct (decide (own w depth p = name)); [|by apply elem_of_nil in H].
      apply list_elem_of_singleton in H. by exists p, t, rule.
  - intros [[Hm ->]|(p & t & rule & Hin & Hm & Hp & ->)].
    + left. rewrite decide_True by done. by apply list_elem_of_singleton.
    + right. exists ((p, t), rule). split; [|done]. unfold rule_exit. simpl.
      rewrite decide_False by done. rewrite decide_True by done.
      by apply list_elem_of_singleton.
Qed.

Lemma elem_of_placed (w : World) (depth : nat) make seen (name : string) (loc : Location) :
  loc ∈ placed w depth make seen name
  ↔ ∃ x, x ∈ seen ∧ own w depth x = name ∧ loc = make x.
Proof.
  unfold placed. rewrite list_elem_of_bind. split.
  - intros (x & H & Hin). exists x.
    destruct (decide (own w depth x = name)); [|by apply elem_of_nil in H].
    apply list_elem_of_singleton in H. done.
  - intros (x & Hin & Ho & ->). exists x. split; [|done].
    rewrite decide_True by done. by apply list_elem_of_singleton.
Qed.

Lemma elem_of_dict_keys (keys : list string) : ∀ (seen : gset string) (x : string),
  x ∈ dict_keys seen keys ↔ x ∈ keys ∧ x ∉ seen.
Proof.
  induction keys as [|k keys IH]; intros seen x; simpl.
  - split; [by intros ?%elem_of_nil|by intros [?%elem_of_nil _]].
  - destruct (decide (k ∈ seen)) as [Hk|Hk].
    + rewrite IH, elem_of_cons. split; [by intros [? ?]; auto|].
      intros [[->|?] ?]; by auto.
    + rewrite !elem_of_cons, IH. split.
      * intros [->|[? ?]]; [by auto|]. split; [by auto|]. set_solver.
      * intros [[->|?] ?]; [by auto|]. destruct (decide (x = k)) as [->|]; [by auto|].
        right. split; [done|]. set_solver.
Qed.

(** The stash holds, for a mapped target, the logic of the last rule key
    that targets it. *)
Lemma stash_built_lookup (w : World) (seen : list ((string * string) * string)) (t : string) :
  stash_built w seen !! t
  = if decide (mapped w t)
    then last ((λ entry, logic w entry.2) <$> filter (λ entry, entry.1.2 = t) seen)
    else None.
Proof.
  induction seen as [|entry seen IH] using rev_ind.
  - unfold stash_built. simpl. rewrite lookup_empty. by destruct (decide (mapped w t)).
  - unfold stash_built in *. rewrite foldl_app, filter_app, fmap_app. simpl.
    rewrite filter_cons, filter_nil.
    destruct (decide (entry.1.2 = t)) as [<-|Hne].
    + destruct (decide (mapped w entry.1.2)) as [Hm|Hm].
      * rewrite lookup_insert_eq. simpl. by rewrite last_snoc.
      * by rewrite IH.
    + simpl. rewrite app_nil_r.
      destruct (decide (mapped w entry.1.2)); [|done].
      by rewrite lookup_insert_ne by done.
Qed.

(** Where one rule key targets [t], that key's logic is the stash. *)
Lemma stash_built_only (w : World) seen (p t rule : string) :
  mapped w t → ((p, t), rule) ∈ seen → length (targeting t seen.*1) = 1%nat →
  stash_built w seen !! t = Some (logic w rule).
Proof.
  intros Hm Hin Hone. rewrite stash_built_lookup, decide_True by done.
  assert (Hf : ((p, t), rule) ∈ filter (λ entry, entry.1.2 = t) seen)
    by (by apply list_elem_of_filter).
  assert (Hlen : length (filter (λ entry, entry.1.2 = t) seen) = 1%nat).
  { rewrite <- Hone. unfold targeting. clear.
    induction seen as [|e seen IH]; [done|].
    rewrite fmap_cons, !filter_cons. simpl.
    destruct (decide (e.1.2 = t)); simpl; by rewrite IH. }
  destruct (filter (λ entry, entry.1.2 = t) seen) as [|e [|e2 rest]]; try done.
  apply list_elem_of_singleton in Hf as <-. done.
Qed.

(** After Phase 1 a mapped name is a location or an event with one rule
    key, whose parent it is mapped to. *)
Lemma classified_mapped (w0 w : World) evs rls (t : string) :
  stage_generate_early w0 (evs, rls) = Ok w →
  rules w = rls ∧ events w = evs ∧ location_list w = location_list w0
  ∧ (mapped w t →
     (t ∈ location_list w ∨ t ∈ events w)
     ∧ length (targeting t rls.*1) = 1%nat
     ∧ ∀ p rule, ((p, t), rule) ∈ rls → location_to_region w !! t = Some p)
  ∧ ((2 ≤ length (targeting t rls.*1))%nat → ¬ mapped w t).
Proof.
  intros Hrun.
  destruct (stage_generate_early_spec w0 evs rls) as (w' & Hrun' & He & Hr & Hl & _ & Hmap).
  rewrite Hrun in Hrun'. injection Hrun' as <-.
  split_and!; try done.
  - intros [p0 Hp0]. pose proof (proj1 (Hmap t p0) Hp0) as [Hk Ht].
    rewrite He, Hl. split; [done|]. split; [by rewrite Ht|].
    intros p rule Hin.
    assert (Hkey : (p, t) ∈ targeting t rls.*1).
    { apply list_elem_of_filter. split; [done|].
      apply list_elem_of_fmap. by exists ((p, t), rule). }
    rewrite Ht in Hkey. apply list_elem_of_singleton in Hkey as [= ->]. done.
  - intros Hlen [p0 Hp0]. pose proof (proj1 (Hmap t p0) Hp0) as [_ Ht].
    rewrite Ht in Hlen. simpl in Hlen. lia.
Qed.

(** ** Materialization: main results *)

(** The round for a rule key whose target is elided touches no region and
    stashes the logic under the target. *)
Lemma connect_rule_elided (w : World) (depth : nat) (bd : Build) (p t rule : string) lg :
  mapped w t → logic_of w rule = Ok lg →
  ∃ bd', connect_rule w depth bd ((p, t), rule) = Ok bd'
         ∧ regions bd' = regions bd
         ∧ location_rules bd' = <[t := lg]> (location_rules bd).
Proof.
  intros Hm Hlg.
  destruct (rule_logic_spec w rule bd lg Hlg) as (bd1 & Hrun & Hr1 & Hs1 & _).
  unfold connect_rule. rewrite Hrun. simpl. rewrite decide_True by done.
  eexists. split; [done|]. simpl. by rewrite Hr1, Hs1.
Qed.

(** The round for any other rule key adds one edge, from the region of the
    parent to the region named after the target. *)
Lemma connect_rule_edge (w : World) (depth : nat) (bd : Build) (p t rule : string) lg :
  resolvable w depth = true → tidy w (regions bd) →
  ¬ mapped w t → logic_of w rule = Ok lg →
  ∃ bd', connect_rule w depth bd ((p, t), rule) = Ok bd'
         ∧ location_rules bd' = location_rules bd
         ∧ regions bd'
           = alter (connect t lg) (own w depth p)
                   (ensure t (ensure (own w depth p) (regions bd))).
Proof.
  intros Hr Ht Hm Hlg.
  destruct (rule_logic_spec w rule bd lg Hlg) as (bd1 & Hrun & Hr1 & Hs1 & _).
  unfold connect_rule. rewrite Hrun. simpl. rewrite decide_False by done.
  rewrite connect_names_spec by (by rewrite ?Hr1).
  rewrite (own_self w depth t) by (done || by apply eq_None_not_Some).
  eexists. split; [done|]. simpl. by rewrite Hr1, Hs1.
Qed.

Lemma built_region_of_target (w : World) (depth : nat) (bd : Build) (p t rule : string) :
  built w depth bd → ((p, t), rule) ∈ rules w → ¬ mapped w t →
  is_Some (regions bd !! t).
Proof.
  intros (_ & Hd & _) Hin Hm. apply elem_of_dom. rewrite Hd.
  apply elem_of_union_l, elem_of_union_l. unfold regions_built.
  apply elem_of_union_r, elem_of_list_to_set, list_elem_of_bind.
  exists ((p, t), rule). split; [|done]. unfold rule_regions. simpl.
  rewrite decide_False by done. set_solver.
Qed.

Lemma built_edge_of_rule (w : World) (depth : nat) (bd : Build) (p t rule : string) lg :
  built w depth bd → ((p, t), rule) ∈ rules w → ¬ mapped w t →
  logic_of w rule = Ok lg →
  {| connected_region := t; entrance_rule := lg |} ∈ exits_of (regions bd) (own w depth p).
Proof.
  intros (_ & _ & He & _) Hin Hm Hlg. rewrite He. apply elem_of_exits_built.
  right. exists p, t, rule. by rewrite (logic_of_logic _ _ _ Hlg).
Qed.

Lemma built_no_edge_to_mapped (w : World) (depth : nat) (bd : Build) (name : string) e :
  resolvable w depth = true → built w depth bd →
  e ∈ exits_of (regions bd) name → ¬ mapped w (connected_region e).
Proof.
  intros Hr (_ & _ & He & _) Hin. rewrite He in Hin.
  apply elem_of_exits_built in Hin as [[_ ->]|(p & t & rule & _ & Hm & _ & ->)]; simpl; [|done].
  unfold mapped. rewrite own_unmapped by done. by intros [? ?].
Qed.

(** C3: after Phase 1, where every chain ends and every rule text compiles,
    [create_regions] returns and, for every rule key [(p, t)]: if [t] is
    elided, its round touches no region and stashes the logic under [t],
    where it still is at the end, and no edge leads to [t]; otherwise [t] has
    a region of its own, and the region of [p] has an edge to it that carries
    the logic. Every edge is the first one or comes from such a key. So a
    target of two or more rule keys has its region and an edge from the
    region of each of its parents. *)
Theorem create_regions_materializes (w0 w : World) (evs : gset string)
    (rls : list ((string * string) * string)) (depth : nat) :
  stage_generate_early w0 (evs, rls) = Ok w →
  resolvable w depth = true → compilable w = true →
  ∃ bd,
    create_regions w depth = Ok bd
    ∧ (∀ p t rule, ((p, t), rule) ∈ rls →
         ∃ lg, logic_of w rule = Ok lg
           ∧ (mapped w t →
                (∀ bd0, ∃ bd1, connect_rule w depth bd0 ((p, t), rule) = Ok bd1
                               ∧ regions bd1 = regions bd0
                               ∧ location_rules bd1 = <[t := lg]> (location_rules bd0))
                ∧ location_rules bd !! t = Some lg
                ∧ regions bd !! t = None
                ∧ ∀ name e, e ∈ exits_of (regions bd) name → connected_region e ≠ t)
           ∧ (¬ mapped w t →
                ∃ r, owner w depth p = Some r
                     ∧ is_Some (regions bd !! t)
                     ∧ {| connected_region := t; entrance_rule := lg |}
                       ∈ exits_of (regions bd) r))
    ∧ (∀ name e, e ∈ exits_of (regions bd) name →
         (owner w depth "Menu" = Some name
          ∧ owner w depth start_region = Some (connected_region e)
          ∧ entrance_rule e = None)
         ∨ ∃ p t rule, ((p, t), rule) ∈ rls ∧ ¬ mapped w t
                       ∧ owner w depth p = Some name
                       ∧ connected_region e = t
                       ∧ logic_of w rule = Ok (entrance_rule e))
    ∧ (∀ t, (2 ≤ length (targeting t rls.*1))%nat →
         is_Some (regions bd !! t)
         ∧ ∀ p rule, ((p, t), rule) ∈ rls →
             ∃ r lg, owner w depth p = Some r ∧ logic_of w rule = Ok lg
                     ∧ {| connected_region := t; entrance_rule := lg |}
                       ∈ exits_of (regions bd) r).
Proof.
  intros Hrun Hr Hc.
  destruct (create_regions_built w depth Hr Hc) as (bd & Hbd & Hb).
  pose proof Hb as (Htidy & Hdom & Hexits & Hlocs & Hstash & Hcomp).
  assert (Hrules : rules w = rls) by (by destruct (classified_mapped w0 w evs rls "" Hrun)).
  exists bd. split; [done|]. split_and!.
  - intros p t rule Hin. rewrite <- Hrules in Hin.
    destruct (compilable_entry w _ Hc Hin) as [lg Hlg]. simpl in Hlg.
    exists lg. split; [done|]. split.
    + intros Hm. split_and!.
      * intros bd0. by apply connect_rule_elided.
      * destruct (classified_mapped w0 w evs rls t Hrun) as (_ & _ & _ & Hone & _).
        destruct (Hone Hm) as (_ & Hlen & _).
        rewrite Hstash, (stash_built_only w (rules w) p t rule); try done.
        -- by rewrite (logic_of_logic _ _ _ Hlg).
        -- by rewrite Hrules.
      * apply eq_None_not_Some. intros Hs. specialize (Htidy _ Hs).
        destruct Hm as [? Hm]. congruence.
      * intros name e He <-. by apply (built_no_edge_to_mapped w depth bd name e).
    + intros Hm. exists (own w depth p). split; [by apply own_owner|].
      split; [by eapply built_region_of_target|by apply (built_edge_of_rule w depth bd p t rule)].
  - intros name e He. rewrite Hexits in He.
    apply elem_of_exits_built in He as [[<- ->]|(p & t & rule & Hin & Hm & <- & ->)].
    + left. simpl. by rewrite !own_owner.
    + right. exists p, t, rule. rewrite <- Hrules. split_and!; try done.
      * by apply own_owner.
      * destruct (compilable_entry w _ Hc Hin) as [lg Hlg]. simpl in *.
        by rewrite (logic_of_logic _ _ _ Hlg).
  - intros t Hlen.
    destruct (classified_mapped w0 w evs rls t Hrun) as (_ & _ & _ & _ & Hmany).
    specialize (Hmany Hlen).
    assert (Hsome : ∃ p rule, ((p, t), rule) ∈ rules w).
    { rewrite Hrules. destruct (targeting t rls.*1) as [|[p t'] rest] eqn:Ht; [simpl in Hlen; lia|].
      assert (Hk : (p, t') ∈ targeting t rls.*1) by (rewrite Ht; by left).
      apply list_elem_of_filter in Hk as [Heq Hk]. simpl in Heq. subst t'.
      apply list_elem_of_fmap in Hk as ([[p' t'] rule] & [= <- <-] & Hk).
      by exists p, rule. }
    split.
    + destruct Hsome as (p & rule & Hin). by eapply built_region_of_target.
    + intros p rule Hin. rewrite <- Hrules in Hin.
      destruct (compilable_entry w _ Hc Hin) as [lg Hlg]. simpl in Hlg.
      exists (own w depth p), lg. split; [by apply own_owner|]. split; [done|].
      by apply (built_edge_of_rule w depth bd p t rule).
Qed.

Ltac in_list := clear; vm_compute; repeat first [by left | right].

Lemma create_regions_materializes_witness :
  ∃ bd,
    create_regions demo_graph 3 = Ok bd
    ∧ location_rules bd !! "L2" = Some (Some (EHas "A" 1 None))
    ∧ regions bd !! "L2" = None
    ∧ is_Some (regions bd !! "L3")
    ∧ {| connected_region := "L3"; entrance_rule := Some (EHas "B" 1 None) |}
      ∈ exits_of (regions bd) "rm_start_0[100390]"
    ∧ {| connected_region := "L3"; entrance_rule := None |}
      ∈ exits_of (regions bd) "rm_start_0[100390]".
Proof.
  destruct (create_regions_materializes demo_base demo_graph demo_events demo_rules 3)
    as (bd & Hrun & Hkeys & _ & Hmany); [vm_compute; reflexivity..|].
  exists bd. split; [exact Hrun|].
  destruct (Hkeys "L1" "L2" "A") as (lg & Hlg & Hel & _); [in_list|].
  vm_compute in Hlg. injection Hlg as <-.
  destruct Hel as (_ & Hstash & Hnone & _); [by eexists|].
  destruct (Hmany "L3") as (Hreg & Hedges); [vm_compute; lia|].
  destruct (Hedges "rm_start_0[100390]" "B") as (r1 & lg1 & Hr1 & Hlg1 & He1);
    [in_list|].
  destruct (Hedges "L1" "") as (r2 & lg2 & Hr2 & Hlg2 & He2); [in_list|].
  vm_compute in Hr1, Hlg1, Hr2, Hlg2.
  injection Hr1 as <-. injection Hlg1 as <-. injection Hr2 as <-. injection Hlg2 as <-.
  split; [exact Hstash|]. split; [exact Hnone|]. split; [exact Hreg|].
  split; [exact He1|exact He2].
Defined.





Lemma attach_name stash (name : string) (loc : Location) :
  location_name (attach stash name loc) = location_name loc.
Proof. unfold attach. by destruct (stash !! name) as [[?|]|]. Qed.

Lemma attach_parent stash (name : string) (loc : Location) :
  parent_region (attach stash name loc) = parent_region loc.
Proof. unfold attach. by destruct (stash !! name) as [[?|]|]. Qed.

(** C10: after Phase 1, where every chain ends and every rule text compiles,
    for a rule key [(p, t)] with the empty text and an elided target [t]:
    the stash holds the marker [None] under [t], attaching skips it and
    leaves the object as it is, and the object made for [t] (there is one)
    lies in the region [p] resolves to, with the rule it was created with, so
    that it can be collected in every state. *)
Theorem elided_empty_rule (w0 w : World) (evs : gset string)
    (rls : list ((string * string) * string)) (depth : nat) (p t : string) :
  stage_generate_early w0 (evs, rls) = Ok w →
  resolvable w depth = true → compilable w = true →
  ((p, t), "") ∈ rls → mapped w t →
  ∃ bd r,
    create_regions w depth = Ok bd
    ∧ owner w depth p = Some r ∧ owner w depth t = Some r
    ∧ location_rules bd !! t = Some None
    ∧ (∀ loc, attach (location_rules bd) t loc = loc)
    ∧ (∃ loc, loc ∈ locations_of (regions bd) r ∧ location_name loc = t)
    ∧ ∀ name loc,
        loc ∈ locations_of (regions bd) name → location_name loc = t →
        name = r ∧ parent_region loc = r ∧ access_rule loc = None
        ∧ ∀ state, can_access loc state = true.
Proof.
  intros Hrun Hr Hc Hin Hm.
  destruct (create_regions_built w depth Hr Hc) as (bd & Hbd & Hb).
  pose proof Hb as (_ & _ & _ & Hlocs & Hstash & _).
  destruct (classified_mapped w0 w evs rls t Hrun) as (Hrules & Hevs & Hlist & Hone & _).
  destruct (Hone Hm) as (Hknown & Hlen & Hparent).
  assert (Hst : stash_built w (rules w) !! t = Some None).
  { rewrite (stash_built_only w (rules w) p t ""); by rewrite ?Hrules. }
  assert (Hown : own w depth t = own w depth p).
  { pose proof (own_owner w depth t Hr) as Ht.
    destruct depth as [|depth]; [done|].
    rewrite (owner_step _ _ _ _ (Hparent _ _ Hin)) in Ht.
    apply (owner_mono _ _ (S depth)) in Ht; [|lia].
    rewrite own_owner in Ht by done. congruence. }
  assert (Hev : ∀ x, location_name (event_built w depth x) = x
                     ∧ parent_region (event_built w depth x) = own w depth x).
  { intros x. unfold event_built. by rewrite attach_name, attach_parent. }
  assert (Hlo : ∀ x, location_name (location_built w depth x) = x
                     ∧ parent_region (location_built w depth x) = own w depth x).
  { intros x. unfold location_built. by rewrite attach_name, attach_parent. }
  assert (Hacc_e : access_rule (event_built w depth t) = None).
  { unfold event_built, attach. by rewrite Hst. }
  assert (Hacc_l : access_rule (location_built w depth t) = None).
  { unfold location_built, attach. by rewrite Hst. }
  exists bd, (own w depth p).
  split; [exact Hbd|]. split; [by apply own_owner|].
  split; [by rewrite <- Hown, own_owner|].
  split; [by rewrite Hstash|].
  split; [intros loc; unfold attach; by rewrite Hstash, Hst|].
  split.
  - rewrite Hlocs, <- Hown. destruct Hknown as [Hl|He].
    + exists (location_built w depth t). split; [|apply Hlo].
      apply elem_of_app. right. apply elem_of_placed. exists t. split; [|done].
      apply elem_of_dict_keys. split; [done|apply not_elem_of_empty].
    + exists (event_built w depth t). split; [|apply Hev].
      apply elem_of_app. left. apply elem_of_placed. exists t. split; [|done].
      by apply elem_of_elements.
  - intros name loc Hloc Hname. rewrite Hlocs in Hloc.
    apply elem_of_app in Hloc as [Hloc|Hloc];
      apply elem_of_placed in Hloc as (x & _ & <- & ->).
    + destruct (Hev x) as [Hn Hp]. rewrite Hn in Hname. subst x.
      rewrite Hp, Hown. split; [done|]. split; [done|]. split; [done|].
      intros state. unfold can_access. by rewrite Hacc_e.
    + destruct (Hlo x) as [Hn Hp]. rewrite Hn in Hname. subst x.
      rewrite Hp, Hown. split; [done|]. split; [done|]. split; [done|].
      intros state. unfold can_access. by rewrite Hacc_l.
Qed.

Lemma elided_empty_rule_witness :
  ∃ bd,
    create_regions demo_graph 3 = Ok bd
    ∧ location_rules bd !! "L1" = Some None
    ∧ ∃ loc, loc ∈ locations_of (regions bd) "rm_start_0[100390]"
             ∧ location_name loc = "L1" ∧ access_rule loc = None.
Proof.
  destruct (elided_empty_rule demo_base demo_graph demo_events demo_rules 3
              "rm_start_0[100390]" "L1")
    as (bd & r & Hrun & Hp & _ & Hstash & _ & (loc & Hloc & Hname) & Hall).
  - vm_compute. reflexivity.
  - vm_compute. reflexivity.
  - vm_compute. reflexivity.
  - in_list.
  - clear. by eexists.
  - vm_compute in Hp. injection Hp as <-.
    exists bd. split; [exact Hrun|]. split; [exact Hstash|].
    exists loc. split; [exact Hloc|]. split; [exact Hname|].
    by destruct (Hall _ loc Hloc Hname) as (_ & _ & Hacc & _).
Defined.

(** ** Goal selection *)

(** C9: where the five constants of the option differ, each ending selects
    its own goal event, the five events differ, any other value selects the
    event of ending E, and the completion condition holds exactly on the states
    that hold the item named after the selected event for the player. *)
Theorem goal_selection (E : Ending) (w : World) :
  NoDup [option_ending_a E; option_ending_b E; option_ending_c E;
         option_ending_d E; option_ending_e E] →
  (ending w = option_ending_a E → goal_event E w = "e_goal_a")
  ∧ (ending w = option_ending_b E → goal_event E w = "e_goal_b")
  ∧ (ending w = option_ending_c E → goal_event E w = "e_goal_c")
  ∧ (ending w = option_ending_d E → goal_event E w = "e_goal_d")
  ∧ (ending w = option_ending_e E → goal_event E w = "e_goal_e")
  ∧ NoDup ["e_goal_a"; "e_goal_b"; "e_goal_c"; "e_goal_d"; "e_goal_e"]
  ∧ (ending w ∉ [option_ending_a E; option_ending_b E; option_ending_c E;
                 option_ending_d E; option_ending_e E] →
     goal_event E w = "e_goal_e")
  ∧ ∀ state, set_rules E w state = true ↔ owns w state (goal_event E w) 1.
Proof.
  intros Hnd. unfold goal_event.
  apply NoDup_cons in Hnd as [Ha Hnd]. apply NoDup_cons in Hnd as [Hb Hnd].
  apply NoDup_cons in Hnd as [Hc Hnd]. apply NoDup_cons in Hnd as [Hd _].
  repeat match goal with
         | H : _ ∉ _ :: _ |- _ => apply not_elem_of_cons in H as [? H]
         end.
  split; [intros ->; repeat case_decide; first [done | congruence]|].
  split; [intros ->; repeat case_decide; first [done | congruence]|].
  split; [intros ->; repeat case_decide; first [done | congruence]|].
  split; [intros ->; repeat case_decide; first [done | congruence]|].
  split; [intros ->; repeat case_decide; first [done | congruence]|].
  split.
  - refine (bool_decide_unpack _ _). by vm_compute.
  - split.
    + intros Hout.
      repeat match goal with
             | H : _ ∉ _ :: _ |- _ => apply not_elem_of_cons in H as [? H]
             end.
      repeat case_decide; first [done | congruence].
    + intros state. unfold set_rules. apply has_owns.
Qed.

Lemma goal_selection_witness :
  goal_event demo_ending demo_base = "e_goal_a"
  ∧ ∀ state, set_rules demo_ending demo_base state = true
             ↔ owns demo_base state (goal_event demo_ending demo_base) 1.
Proof.
  destruct (goal_selection demo_ending demo_base) as (Ha & _ & _ & _ & _ & _ & _ & Hgoal).
  - refine (bool_decide_unpack _ _). by vm_compute.
  - split; [apply Ha; reflexivity|exact Hgoal].
Defined.
(** * Further properties of the compiler *)

Local Opaque make_has has_tokens padded.

(** A part that the lookup table translates to a check on [item]. *)
Lemma compile_single (w : World) (part item : string) (n : Z) :
  part_lookup w !! part = Some (make_has w item n) →
  part_name part = true → all_chars is_plain item = true →
  convert_to_rule w part = ([], Ok (EHas item (player w) (count_arg n))).
Proof.
  intros Hl Hn Hplain.
  assert (Hp : rule_parts part = [part]) by rule_parts_tac.
  unfold convert_to_rule, lambda_text. rewrite Hp.
  erewrite convert_parts_lookup by eassumption.
  cbn [convert_parts mbind result_bind]. f_equal.
  eapply (eval_enough 4).
  - rewrite ?app_assoc'. simpl. rewrite lex_has_end by done. simpl. names. reflexivity.
  - parse_text. reflexivity.
  - fuel_ok.
Qed.

Lemma part_lookup_event (w : World) (e : string) :
  e ∈ events w → part_lookup w !! e = Some (make_has w e 1).
Proof.
  intros He. unfold part_lookup. rewrite dict_comp_lookup.
  by rewrite decide_True by (by apply elem_of_elements).
Qed.

(** X1: The name of an event, as a part, is the check for the marker of that
    event, whatever else bears the name: the events are merged into the
    lookup table last. *)
Theorem event_part_wins (w : World) (e : string) :
  e ∈ events w → part_name e = true →
  convert_to_rule w e = ([], Ok (has_item w e))
  ∧ ∀ state, call (has_item w e) state = true ↔ owns w state e 1.
Proof.
  intros He Hn. split.
  - apply (compile_single w e e 1); [by apply part_lookup_event|done|].
    by apply part_name_plain.
  - intros state. unfold has_item. change None with (count_arg 1).
    by rewrite call_has.
Qed.

Lemma event_part_wins_witness :
  convert_to_rule demo_graph "ev" = ([], Ok (has_item demo_graph "ev"))
  ∧ ∀ state, call (has_item demo_graph "ev") state = true ↔ owns demo_graph state "ev" 1.
Proof.
  apply (event_part_wins demo_graph "ev"); [|vm_compute; reflexivity].
  unfold demo_graph, demo_events. simpl. apply elem_of_singleton. reflexivity.
Defined.

Lemma options_lookup_in (opts : list (string * bool)) (d : gmap string string)
    (o : string) (v : bool) :
  NoDup opts.*1 → (o, v) ∈ opts →
  foldl (λ d '(name, value), <[name := PyStr.of_bool value]> d) d opts !! o
  = Some (PyStr.of_bool v).
Proof.
  revert d. induction opts as [|[n x] opts IH]; intros d Hnd Hin.
  - by apply elem_of_nil in Hin.
  - simpl in *. apply NoDup_cons in Hnd as [Hn Hnd].
    apply elem_of_cons in Hin as [[= -> ->]|Hin].
    + rewrite options_lookup by done. by rewrite lookup_insert_eq.
    + by apply IH.
Qed.

(** X2: An option flag, as a part, is the constant the option had when the rule
    was compiled: the predicate does not look at the state. *)
Theorem option_part_constant (w : World) (o : string) (v : bool) :
  NoDup (options w).*1 → (o, v) ∈ options w → o ∉ events w →
  part_name o = true →
  convert_to_rule w o = ([], Ok (EConst v))
  ∧ ∀ state, call (EConst v) state = v.
Proof.
  intros Hnd Hin He Hn. split; [|done].
  assert (Hl : part_lookup w !! o = Some (PyStr.of_bool v)).
  { unfold part_lookup. rewrite dict_comp_lookup.
    rewrite decide_False by (by rewrite elem_of_elements).
    by apply options_lookup_in. }
  assert (Hp : rule_parts o = [o]) by rule_parts_tac.
  unfold convert_to_rule, lambda_text. rewrite Hp.
  erewrite convert_parts_lookup by eassumption.
  cbn [convert_parts mbind result_bind]. f_equal.
  by destruct v.
Qed.

Lemma option_part_constant_witness :
  convert_to_rule demo_world "hard_maya" = ([], Ok (EConst true))
  ∧ ∀ state, call (EConst true) state = true.
Proof.
  apply (option_part_constant demo_world "hard_maya" true).
  - refine (bool_decide_unpack _ _). vm_compute. reflexivity.
  - simpl. left.
  - simpl. apply not_elem_of_empty.
  - vm_compute. reflexivity.
Defined.

(** ** Counts *)

Lemma digits_all (d : uint) : all_chars PyStr.is_digit (NilEmpty.string_of_uint d) = true.
Proof. induction d; simpl; done. Qed.

Lemma int_digits_all (s : string) : ∀ prev,
  all_chars PyStr.is_digit s = true → (s ≠ "" ∨ prev = true) →
  PyStr.int_digits prev s = Some s.
Proof.
  induction s as [|c s IH]; intros prev Hs Hne; simpl.
  - destruct Hne as [? | ->]; done.
  - simpl in Hs. apply andb_prop in Hs as [Hc Hs]. rewrite Hc.
    rewrite (IH true) by auto. done.
Qed.

Lemma digit_not_sign (c : ascii) :
  PyStr.is_digit c = true → Ascii.eqb c "-" = false ∧ Ascii.eqb c "+" = false.
Proof.
  intros H. split.
  - destruct (Ascii.eqb_spec c "-") as [->|]; [by vm_compute in H|done].
  - destruct (Ascii.eqb_spec c "+") as [->|]; [by vm_compute in H|done].
Qed.

Lemma to_int_unsigned (s : string) :
  all_chars PyStr.is_digit s = true → s ≠ "" →
  PyStr.to_int s
  = match NilZero.uint_of_string s with
    | Some d => Ok (Z.of_uint d)
    | None => Raise ValueError
    end.
Proof.
  intros Hd Hne. unfold PyStr.to_int. destruct s as [|c s]; [done|].
  pose proof Hd as Hd'. cbn [all_chars] in Hd'. apply andb_prop in Hd' as [Hc _].
  destruct (digit_not_sign c Hc) as [-> ->].
  by rewrite int_digits_all by auto.
Qed.

Lemma to_int_signed (s : string) :
  all_chars PyStr.is_digit s = true → s ≠ "" →
  PyStr.to_int (String "-" s)
  = match NilZero.uint_of_string s with
    | Some d => Ok (- Z.of_uint d)
    | None => Raise ValueError
    end.
Proof.
  intros Hd Hne. unfold PyStr.to_int.
  change (Ascii.eqb "-" "-") with true. cbn iota.
  by rewrite int_digits_all by auto.
Qed.

Lemma to_int_digits (p : positive) :
  PyStr.to_int (NilEmpty.string_of_uint (Pos.to_uint p)) = Ok (Zpos p)
  ∧ PyStr.to_int (String "-" (NilEmpty.string_of_uint (Pos.to_uint p))) = Ok (Zneg p).
Proof.
  pose proof (digits_all (Pos.to_uint p)) as Hd.
  assert (Hne : NilEmpty.string_of_uint (Pos.to_uint p) ≠ "").
  { pose proof (Unsigned.to_uint_nonnil p). by destruct (Pos.to_uint p). }
  assert (Hv : NilZero.uint_of_string (NilEmpty.string_of_uint (Pos.to_uint p))
               = Some (Pos.to_uint p)).
  { rewrite <- string_of_uint_nonnil by apply Unsigned.to_uint_nonnil.
    apply NilZero.usu, Unsigned.to_uint_nonnil. }
  assert (Hz : Z.of_uint (Pos.to_uint p) = Zpos p).
  { unfold Z.of_uint. by rewrite DecimalPos.Unsigned.of_to. }
  rewrite to_int_unsigned, to_int_signed by done. rewrite Hv, Hz. done.
Qed.

(** [int(str(n))] is [n]. *)
Lemma to_int_of_int (n : Z) : PyStr.to_int (PyStr.of_int n) = Ok n.
Proof.
  unfold PyStr.of_int. destruct n as [|p|p]; simpl; [done| |].
  - rewrite string_of_uint_nonnil by apply Unsigned.to_uint_nonnil.
    apply to_int_digits.
  - rewrite string_of_uint_nonnil by apply Unsigned.to_uint_nonnil.
    apply to_int_digits.
Qed.

Lemma digit_count_char (c : ascii) : PyStr.is_digit c = true → count_char c = true.
Proof.
  destruct c as [[] [] [] [] [] [] [] []]; intros H; vm_compute in H; try done.
Qed.

Lemma of_int_count_chars (n : Z) : all_chars count_char (PyStr.of_int n) = true.
Proof.
  assert (Hd : ∀ d, all_chars count_char (NilEmpty.string_of_uint d) = true).
  { intros d. eapply all_chars_impl; [apply digit_count_char|apply digits_all]. }
  unfold PyStr.of_int. destruct n as [|p|p]; simpl; [done| |];
    rewrite string_of_uint_nonnil by apply Unsigned.to_uint_nonnil; [done|].
  by rewrite Hd.
Qed.

Lemma count_char_parts (c : string) :
  all_chars count_char c = true →
  all_chars name_char c = true
  ∧ all_chars (λ ch, negb (Ascii.eqb ch "{")) c = true
  ∧ all_chars (λ ch, negb (Ascii.eqb ch "}")) c = true.
Proof.
  intros H. split_and!; (eapply all_chars_impl; [|exact H]); intros ch;
    unfold count_char; intros [[? ?]%andb_prop ?]%andb_prop; done.
Qed.

(** The text the loop has built when it reaches the end of a counted part,
    or the exception of [int]. *)
Lemma lambda_text_counted (w : World) (key c : string) :
  counted_part w key c = true → all_chars count_char c = true →
  lambda_text w (key +:+ "{" +:+ c +:+ "}")
  = match PyStr.to_int c with
    | Ok n => ([], Ok ("lambda state: " +:+ make_has w key n))
    | Raise e => ([], Raise e)
    end.
Proof.
  unfold counted_part.
  intros [[[Hi Hk]%andb_prop Hb]%andb_prop Hl]%andb_prop Hc.
  apply bool_decide_eq_true in Hi, Hl.
  destruct (count_char_parts c Hc) as (Hcn & Hcl & Hcr).
  assert (Hpart : part_name (key +:+ "{" +:+ c +:+ "}") = true).
  { apply part_name_app; [done|]. simpl.
    rewrite all_chars_app, Hcn. done. }
  assert (Hp : rule_parts (key +:+ "{" +:+ c +:+ "}") = [key +:+ "{" +:+ c +:+ "}"]).
  { unfold rule_parts, PyStr.split. rewrite padded_name_end by done.
    by rewrite split_name_end. }
  assert (Hs : PyStr.split_on "{" (key +:+ "{" +:+ c +:+ "}") = [key; c +:+ "}"]).
  { unfold PyStr.split_on. rewrite split_on_go_word by done. simpl.
    rewrite split_on_go_word by done. simpl.
    rewrite <- (app_empty_r (PyStr.snoc c "}")). by rewrite app_snoc. }
  assert (Hh : hd "" (PyStr.split_on "}" (c +:+ "}")) = c).
  { unfold PyStr.split_on. rewrite split_on_go_word by done. done. }
  unfold lambda_text. rewrite Hp. cbn [convert_parts]. rewrite Hl, Hs.
  cbn [hd lookup list_lookup]. rewrite bool_decide_eq_true_2 by done.
  rewrite Hh. by destruct (PyStr.to_int c).
Qed.

(** X3: A counted part [key{n}], for any integer [n] as [str] writes it, asks
    for [n] units of the item when [n] is two or more and for one unit
    otherwise: a count of one, zero or less is the plain check. *)
Theorem counted_part_any (w : World) (key : string) (n : Z) :
  counted_part w key (PyStr.of_int n) = true →
  ∃ f, convert_to_rule w (key +:+ "{" +:+ PyStr.of_int n +:+ "}") = ([], Ok f)
       ∧ ∀ state, call f state = true ↔ owns w state key (Z.max 1 n).
Proof.
  intros Hk. exists (EHas key (player w) (count_arg n)). split.
  - unfold convert_to_rule.
    rewrite lambda_text_counted by (done || apply of_int_count_chars).
    rewrite to_int_of_int. cbn [mbind result_bind]. f_equal.
    unfold counted_part in Hk.
    apply andb_prop in Hk as [[[_ Hname]%andb_prop _]%andb_prop _].
    pose proof (part_name_plain _ Hname).
    eapply (eval_enough 4).
    + rewrite ?app_assoc'. simpl. rewrite lex_has_end by done. simpl. names. reflexivity.
    + parse_text. reflexivity.
    + fuel_ok.
  - intros state. rewrite call_has. destruct (decide (1 < n)).
    + by rewrite Z.max_r by lia.
    + by rewrite Z.max_l by lia.
Qed.

Lemma counted_part_any_witness :
  ∃ f, convert_to_rule demo_world ("Key" +:+ "{" +:+ PyStr.of_int 0 +:+ "}") = ([], Ok f)
       ∧ ∀ state, call f state = true ↔ owns demo_world state "Key" (Z.max 1 0).
Proof. apply (counted_part_any demo_world "Key" 0). vm_compute. reflexivity. Defined.

(** X4: A counted part whose count [int] rejects makes the compiler raise the
    exception of [int]; nothing is printed and no predicate is made. *)
Theorem counted_part_not_a_number (w : World) (key c : string) (e : exn) :
  counted_part w key c = true → all_chars count_char c = true →
  PyStr.to_int c = Raise e →
  e = ValueError ∧ convert_to_rule w (key +:+ "{" +:+ c +:+ "}") = ([], Raise e).
Proof.
  intros Hk Hc He. split.
  - unfold PyStr.to_int in He. destruct c as [|ch c']; simpl in He.
    + by injection He.
    + repeat case_match; by simplify_eq.
  - unfold convert_to_rule. rewrite lambda_text_counted by done. by rewrite He.
Qed.

Lemma counted_part_not_a_number_witness :
  ValueError = ValueError
  ∧ convert_to_rule demo_world ("Key" +:+ "{" +:+ "x" +:+ "}") = ([], Raise ValueError).
Proof.
  apply (counted_part_not_a_number demo_world "Key" "x" ValueError);
    vm_compute; reflexivity.
Defined.

(** ** The loop over the parts *)

Lemma split_on_go_cons (sep : ascii) (s : string) : ∀ cur,
  ∃ x l, PyStr.split_on_go sep cur s = x :: l.
Proof.
  induction s as [|c s IH]; intros cur; simpl; [by eexists _, _|].
  destruct (Ascii.eqb c sep); [by eexists _, _|apply IH].
Qed.

Lemma split_on_go_single (sep : ascii) (s : string) : ∀ cur,
  PyStr.split_on_go sep cur s !! 1%nat = None →
  PyStr.split_on_go sep cur s = [cur +:+ s].
Proof.
  induction s as [|c s IH]; intros cur; simpl.
  - by rewrite app_empty_r.
  - destruct (Ascii.eqb c sep).
    + destruct (split_on_go_cons sep s "") as (x & l & ->). done.
    + intros H. rewrite IH by done. by rewrite app_snoc.
Qed.

Lemma options_lookup_keeps (opts : list (string * bool)) (d : gmap string string) (k : string) :
  is_Some (d !! k) →
  is_Some (foldl (λ d '(name, value), <[name := PyStr.of_bool value]> d) d opts !! k).
Proof.
  revert d. induction opts as [|[n v] opts IH]; intros d Hk; simpl; [done|].
  apply IH. destruct (decide (n = k)) as [->|].
  - rewrite lookup_insert_eq. by eexists.
  - by rewrite lookup_insert_ne.
Qed.

(** Every item of the catalogue is an entry of the lookup table. *)
Lemma part_lookup_has_items (w : World) (part : string) :
  part ∈ item_dict w → is_Some (part_lookup w !! part).
Proof.
  intros Hin. unfold part_lookup. rewrite dict_comp_lookup.
  destruct (decide (part ∈ elements (events w))); [by eexists|].
  apply options_lookup_keeps.
  destruct (decide (part = "Infinite_Grapple")) as [->|];
    [rewrite lookup_insert_eq; by eexists|rewrite lookup_insert_ne by done].
  destruct (decide (part = "Grappling_Hook_Upgrade")) as [->|];
    [rewrite lookup_insert_eq; by eexists|rewrite lookup_insert_ne by done].
  rewrite dict_comp_lookup. rewrite decide_True by done. by eexists.
Qed.

Lemma convert_parts_raises (w : World) (parts : list string) : ∀ text out e,
  (convert_parts w parts text out).2 = Raise e → e = ValueError.
Proof.
  induction parts as [|part parts IH]; intros text out e; [done|].
  cbn [convert_parts].
  destruct (part_lookup w !! part) as [v|] eqn:Hl; [apply IH|].
  case_bool_decide as Hi; [|apply IH].
  destruct (PyStr.split_on "{" part !! 1%nat) as [c|] eqn:Hc.
  - destruct (PyStr.to_int _) as [n|e'] eqn:Hn; [apply IH|].
    simpl. intros [= <-]. unfold PyStr.to_int in Hn.
    repeat case_match; by simplify_eq.
  - exfalso. unfold PyStr.split_on in *.
    rewrite (split_on_go_single _ _ _ Hc) in Hi. simpl in Hi.
    apply part_lookup_has_items in Hi as [? Hi]. congruence.
Qed.

(** X5: Building the text fails only through [int]: the subscript
    [splitPart[1]] always finds its element, because a part that is an item
    name is found in the lookup table before. *)
Theorem lambda_text_raises (w : World) (rule : string) (e : exn) :
  (lambda_text w rule).2 = Raise e → e = ValueError.
Proof. apply convert_parts_raises. Qed.

Lemma lambda_text_raises_witness :
  (lambda_text demo_world "A + Key{x}").2 = Raise ValueError ∧ ValueError = ValueError.
Proof.
  split; [by vm_compute|].
  apply (lambda_text_raises demo_world "A + Key{x}"). by vm_compute.
Defined.

Lemma joined_app (a b : list string) : joined (a ++ b) = joined a +:+ joined b.
Proof.
  unfold joined. induction a as [|x a IH]; simpl; [done|].
  by rewrite IH, app_assoc'.
Qed.

Lemma convert_parts_known_unknown (w : World) (parts : list string) : ∀ text out,
  Forall (λ part, is_Some (part_lookup w !! part) ∨ unknown_part w part) parts →
  convert_parts w parts text out
  = (out ++ reported (filter (λ part, part_lookup w !! part = None) parts),
     Ok (text +:+ joined (omap (λ part, part_lookup w !! part) parts))).
Proof.
  induction parts as [|part parts IH]; intros text out Hall.
  - simpl. by rewrite app_nil_r, app_empty_r.
  - apply Forall_cons in Hall as [Hp Hall]. cbn [convert_parts].
    rewrite filter_cons. cbn [omap list_omap].
    destruct (part_lookup w !! part) as [v|] eqn:Hl.
    + rewrite IH by done. rewrite decide_False by (intros ?; congruence).
      cbn [joined foldr]. fold (joined (omap (λ part, part_lookup w !! part) parts)).
      by rewrite app_assoc'.
    + destruct Hp as [[? ?]|[_ Hi]]; [done|].
      rewrite bool_decide_eq_false_2 by done. rewrite IH by done.
      rewrite decide_True by done. unfold reported. simpl.
      by rewrite <- app_assoc.
Qed.

(** X6: Where every part of a rule is an entry of the lookup table or is
    unknown, the loop prints the unknown parts, in their order, and hands to
    [eval] the translations of the others, in their order, after the lambda
    header. *)
Theorem lambda_text_skips (w : World) (rule : string) :
  Forall (λ part, is_Some (part_lookup w !! part) ∨ unknown_part w part)
         (rule_parts rule) →
  lambda_text w rule
  = (reported (filter (λ part, part_lookup w !! part = None) (rule_parts rule)),
     Ok ("lambda state: "
         +:+ joined (omap (λ part, part_lookup w !! part) (rule_parts rule)))).
Proof. intros Hall. unfold lambda_text. by rewrite convert_parts_known_unknown. Qed.

Lemma lambda_text_skips_witness :
  lambda_text demo_world "A + zz | B"
  = (reported (filter (λ part, part_lookup demo_world !! part = None)
                      (rule_parts "A + zz | B")),
     Ok ("lambda state: "
         +:+ joined (omap (λ part, part_lookup demo_world !! part)
                          (rule_parts "A + zz | B")))).
Proof.
  apply (lambda_text_skips demo_world "A + zz | B").
  assert (Hp : rule_parts "A + zz | B" = ["A"; "+"; "zz"; "|"; "B"])
    by (vm_compute; reflexivity).
  rewrite Hp. clear Hp.
  repeat apply Forall_cons_2; try apply Forall_nil_2;
    first [ by (left; vm_compute; eexists) | right ].
  split; [vm_compute; reflexivity|].
  intros Hin. vm_compute in Hin.
  repeat (apply elem_of_cons in Hin as [Hin|Hin]; [discriminate Hin|]).
  by apply elem_of_nil in Hin.
Defined.

Lemma space_not_paren (c : ascii) :
  PyStr.is_space c = true → Ascii.eqb c "(" = false ∧ Ascii.eqb c ")" = false.
Proof.
  intros H. split.
  - destruct (Ascii.eqb_spec c "(") as [->|]; [by vm_compute in H|done].
  - destruct (Ascii.eqb_spec c ")") as [->|]; [by vm_compute in H|done].
Qed.

Lemma rule_parts_blank (rule : string) :
  all_chars PyStr.is_space rule = true → rule_parts rule = [].
Proof.
  unfold rule_parts, PyStr.split. induction rule as [|c rule IH]; [done|].
  simpl. intros [Hc Hr]%andb_prop. destruct (space_not_paren c Hc) as [H1 H2].
  rewrite padded_char by done. simpl. rewrite Hc. by apply IH.
Qed.

(** X7: Where no part of a rule is known, every part is printed and [eval]
    raises on the bare lambda header. A text of white space only is such a
    rule: it has no part, and it is not the empty text that [create_regions]
    sets aside. *)
Theorem unknown_rule_raises (w : World) (rule : string) :
  Forall (unknown_part w) (rule_parts rule) →
  convert_to_rule w rule = (reported (rule_parts rule), Raise SyntaxError)
  ∧ (rule ≠ "" → logic_of w rule = Raise SyntaxError)
  ∧ (all_chars PyStr.is_space rule = true → rule_parts rule = []).
Proof.
  intros Hall.
  assert (Hrun : convert_to_rule w rule = (reported (rule_parts rule), Raise SyntaxError)).
  { unfold convert_to_rule, lambda_text. rewrite convert_parts_known_unknown.
    - assert (Ho : omap (λ part, part_lookup w !! part) (rule_parts rule) = []).
      { induction Hall as [|p ps [Hp _] _ IH]; [done|].
        cbn [omap list_omap] in *. by rewrite Hp. }
      assert (Hf : filter (λ part, part_lookup w !! part = None) (rule_parts rule)
                   = rule_parts rule).
      { clear Ho. induction Hall as [|p ps [Hp _] _ IH]; [done|].
        rewrite filter_cons, decide_True by done. by rewrite IH. }
      by rewrite Hf, Ho.
    - eapply Forall_impl; [exact Hall|]. intros p Hp. by right. }
  split; [done|]. split; [|apply rule_parts_blank].
  intros Hne. unfold logic_of. rewrite decide_False by done. by rewrite Hrun.
Qed.

Lemma unknown_rule_raises_witness :
  convert_to_rule demo_world " " = ([], Raise SyntaxError)
  ∧ logic_of demo_world " " = Raise SyntaxError.
Proof.
  destruct (unknown_rule_raises demo_world " ") as (Hrun & Hlogic & _).
  - vm_compute. constructor.
  - split; [exact Hrun|]. apply Hlogic. discriminate.
Defined.

Local Transparent make_has has_tokens padded.


(** * Further properties of Phase 1 and of the identifiers *)

(** X8: The outcome of Phase 1 does not depend on the order in which the rule
    keys are met, nor on what an earlier run left in the class: two runs
    over the same catalogue, the same events and the same rule keys in any
    order record the same parents. *)
Theorem stage_generate_early_order (w1 w2 : World) (evs : gset string)
    (rls1 rls2 : list ((string * string) * string)) :
  location_list w1 = location_list w2 → rls1.*1 ≡ₚ rls2.*1 →
  ∃ a b,
    stage_generate_early w1 (evs, rls1) = Ok a
    ∧ stage_generate_early w2 (evs, rls2) = Ok b
    ∧ location_to_region a = location_to_region b.
Proof.
  intros Hl Hp.
  destruct (stage_generate_early_spec w1 evs rls1) as (a & Ha & _ & _ & _ & _ & Hma).
  destruct (stage_generate_early_spec w2 evs rls2) as (b & Hb & _ & _ & _ & _ & Hmb).
  exists a, b. split; [done|]. split; [done|].
  apply map_eq. intros t. apply option_eq. intros p.
  rewrite Hma, Hmb, Hl.
  assert (Hperm : targeting t rls1.*1 ≡ₚ targeting t rls2.*1)
    by (unfold targeting; by rewrite Hp).
  split; intros [Hk Ht]; (split; [done|]).
  - rewrite Ht in Hperm. symmetry. by apply Permutation_singleton_l.
  - rewrite Ht in Hperm. by apply Permutation_singleton_r in Hperm.
Qed.

Lemma stage_generate_early_order_witness :
  ∃ a b,
    stage_generate_early demo_base (demo_events, demo_rules) = Ok a
    ∧ stage_generate_early cycle_graph (demo_events, reverse demo_rules) = Ok b
    ∧ location_to_region a = location_to_region b.
Proof.
  apply (stage_generate_early_order demo_base cycle_graph demo_events demo_rules
           (reverse demo_rules)).
  - reflexivity.
  - rewrite fmap_reverse. by rewrite reverse_Permutation.
Defined.

Lemma enumerate_lookup (names : list string) : ∀ (d : gmap string Z) (k : nat) (t : string) (n : Z),
  foldl (λ d '(i, x), <[x := base_id + Z.of_nat i]> d) d
        (imap (λ i x, (k + i, x)%nat) names) !! t = Some n
  ↔ (∃ i, names !! i = Some t
          ∧ (∀ j, (i < j)%nat → names !! j ≠ Some t)
          ∧ n = base_id + Z.of_nat (k + i))
    ∨ ((t ∉ names) ∧ d !! t = Some n).
Proof.
  induction names as [|x names IH]; intros d k t n; simpl.
  - split.
    + intros H. right. split; [apply not_elem_of_nil|done].
    + intros [(i & Hi & _)|[_ H]]; [done|done].
  - rewrite (imap_ext _ (λ i x, (S k + i, x)%nat))
      by (intros; unfold compose; simpl; f_equal; lia).
    rewrite IH. split.
    + intros [(i & Hi & Hlast & ->)|[Hnin Hd]].
      * left. exists (S i). split; [done|]. split; [|f_equal; lia].
        intros [|j] Hj; [lia|]. simpl. apply Hlast. lia.
      * destruct (decide (x = t)) as [->|Hne].
        -- rewrite lookup_insert_eq in Hd. injection Hd as <-.
           left. exists 0%nat. split; [done|]. split; [|f_equal; lia].
           intros [|j] Hj; [lia|]. simpl. intros Hin.
           apply Hnin. by eapply list_elem_of_lookup_2.
        -- rewrite lookup_insert_ne in Hd by done. right. split; [|done].
           rewrite not_elem_of_cons. done.
    + intros [(i & Hi & Hlast & ->)|[Hnin Hd]].
      * destruct i as [|i].
        -- simpl in Hi. injection Hi as ->. right. split.
           ++ intros [j Hj]%list_elem_of_lookup_1. apply (Hlast (S j)); [lia|done].
           ++ by rewrite lookup_insert_eq, Nat.add_0_r.
        -- left. exists i. split; [done|]. split; [|f_equal; lia].
           intros j Hj. apply (Hlast (S j)). lia.
      * apply not_elem_of_cons in Hnin as [Hne Hnin]. right. split; [done|].
        by rewrite lookup_insert_ne.
Qed.

(** X9: The identifier of a location is [base_id] plus the place of its name in
    the catalogue (the last place, should the name stand twice); the names
    of the catalogue are the ones that have an identifier, the identifiers
    lie in the block of the catalogue after [base_id], and no two names
    share one. *)
Theorem location_name_to_id_spec (w : World) :
  (∀ t n, location_name_to_id w !! t = Some n
          ↔ ∃ i, location_list w !! i = Some t
                 ∧ (∀ j, (i < j)%nat → location_list w !! j ≠ Some t)
                 ∧ n = base_id + Z.of_nat i)
  ∧ (∀ t, is_Some (location_name_to_id w !! t) ↔ t ∈ location_list w)
  ∧ (∀ t n, location_name_to_id w !! t = Some n →
            base_id ≤ n < base_id + Z.of_nat (length (location_list w)))
  ∧ (∀ a b n, location_name_to_id w !! a = Some n →
              location_name_to_id w !! b = Some n → a = b).
Proof.
  assert (Hspec : ∀ t n, location_name_to_id w !! t = Some n
          ↔ ∃ i, location_list w !! i = Some t
                 ∧ (∀ j, (i < j)%nat → location_list w !! j ≠ Some t)
                 ∧ n = base_id + Z.of_nat i).
  { intros t n. unfold location_name_to_id.
    rewrite (enumerate_lookup (location_list w) ∅ 0 t n). split.
    - intros [H|[_ H]]; [done|]. by rewrite lookup_empty in H.
    - intros H. by left. }
  split; [exact Hspec|]. split_and!.
  - intros t. unfold location_name_to_id.
    rewrite (location_ids_lookup (location_list w) ∅ 0 t), lookup_empty.
    split; [intros [?|[? ?]]; done|by left].
  - intros t n (i & Hi & _ & ->)%Hspec.
    apply lookup_lt_Some in Hi. lia.
  - intros a b n (i & Hi & _ & ->)%Hspec (j & Hj & _ & Heq)%Hspec.
    assert (i = j) as -> by lia. congruence.
Qed.

(** ** Items *)

Lemma dict_of_lookup {V} (entries : list (string * V)) : ∀ (d : gmap string V) (k : string) (v : V),
  foldl (λ d entry, <[entry.1 := entry.2]> d) d entries !! k = Some v →
  (k, v) ∈ entries ∨ ((k ∉ entries.*1) ∧ d !! k = Some v).
Proof.
  induction entries as [|[k' v'] entries IH]; intros d k v; simpl.
  - intros H. right. split; [apply not_elem_of_nil|done].
  - intros [Hin|[Hnin Hd]]%IH.
    + left. by right.
    + destruct (decide (k' = k)) as [->|Hne].
      * rewrite lookup_insert_eq in Hd. injection Hd as ->. left. by left.
      * rewrite lookup_insert_ne in Hd by done. right. split; [|done].
        rewrite not_elem_of_cons. done.
Qed.

Lemma dict_of_is_Some {V} (entries : list (string * V)) : ∀ (d : gmap string V) (k : string),
  is_Some (foldl (λ d entry, <[entry.1 := entry.2]> d) d entries !! k)
  ↔ k ∈ entries.*1 ∨ is_Some (d !! k).
Proof.
  induction entries as [|[k' v'] entries IH]; intros d k; simpl.
  - split; [by right|]. intros [H|H]; [by apply elem_of_nil in H|done].
  - rewrite IH, elem_of_cons. destruct (decide (k' = k)) as [->|Hne].
    + rewrite lookup_insert_eq. split; [by left; left|by right].
    + rewrite lookup_insert_ne by done. intuition congruence.
Qed.

Lemma dict_keys_NoDup (keys : list string) : ∀ seen, NoDup (dict_keys seen keys).
Proof.
  induction keys as [|k keys IH]; intros seen; simpl; [constructor|].
  destruct (decide (k ∈ seen)); [apply IH|].
  constructor; [|apply IH]. rewrite elem_of_dict_keys. set_solver.
Qed.

Lemma item_ids_lookup (entries : list (string * (Z * Z))) (item : string) (n : Z) :
  item_name_to_id entries !! item = Some n
  ↔ ∃ i, dict_keys ∅ entries.*1 !! i = Some item ∧ n = base_id + Z.of_nat i.
Proof.
  unfold item_name_to_id.
  rewrite (enumerate_lookup (dict_keys ∅ entries.*1) ∅ 0 item n). split.
  - intros [(i & Hi & _ & ->)|[_ H]]; [by exists i|]. by rewrite lookup_empty in H.
  - intros (i & Hi & ->). left. exists i. split; [done|]. split; [|done].
    intros j Hj Hj'.
    pose proof (NoDup_lookup _ _ _ _ (dict_keys_NoDup entries.*1 ∅) Hi Hj'). lia.
Qed.

Lemma dict_of_key {V} (entries : list (string * V)) (k : string) (v : V) :
  dict_of entries !! k = Some v → k ∈ entries.*1 ∧ (k, v) ∈ entries.
Proof.
  intros Hd. split.
  - assert (His : is_Some (dict_of entries !! k)) by (by eexists).
    apply dict_of_is_Some in His as [?|[? H]]; [done|].
    by rewrite lookup_empty in H.
  - apply dict_of_lookup in Hd as [?|[_ H]]; [done|]. by rewrite lookup_empty in H.
Qed.

Lemma create_item_known (player : Z) (entries : list (string * (Z * Z))) (k : string)
    (cls count : Z) :
  dict_of entries !! k = Some (cls, count) →
  ∃ i, dict_keys ∅ entries.*1 !! i = Some k
       ∧ item_name_to_id entries !! k = Some (base_id + Z.of_nat i)
       ∧ create_item player entries k
         = Ok {| item_name := k; classification := cls;
                 code := Some (base_id + Z.of_nat i); item_player := player |}.
Proof.
  intros Hd. destruct (dict_of_key _ _ _ Hd) as [Hin _].
  assert (Hk : k ∈ dict_keys ∅ entries.*1) by (rewrite elem_of_dict_keys; set_solver).
  apply list_elem_of_lookup_1 in Hk as [i Hi].
  assert (Hid : item_name_to_id entries !! k = Some (base_id + Z.of_nat i)).
  { apply item_ids_lookup. by exists i. }
  exists i. split; [done|]. split; [done|].
  unfold create_item. by rewrite Hd, Hid.
Qed.

(** X10: [create_item] raises [KeyError] for a name the item table does not
    hold. For a name it holds it returns the item with that name, the
    classification of the (last) entry for the name, the player, and as code
    [base_id] plus the place of the name among the keys of the table. No two
    names get the same code. *)
Theorem create_item_spec (player : Z) (entries : list (string * (Z * Z))) :
  (∀ item, (item ∉ entries.*1) → create_item player entries item = Raise KeyError)
  ∧ (∀ item, item ∈ entries.*1 →
       ∃ i cls count,
         dict_keys ∅ entries.*1 !! i = Some item
         ∧ (item, (cls, count)) ∈ entries
         ∧ dict_of entries !! item = Some (cls, count)
         ∧ create_item player entries item
           = Ok {| item_name := item; classification := cls;
                   code := Some (base_id + Z.of_nat i); item_player := player |})
  ∧ (∀ a b x y, create_item player entries a = Ok x →
                create_item player entries b = Ok y → code x = code y → a = b).
Proof.
  split_and!.
  - intros item Hnin. unfold create_item.
    destruct (dict_of entries !! item) as [v|] eqn:Hd; [|done].
    exfalso. apply Hnin.
    assert (His : is_Some (dict_of entries !! item)) by (by eexists).
    apply dict_of_is_Some in His as [?|[? H]]; [done|].
    by rewrite lookup_empty in H.
  - intros item Hin.
    assert (His : is_Some (dict_of entries !! item)).
    { apply dict_of_is_Some. by left. }
    destruct His as [[cls count] Hd].
    destruct (create_item_known player entries item cls count Hd) as (i & Hi & _ & Hrun).
    exists i, cls, count. split; [done|]. split; [by apply dict_of_key|]. done.
  - intros a b x y Ha Hb Hc. unfold create_item in Ha, Hb.
    destruct (dict_of entries !! a); [|done].
    destruct (dict_of entries !! b); [|done].
    destruct (item_name_to_id entries !! a) as [n|] eqn:Hna; [|done].
    destruct (item_name_to_id entries !! b) as [m|] eqn:Hnb; [|done].
    injection Ha as <-. injection Hb as <-. simpl in Hc. injection Hc as <-.
    apply item_ids_lookup in Hna as (i & Hi & ->).
    apply item_ids_lookup in Hnb as (j & Hj & Heq).
    assert (i = j) as -> by lia. congruence.
Qed.

Lemma dict_items_spec {V} (entries : list (string * V)) (k : string) (v : V) :
  (k, v) ∈ dict_items entries ↔ dict_of entries !! k = Some v.
Proof.
  unfold dict_items. rewrite list_elem_of_omap. split.
  - intros (k' & _ & H). destruct (dict_of entries !! k') as [v'|] eqn:Hd; [|done].
    simpl in H. by injection H as -> ->.
  - intros Hd. exists k. rewrite Hd. split; [|done].
    rewrite elem_of_dict_keys. split; [|set_solver].
    assert (His : is_Some (dict_of entries !! k)) by (by eexists).
    apply dict_of_is_Some in His as [?|[? H]]; [done|].
    by rewrite lookup_empty in H.
Qed.

Lemma dict_items_keys {V} (entries : list (string * V)) :
  (dict_items entries).*1 = dict_keys ∅ entries.*1.
Proof.
  unfold dict_items.
  assert (Hall : ∀ k, k ∈ dict_keys ∅ entries.*1 → is_Some (dict_of entries !! k)).
  { intros k [Hk _]%elem_of_dict_keys. apply dict_of_is_Some. by left. }
  induction (dict_keys ∅ entries.*1) as [|k keys IH]; [done|].
  cbn [omap list_omap].
  destruct (Hall k) as [v Hv]; [by left|]. rewrite Hv. simpl. f_equal.
  apply IH. intros k' Hk'. apply Hall. by right.
Qed.

Lemma copies_loop (player : Z) (entries : list (string * (Z * Z))) (key : string) (it : Item)
    (l : list nat) : ∀ pool,
  create_item player entries key = Ok it →
  for_each (λ pool (_ : nat), item ← create_item player entries key; Ok (pool ++ [item]))
           pool l
  = Ok (pool ++ replicate (length l) it).
Proof.
  intros pool Hit. rewrite Hit. clear Hit. simpl. revert pool.
  induction l as [|x l IH]; intros pool; simpl.
  - by rewrite app_nil_r.
  - rewrite IH. by rewrite <- app_assoc.
Qed.

Lemma create_items_loop (player : Z) (entries : list (string * (Z * Z)))
    (l : list (string * (Z * Z))) : ∀ pool,
  (∀ entry, entry ∈ l → dict_of entries !! entry.1 = Some entry.2) →
  for_each
    (λ pool entry,
       for_each (λ pool (_ : nat),
                   item ← create_item player entries entry.1;
                   Ok (pool ++ [item]))
                pool (range entry.2.2))
    pool l
  = Ok (pool ++ (l ≫= copies player entries)).
Proof.
  induction l as [|[k [cls count]] l IH]; intros pool Hall.
  - simpl. by rewrite app_nil_r.
  - cbn [for_each fst snd].
    assert (Hd : dict_of entries !! k = Some (cls, count))
      by (apply (Hall (k, (cls, count))); by left).
    destruct (create_item_known player entries k cls count Hd) as (i & Hi & Hid & Hrun).
    erewrite copies_loop by exact Hrun.
    cbn [mbind result_bind]. rewrite IH by (intros e He; apply Hall; by right).
    rewrite bind_cons, <- app_assoc. do 2 f_equal. unfold copies, range. simpl.
    by rewrite Hid, length_seq.
Qed.

Lemma filter_replicate_name (name : string) (it : Item) (n : nat) :
  filter (λ it, item_name it = name) (replicate n it)
  = if decide (item_name it = name) then replicate n it else [].
Proof.
  induction n as [|n IH]; simpl; [by destruct (decide _)|].
  rewrite filter_cons, IH. by destruct (decide (item_name it = name)).
Qed.

Lemma copies_count (player : Z) (entries l : list (string * (Z * Z))) (name : string)
    (cls count : Z) :
  NoDup l.*1 → (name, (cls, count)) ∈ l →
  length (filter (λ it, item_name it = name) (l ≫= copies player entries))
  = Z.to_nat count.
Proof.
  assert (Hother : ∀ l : list (string * (Z * Z)), (name ∉ l.*1) →
            filter (λ it, item_name it = name) (l ≫= copies player entries) = []).
  { clear. induction l as [|[k v] l IH]; intros Hn; [done|].
    simpl in Hn. apply not_elem_of_cons in Hn as [Hne Hn].
    rewrite bind_cons, filter_app, IH, app_nil_r by done.
    unfold copies. rewrite filter_replicate_name. simpl.
    by rewrite decide_False by done. }
  induction l as [|[k v] l IH]; intros Hnd Hin.
  - by apply elem_of_nil in Hin.
  - simpl in Hnd. apply NoDup_cons in Hnd as [Hk Hnd].
    rewrite bind_cons, filter_app, length_app.
    unfold copies at 1. rewrite filter_replicate_name. simpl.
    apply elem_of_cons in Hin as [[= <- <-]|Hin].
    + rewrite Hother by done. rewrite decide_True by done.
      rewrite length_replicate. simpl. lia.
    + rewrite IH by done.
      assert (Hne : k ≠ name).
      { intros ->. apply Hk. apply list_elem_of_fmap. by exists (name, (cls, count)). }
      by rewrite decide_False by done.
Qed.

(** X11: [create_items] never raises. It appends to the pool, for the keys of the
    item table in their order, as many items as the count of the key says
    (none for a count of zero or less), each one what [create_item] returns
    for the key; what the pool held stays in front. *)
Theorem create_items_spec (player : Z) (entries : list (string * (Z * Z)))
    (itempool : list Item) :
  ∃ made,
    create_items player entries itempool = Ok (itempool ++ made)
    ∧ made = dict_items entries ≫= copies player entries
    ∧ (∀ it, it ∈ made → create_item player entries (item_name it) = Ok it)
    ∧ (∀ name cls count, dict_of entries !! name = Some (cls, count) →
         length (filter (λ it, item_name it = name) made) = Z.to_nat count)
    ∧ (∀ name, (name ∉ entries.*1) → ∀ it, it ∈ made → item_name it ≠ name).
Proof.
  exists (dict_items entries ≫= copies player entries).
  assert (Hmade : ∀ it, it ∈ dict_items entries ≫= copies player entries →
            ∃ k cls count, dict_of entries !! k = Some (cls, count)
              ∧ it = {| item_name := k; classification := cls;
                        code := item_name_to_id entries !! k; item_player := player |}).
  { intros it ([k [cls count]] & Hit & He)%list_elem_of_bind.
    apply dict_items_spec in He. exists k, cls, count. split; [done|].
    unfold copies in Hit. by apply elem_of_replicate in Hit as [-> _]. }
  split_and!.
  - unfold create_items. apply create_items_loop.
    intros [k v] Hin. by apply dict_items_spec.
  - done.
  - intros it (k & cls & count & Hd & ->)%Hmade. simpl.
    destruct (create_item_known player entries k cls count Hd) as (i & _ & Hid & Hrun).
    by rewrite Hid.
  - intros name cls count Hd. apply (copies_count _ _ _ _ cls).
    + rewrite dict_items_keys. apply dict_keys_NoDup.
    + by apply dict_items_spec.
  - intros name Hn it (k & cls & count & Hd & ->)%Hmade. simpl. intros ->.
    apply Hn. by apply (dict_of_key _ _ _ Hd).
Qed.


(** * Further properties of [create_regions] *)

(** ** The graph is well formed *)

Lemma get_parent_ensure (w : World) (depth : nat) : ∀ name regs r regs',
  get_parent w depth name regs = Ok (r, regs') → regs' = ensure r regs.
Proof.
  induction depth as [|depth IH]; intros name regs r regs'; simpl; [done|].
  destruct (regs !! name) as [R|] eqn:HR.
  - intros [= <- <-]. unfold ensure. by rewrite HR.
  - destruct (location_to_region w !! name) as [parent|]; [apply IH|].
    intros [= <- <-]. unfold ensure. by rewrite HR.
Qed.

Lemma get_parent_again (w : World) (depth : nat) : ∀ name regs r regs',
  get_parent w depth name regs = Ok (r, regs') →
  get_parent w depth name regs' = Ok (r, regs').
Proof.
  induction depth as [|depth IH]; intros name regs r regs' Hrun; [done|].
  simpl in *. destruct (regs !! name) as [R|] eqn:HR.
  - injection Hrun as <- <-. by rewrite HR.
  - destruct (location_to_region w !! name) as [parent|] eqn:Hp.
    + pose proof (get_parent_ensure _ _ _ _ _ _ Hrun) as Heq.
      assert (Hl : regs' !! name = if decide (r = name) then Some (new_region r) else None).
      { by rewrite Heq, ensure_lookup, HR. }
      rewrite Hl. destruct (decide (r = name)) as [->|]; [done|].
      by apply IH in Hrun.
    + injection Hrun as <- <-. by rewrite lookup_insert_eq.
Qed.

Lemma wellformed_ensure (r : string) regs : wellformed regs → wellformed (ensure r regs).
Proof.
  intros Hwf name R. rewrite ensure_lookup.
  destruct (regs !! name) as [R'|] eqn:HR.
  - intros [= <-]. destruct (Hwf name R' HR) as (Hn & Hl & He).
    split; [done|]. split; [done|]. intros e [R2 H2]%He.
    rewrite ensure_lookup, H2. by eexists.
  - destruct (decide (r = name)) as [->|]; [|done]. intros [= <-].
    split; [done|]. split; intros x Hx; by apply elem_of_nil in Hx.
Qed.

Lemma wellformed_connect (ra rb : string) lg regs :
  wellformed regs → is_Some (regs !! rb) →
  wellformed (alter (connect rb lg) ra regs).
Proof.
  intros Hwf Hb name R. rewrite lookup_alter.
  assert (Hkeep : ∀ n, is_Some (regs !! n) → is_Some (alter (connect rb lg) ra regs !! n)).
  { intros n [Rn Hn]. rewrite lookup_alter.
    destruct (decide (ra = n)) as [->|]; rewrite ?Hn; by eexists. }
  destruct (decide (ra = name)) as [->|].
  - destruct (regs !! name) as [R'|] eqn:HR; [|done]. simpl. intros [= <-].
    destruct (Hwf name R' HR) as (Hn & Hl & He). simpl.
    split; [done|]. split; [done|].
    intros e [Hin|Hin]%elem_of_app.
    + by apply Hkeep, He.
    + apply list_elem_of_singleton in Hin as ->. simpl. by apply Hkeep.
  - intros HR. destruct (Hwf name R HR) as (Hn & Hl & He).
    split; [done|]. split; [done|]. intros e Hin. by apply Hkeep, He.
Qed.

Lemma wellformed_append (r : string) (loc : Location) regs :
  wellformed regs → parent_region loc = r →
  wellformed (alter (append_location loc) r regs).
Proof.
  intros Hwf Hp name R. rewrite lookup_alter.
  assert (Hkeep : ∀ n, is_Some (regs !! n)
                       → is_Some (alter (append_location loc) r regs !! n)).
  { intros n [Rn Hn]. rewrite lookup_alter.
    destruct (decide (r = n)) as [->|]; rewrite ?Hn; by eexists. }
  destruct (decide (r = name)) as [->|].
  - destruct (regs !! name) as [R'|] eqn:HR; [|done]. simpl. intros [= <-].
    destruct (Hwf name R' HR) as (Hn & Hl & He). simpl.
    split; [done|]. split.
    + intros l [Hin|Hin]%elem_of_app; [by apply Hl|].
      by apply list_elem_of_singleton in Hin as ->.
    + intros e Hin. by apply Hkeep, He.
  - intros HR. destruct (Hwf name R HR) as (Hn & Hl & He).
    split; [done|]. split; [done|]. intros e Hin. by apply Hkeep, He.
Qed.

Lemma connect_names_wellformed (w : World) (depth : nat) (a b : string) lg bd bd' :
  connect_names w depth a b lg bd = Ok bd' →
  wellformed (regions bd) → wellformed (regions bd').
Proof.
  unfold connect_names. intros Hrun Hwf.
  destruct (get_parent w depth a (regions bd)) as [[ra regs1]|] eqn:Ha; [|done].
  simpl in Hrun.
  destruct (get_parent w depth b regs1) as [[rb regs2]|] eqn:Hb; [|done].
  simpl in Hrun. injection Hrun as <-. simpl.
  apply get_parent_ensure in Ha as ->. apply get_parent_ensure in Hb as ->.
  apply wellformed_connect; [by do 2 apply wellformed_ensure|apply ensure_is_Some].
Qed.

Lemma connect_rule_wellformed (w : World) (depth : nat) bd entry bd' :
  connect_rule w depth bd entry = Ok bd' →
  wellformed (regions bd) → wellformed (regions bd').
Proof.
  destruct entry as [[p t] rule]. unfold connect_rule, rule_logic. intros Hrun Hwf.
  destruct (decide (rule = "")) as [->|Hne].
  - simpl in Hrun. destruct (decide (is_Some (location_to_region w !! t))).
    + by injection Hrun as <-.
    + by eapply connect_names_wellformed.
  - destruct (convert_to_rule w rule) as [out [f|e]]; [|done]. simpl in Hrun.
    destruct (decide (is_Some (location_to_region w !! t))).
    + by injection Hrun as <-.
    + by eapply connect_names_wellformed in Hrun.
Qed.

Lemma place_wellformed (w : World) (depth : nat) (name r : string) (loc : Location)
    regs0 bd bd' :
  get_parent w depth name regs0 = Ok (r, regions bd) →
  parent_region loc = r →
  place w depth name loc bd = Ok bd' →
  wellformed (regions bd) → wellformed (regions bd').
Proof.
  intros Hfirst Hp Hrun Hwf. unfold place in Hrun.
  rewrite (get_parent_again _ _ _ _ _ _ Hfirst) in Hrun. simpl in Hrun.
  injection Hrun as <-. simpl. apply wellformed_append; [done|].
  by destruct (location_rules bd !! name) as [[?|]|].
Qed.

Lemma add_event_wellformed (w : World) (depth : nat) bd (event : string) bd' :
  add_event w depth bd event = Ok bd' →
  wellformed (regions bd) → wellformed (regions bd').
Proof.
  unfold add_event. intros Hrun Hwf.
  destruct (get_parent w depth event (regions bd)) as [[r regs]|] eqn:Hg; [|done].
  eapply (place_wellformed w depth event r (hide (create_event event event r))
            (regions bd) (with_regions bd regs));
    [exact Hg|reflexivity|exact Hrun|].
  simpl. apply get_parent_ensure in Hg as ->. by apply wellformed_ensure.
Qed.

Lemma add_location_wellformed (w : World) (depth : nat) bd (location : string) bd' :
  add_location w depth bd location = Ok bd' →
  wellformed (regions bd) → wellformed (regions bd').
Proof.
  unfold add_location. intros Hrun Hwf.
  destruct (get_parent w depth location (regions bd)) as [[r regs]|] eqn:Hg; [|done].
  eapply (place_wellformed w depth location r
            {| location_name := location; address := location_name_to_id w !! location;
               parent_region := r; locked_item := None; show_in_spoiler := true;
               access_rule := None |}
            (regions bd) (with_regions bd regs));
    [exact Hg|reflexivity|exact Hrun|].
  simpl. apply get_parent_ensure in Hg as ->. by apply wellformed_ensure.
Qed.

Lemma for_each_keeps {A S} (body : S → A → result S) (P : S → Prop) (l : list A) :
  (∀ st x st', body st x = Ok st' → P st → P st') →
  ∀ st st', for_each body st l = Ok st' → P st → P st'.
Proof.
  intros Hstep. induction l as [|x l IH]; intros st st'; simpl.
  - by intros [= <-].
  - destruct (body st x) as [st1|] eqn:Hb; [|done]. simpl.
    intros Hrun HP. eapply IH; [exact Hrun|]. by eapply Hstep.
Qed.

(** X12: Whenever [create_regions] returns, the graph it has built is well
    formed: every region bears the name it is registered under, every event
    and location object lies in the region it names as its parent, and every
    edge leads to a registered region. *)
Theorem create_regions_wellformed (w : World) (depth : nat) (bd : Build) :
  create_regions w depth = Ok bd → wellformed (regions bd).
Proof.
  unfold create_regions. intros Hrun.
  destruct (connect_names w depth "Menu" start_region None _) as [bd0|] eqn:H0; [|done].
  simpl in Hrun.
  destruct (for_each (connect_rule w depth) bd0 (rules w)) as [bd1|] eqn:H1; [|done].
  simpl in Hrun.
  destruct (for_each (add_event w depth) bd1 (elements (events w))) as [bd2|] eqn:H2;
    [|done].
  simpl in Hrun.
  eapply (for_each_keeps _ (λ bd, wellformed (regions bd))); [|exact Hrun|].
  { intros ???. apply add_location_wellformed. }
  eapply (for_each_keeps _ (λ bd, wellformed (regions bd))); [|exact H2|].
  { intros ???. apply add_event_wellformed. }
  eapply (for_each_keeps _ (λ bd, wellformed (regions bd))); [|exact H1|].
  { intros ???. apply connect_rule_wellformed. }
  eapply connect_names_wellformed; [exact H0|].
  intros name R. simpl. by rewrite lookup_empty.
Qed.

Lemma create_regions_wellformed_witness :
  ∃ bd, create_regions demo_graph 3 = Ok bd ∧ wellformed (regions bd).
Proof.
  destruct (create_regions_built demo_graph 3) as (bd & Hrun & _);
    [vm_compute; reflexivity..|].
  exists bd. split; [exact Hrun|].
  exact (create_regions_wellformed demo_graph 3 bd Hrun).
Defined.


(** ** When [create_regions] returns *)

Lemma for_each_app {A S} (body : S → A → result S) (l1 l2 : list A) : ∀ st,
  for_each body st (l1 ++ l2) = (st' ← for_each body st l1; for_each body st' l2).
Proof.
  induction l1 as [|x l1 IH]; intros st; simpl; [done|].
  destruct (body st x) as [st1|e]; simpl; [apply IH|done].
Qed.

Lemma connect_rule_raises (w : World) (depth : nat) (bd : Build) entry (e : exn) :
  logic_of w entry.2 = Raise e → connect_rule w depth bd entry = Raise e.
Proof.
  destruct entry as [[p t] rule]. unfold logic_of, connect_rule, rule_logic. simpl.
  destruct (decide (rule = "")); [done|].
  destruct (convert_to_rule w rule) as [out [f|e']]; simpl; [done|].
  by intros [= ->].
Qed.

Lemma menu_built (w : World) (depth : nat) :
  resolvable w depth = true →
  ∃ bd0,
    connect_names w depth "Menu" start_region None
      {| regions := ∅; location_rules := ∅; stdout := []; compiled := [] |} = Ok bd0
    ∧ built_rules w depth [] bd0.
Proof.
  intros Hr. rewrite connect_names_spec by (done || apply tidy_empty).
  eexists. split; [done|].
  unfold built_rules. simpl. split_and!; try done.
  - apply tidy_alter, tidy_ensure; [apply tidy_ensure; [apply tidy_empty|]|];
      by apply own_unmapped.
  - rewrite dom_alter_L, !dom_ensure, dom_empty_L.
    unfold regions_built. simpl. set_solver.
  - intros n. rewrite exits_of_connect.
    + rewrite !exits_of_ensure. unfold exits_built, menu_exit. simpl.
      by rewrite app_nil_r.
    + rewrite ensure_lookup.
      destruct (ensure_is_Some (own w depth "Menu") ∅) as [R ->]. by eexists.
  - intros n. by rewrite locations_of_connect, !locations_of_ensure.
Qed.

(** X13: Where every chain ends, a rule text that the compiler rejects with
    [SyntaxError] or [ValueError] stops [create_regions], provided the rule
    texts before it in the table compile: the call raises that very
    exception and returns nothing, whatever rule texts come after it. *)
Theorem create_regions_aborts (w : World) (depth : nat)
    (seen rest : list ((string * string) * string))
    (entry : (string * string) * string) (e : exn) :
  resolvable w depth = true →
  rules w = seen ++ entry :: rest →
  (∀ x, x ∈ seen → ∃ lg, logic_of w x.2 = Ok lg) →
  logic_of w entry.2 = Raise e →
  e = SyntaxError ∨ e = ValueError →
  create_regions w depth = Raise e ∧ compilable w = false.
Proof.
  intros Hr Hsplit Hok Hlg _. split.
  - unfold create_regions.
    destruct (menu_built w depth Hr) as (bd0 & -> & H0).
    cbn [mbind result_bind]. rewrite Hsplit, for_each_app.
    destruct (for_each_steps (connect_rule w depth) (built_rules w depth) seen)
      with (st := bd0) as (bd1 & -> & H1); [|done|].
    { intros sn x st Hx Hst. apply connect_rule_step; [done|by apply Hok|done]. }
    cbn [mbind result_bind for_each].
    by rewrite (connect_rule_raises w depth bd1 entry e Hlg).
  - unfold compilable. rewrite Hsplit, forallb_app. simpl. rewrite Hlg. simpl.
    apply andb_false_r.
Qed.

Lemma create_regions_aborts_witness :
  create_regions broken_graph 3 = Raise SyntaxError
  ∧ compilable broken_graph = false.
Proof.
  destruct (create_regions_aborts broken_graph 3
              [(("rm_start_0[100390]", "L3"), "B")]
              [(("L3", "ev"), "Key{2}")]
              (("L3", "Y"), "A + Bogus") SyntaxError) as (Hrun & Hc).
  - vm_compute. reflexivity.
  - reflexivity.
  - intros x Hx. apply list_elem_of_singleton in Hx as ->. eexists.
    vm_compute. reflexivity.
  - vm_compute. reflexivity.
  - by left.
  - split; [exact Hrun|exact Hc].
Defined.


(** ** The objects and their gates *)

Lemma attach_fields stash (name : string) (loc : Location) :
  address (attach stash name loc) = address loc
  ∧ locked_item (attach stash name loc) = locked_item loc
  ∧ show_in_spoiler (attach stash name loc) = show_in_spoiler loc.
Proof. unfold attach. by destruct (stash !! name) as [[?|]|]. Qed.

Lemma attach_rule stash (name : string) (loc : Location) :
  access_rule loc = None →
  access_rule (attach stash name loc) = default None (stash !! name).
Proof. intros H. unfold attach. by destruct (stash !! name) as [[?|]|]. Qed.

Lemma placed_count (w : World) (depth : nat) (make : string → Location)
    (seen : list string) (name x : string) :
  (∀ y, location_name (make y) = y) → NoDup seen →
  length (filter (λ loc, location_name loc = x) (placed w depth make seen name))
  = if decide (own w depth x = name) then (if decide (x ∈ seen) then 1 else 0)%nat
    else 0%nat.
Proof.
  intros Hmake. unfold placed. induction seen as [|y seen IH]; intros Hnd.
  - destruct (decide (own w depth x = name)); [|done].
    destruct (decide (x ∈ [])) as [H|H]; [by apply elem_of_nil in H|done].
  - apply NoDup_cons in Hnd as [Hy Hnd].
    rewrite bind_cons, filter_app, length_app, IH by done.
    destruct (decide (y = x)) as [->|Hne].
    + destruct (decide (own w depth x = name)) as [Ho|Ho].
      * rewrite filter_cons, decide_True by apply Hmake. simpl.
        rewrite decide_False by done. by rewrite decide_True by (by left).
      * done.
    + assert (Hz : filter (λ loc, location_name loc = x)
                     (if decide (own w depth y = name) then [make y] else []) = []).
      { destruct (decide (own w depth y = name)); [|done].
        rewrite filter_cons, decide_False; [done|]. by rewrite Hmake. }
      rewrite Hz. simpl. destruct (decide (own w depth x = name)); [|done].
      destruct (decide (x ∈ seen)) as [Hin|Hin].
      * by rewrite decide_True by (by right).
      * rewrite decide_False; [done|]. rewrite not_elem_of_cons. done.
Qed.

(** X14: Where every chain ends and every rule text compiles, [create_regions]
    makes one object for every event and one for every name of the
    catalogue, and puts it in the region the name resolves to; nothing else
    lies in a region. An event object has no address, is locked with the
    marker that bears its name and is hidden from the spoiler; a location
    object has the identifier of its name as address, holds nothing and is
    shown. *)
Theorem create_regions_objects (w : World) (depth : nat) :
  resolvable w depth = true → compilable w = true →
  ∃ bd,
    create_regions w depth = Ok bd
    ∧ (∀ x name,
         length (filter (λ loc, location_name loc = x) (locations_of (regions bd) name))
         = if decide (own w depth x = name)
           then ((if decide (x ∈ events w) then 1 else 0)
                 + (if decide (x ∈ location_list w) then 1 else 0))%nat
           else 0%nat)
    ∧ (∀ name loc, loc ∈ locations_of (regions bd) name →
         name = own w depth (location_name loc)
         ∧ ((location_name loc ∈ events w
             ∧ address loc = None
             ∧ locked_item loc = Some (location_name loc)
             ∧ show_in_spoiler loc = false)
            ∨ (location_name loc ∈ location_list w
               ∧ address loc = location_name_to_id w !! location_name loc
               ∧ is_Some (address loc)
               ∧ locked_item loc = None
               ∧ show_in_spoiler loc = true))).
Proof.
  intros Hr Hc.
  destruct (create_regions_built w depth Hr Hc) as (bd & Hbd & Hb).
  pose proof Hb as (_ & _ & _ & Hlocs & _ & _).
  assert (Hev : ∀ x, location_name (event_built w depth x) = x).
  { intros x. unfold event_built. by rewrite attach_name. }
  assert (Hlo : ∀ x, location_name (location_built w depth x) = x).
  { intros x. unfold location_built. by rewrite attach_name. }
  exists bd. split; [done|]. split.
  - intros x name. rewrite Hlocs, filter_app, length_app.
    rewrite !placed_count; [|done|apply dict_keys_NoDup|done|apply NoDup_elements].
    destruct (decide (own w depth x = name)); [|done].
    f_equal.
    + destruct (decide (x ∈ elements (events w))) as [H|H];
        rewrite elem_of_elements in H;
        [by rewrite decide_True|by rewrite decide_False].
    + destruct (decide (x ∈ dict_keys ∅ (location_list w))) as [H|H];
        rewrite elem_of_dict_keys in H.
      * rewrite decide_True; [done|]. by destruct H.
      * rewrite decide_False; [done|]. intros Hin. apply H.
        split; [done|apply not_elem_of_empty].
  - intros name loc Hloc. rewrite Hlocs in Hloc.
    apply elem_of_app in Hloc as [Hloc|Hloc];
      apply elem_of_placed in Hloc as (x & Hx & <- & ->).
    + rewrite Hev. split; [done|]. left. apply elem_of_elements in Hx.
      unfold event_built.
      destruct (attach_fields (stash_built w (rules w)) x
                  (hide (create_event x x (own w depth x)))) as (-> & -> & ->).
      done.
    + rewrite Hlo. split; [done|]. right. apply elem_of_dict_keys in Hx as [Hx _].
      unfold location_built.
      match goal with
      | |- context [attach ?s x ?l] => destruct (attach_fields s x l) as (-> & -> & ->)
      end.
      simpl. split_and!; try done.
      by apply (location_ids_lookup (location_list w) ∅ 0 x); left.
Qed.

Lemma create_regions_objects_witness :
  ∃ bd,
    create_regions demo_graph 3 = Ok bd
    ∧ length (filter (λ loc, location_name loc = "L2")
                     (locations_of (regions bd) "rm_start_0[100390]")) = 1%nat
    ∧ length (filter (λ loc, location_name loc = "L2")
                     (locations_of (regions bd) "L2")) = 0%nat.
Proof.
  destruct (create_regions_objects demo_graph 3) as (bd & Hrun & Hcount & _);
    [vm_compute; reflexivity..|].
  exists bd. split; [exact Hrun|]. rewrite !Hcount. clear.
  split; vm_compute; reflexivity.
Defined.

(** X15: After Phase 1, where every chain ends and every rule text compiles, the
    rule of a key whose target is elided becomes the gate of the object of
    the target: for a rule key [(p, t)] with a text that is not empty and an
    elided target [t], the object made for [t] lies in the region [p]
    resolves to and can be collected exactly in the states the compiled
    text accepts. *)
Theorem elided_rule_gate (w0 w : World) (evs : gset string)
    (rls : list ((string * string) * string)) (depth : nat) (p t rule : string) :
  stage_generate_early w0 (evs, rls) = Ok w →
  resolvable w depth = true → compilable w = true →
  ((p, t), rule) ∈ rls → mapped w t → rule ≠ "" →
  ∃ bd r f,
    create_regions w depth = Ok bd
    ∧ owner w depth p = Some r
    ∧ (convert_to_rule w rule).2 = Ok f
    ∧ location_rules bd !! t = Some (Some f)
    ∧ (∃ loc, loc ∈ locations_of (regions bd) r ∧ location_name loc = t)
    ∧ ∀ name loc,
        loc ∈ locations_of (regions bd) name → location_name loc = t →
        name = r ∧ access_rule loc = Some f
        ∧ ∀ state, can_access loc state = call f state.
Proof.
  intros Hrun Hr Hc Hin Hm Hne.
  destruct (create_regions_built w depth Hr Hc) as (bd & Hbd & Hb).
  pose proof Hb as (_ & _ & _ & Hlocs & Hstash & _).
  destruct (classified_mapped w0 w evs rls t Hrun) as (Hrules & Hevs & Hlist & Hone & _).
  destruct (Hone Hm) as (Hknown & Hlen & Hparent).
  destruct (compilable_entry w ((p, t), rule) Hc) as [lg Hlg]; [by rewrite Hrules|].
  simpl in Hlg.
  assert (Hf : ∃ f, (convert_to_rule w rule).2 = Ok f ∧ lg = Some f).
  { unfold logic_of in Hlg. rewrite decide_False in Hlg by done.
    destruct ((convert_to_rule w rule).2) as [f|]; [|done].
    exists f. split; [done|]. simpl in Hlg. congruence. }
  destruct Hf as (f & Hf & ->).
  assert (Hst : stash_built w (rules w) !! t = Some (Some f)).
  { rewrite (stash_built_only w (rules w) p t rule); rewrite ?Hrules; try done.
    by rewrite (logic_of_logic _ _ _ Hlg). }
  assert (Hown : own w depth t = own w depth p).
  { pose proof (own_owner w depth t Hr) as Ht.
    destruct depth as [|depth]; [done|].
    rewrite (owner_step _ _ _ _ (Hparent _ _ Hin)) in Ht.
    apply (owner_mono _ _ (S depth)) in Ht; [|lia].
    rewrite own_owner in Ht by done. congruence. }
  assert (Hev : ∀ x, location_name (event_built w depth x) = x).
  { intros x. unfold event_built. by rewrite attach_name. }
  assert (Hlo : ∀ x, location_name (location_built w depth x) = x).
  { intros x. unfold location_built. by rewrite attach_name. }
  assert (Hacc_e : access_rule (event_built w depth t) = Some f).
  { unfold event_built, attach. by rewrite Hst. }
  assert (Hacc_l : access_rule (location_built w depth t) = Some f).
  { unfold location_built, attach. by rewrite Hst. }
  exists bd, (own w depth p), f.
  split; [exact Hbd|]. split; [by apply own_owner|]. split; [done|].
  split; [by rewrite Hstash|]. split.
  - rewrite Hlocs, <- Hown. destruct Hknown as [Hl|He].
    + exists (location_built w depth t). split; [|apply Hlo].
      apply elem_of_app. right. apply elem_of_placed. exists t. split; [|done].
      apply elem_of_dict_keys. split; [done|apply not_elem_of_empty].
    + exists (event_built w depth t). split; [|apply Hev].
      apply elem_of_app. left. apply elem_of_placed. exists t. split; [|done].
      by apply elem_of_elements.
  - intros name loc Hloc Hname. rewrite Hlocs in Hloc.
    apply elem_of_app in Hloc as [Hloc|Hloc];
      apply elem_of_placed in Hloc as (x & _ & <- & ->).
    + rewrite Hev in Hname. subst x. split; [done|]. split; [done|].
      intros state. unfold can_access. by rewrite Hacc_e.
    + rewrite Hlo in Hname. subst x. split; [done|]. split; [done|].
      intros state. unfold can_access. by rewrite Hacc_l.
Qed.

Lemma elided_rule_gate_witness :
  ∃ bd f,
    create_regions demo_graph 3 = Ok bd
    ∧ (convert_to_rule demo_graph "A").2 = Ok f
    ∧ ∃ loc, loc ∈ locations_of (regions bd) "rm_start_0[100390]"
             ∧ location_name loc = "L2" ∧ access_rule loc = Some f.
Proof.
  destruct (elided_rule_gate demo_base demo_graph demo_events demo_rules 3
              "L1" "L2" "A")
    as (bd & r & f & Hrun & Hp & Hf & _ & (loc & Hloc & Hname) & Hall).
  - vm_compute. reflexivity.
  - vm_compute. reflexivity.
  - vm_compute. reflexivity.
  - in_list.
  - clear. vm_compute. by eexists.
  - discriminate.
  - exists bd, f. split; [exact Hrun|]. split; [exact Hf|].
    vm_compute in Hp. injection Hp as <-.
    exists loc. split; [exact Hloc|]. split; [exact Hname|].
    by destruct (Hall _ loc Hloc Hname) as (_ & ? & _).
Defined.

(** X16: Where every chain ends and every rule text compiles, the object of a
    name that is not elided lies in the region of that very name and has no
    gate: it can be collected in every state, and what guards it is on the
    edges that lead to its region. *)
Theorem unelided_no_gate (w : World) (depth : nat) (x : string) :
  resolvable w depth = true → compilable w = true → ¬ mapped w x →
  ∃ bd,
    create_regions w depth = Ok bd
    ∧ (x ∈ events w ∨ x ∈ location_list w →
       is_Some (regions bd !! x)
       ∧ ∃ loc, loc ∈ locations_of (regions bd) x ∧ location_name loc = x)
    ∧ ∀ name loc,
        loc ∈ locations_of (regions bd) name → location_name loc = x →
        name = x ∧ access_rule loc = None
        ∧ ∀ state, can_access loc state = true.
Proof.
  intros Hr Hc Hm.
  destruct (create_regions_built w depth Hr Hc) as (bd & Hbd & Hb).
  pose proof Hb as (_ & Hdom & _ & Hlocs & _ & _).
  assert (Hun : location_to_region w !! x = None).
  { destruct (location_to_region w !! x) eqn:H; [|done]. exfalso. apply Hm. by eexists. }
  assert (Hown : own w depth x = x) by (by apply own_self).
  assert (Hst : stash_built w (rules w) !! x = None).
  { by rewrite stash_built_lookup, decide_False. }
  assert (Hev : ∀ y, location_name (event_built w depth y) = y).
  { intros y. unfold event_built. by rewrite attach_name. }
  assert (Hlo : ∀ y, location_name (location_built w depth y) = y).
  { intros y. unfold location_built. by rewrite attach_name. }
  assert (Hacc_e : access_rule (event_built w depth x) = None).
  { unfold event_built, attach. by rewrite Hst. }
  assert (Hacc_l : access_rule (location_built w depth x) = None).
  { unfold location_built, attach. by rewrite Hst. }
  exists bd. split; [exact Hbd|]. split.
  - intros Hknown. split.
    + apply elem_of_dom. rewrite Hdom. destruct Hknown as [He|Hl].
      * apply elem_of_union_l, elem_of_union_r, elem_of_list_to_set, list_elem_of_fmap.
        exists x. split; [done|]. by apply elem_of_elements.
      * apply elem_of_union_r, elem_of_list_to_set, list_elem_of_fmap.
        exists x. split; [done|]. apply elem_of_dict_keys.
        split; [done|apply not_elem_of_empty].
    + rewrite Hlocs. destruct Hknown as [He|Hl].
      * exists (event_built w depth x). split; [|apply Hev].
        apply elem_of_app. left. apply elem_of_placed. exists x. split; [|done].
        by apply elem_of_elements.
      * exists (location_built w depth x). split; [|apply Hlo].
        apply elem_of_app. right. apply elem_of_placed. exists x. split; [|done].
        apply elem_of_dict_keys. split; [done|apply not_elem_of_empty].
  - intros name loc Hloc Hname. rewrite Hlocs in Hloc.
    apply elem_of_app in Hloc as [Hloc|Hloc];
      apply elem_of_placed in Hloc as (y & _ & <- & ->).
    + rewrite Hev in Hname. subst y. split; [done|]. split; [done|].
      intros state. unfold can_access. by rewrite Hacc_e.
    + rewrite Hlo in Hname. subst y. split; [done|]. split; [done|].
      intros state. unfold can_access. by rewrite Hacc_l.
Qed.

Lemma unelided_no_gate_witness :
  ∃ bd,
    create_regions demo_graph 3 = Ok bd
    ∧ ∃ loc, loc ∈ locations_of (regions bd) "L3"
             ∧ location_name loc = "L3" ∧ access_rule loc = None.
Proof.
  destruct (unelided_no_gate demo_graph 3 "L3") as (bd & Hrun & Hex & Hall).
  - vm_compute. reflexivity.
  - vm_compute. reflexivity.
  - clear. intros [y Hy]. vm_compute in Hy. discriminate.
  - exists bd. split; [exact Hrun|].
    destruct Hex as (_ & loc & Hloc & Hname); [right; in_list|].
    exists loc. split; [exact Hloc|]. split; [exact Hname|].
    by destruct (Hall _ loc Hloc Hname) as (_ & ? & _).
Defined.


(** ** The nesting of [get_parent] *)

(** X17: [get_parent] fails in one way only, by nesting too deep; where it
    returns, it returns the same at every greater depth, it has added at
    most the region it returns, and asking again changes nothing. *)
Theorem get_parent_deeper (w : World) (depth : nat) (name : string)
    (regs : gmap string Region) :
  (∀ e, get_parent w depth name regs = Raise e → e = RecursionError)
  ∧ (∀ r regs', get_parent w depth name regs = Ok (r, regs') →
       regs' = ensure r regs
       ∧ get_parent w depth name regs' = Ok (r, regs')
       ∧ ∀ depth', (depth ≤ depth')%nat →
           get_parent w depth' name regs = Ok (r, regs')).
Proof.
  split.
  - revert name. induction depth as [|depth IH]; intros name e; simpl.
    + by intros [= <-].
    + destruct (regs !! name); [done|].
      destruct (location_to_region w !! name); [apply IH|done].
  - intros r regs' Hrun. split; [by eapply get_parent_ensure|].
    split; [by eapply get_parent_again|].
    revert name Hrun. induction depth as [|depth IH]; intros name Hrun [|depth'] Hle;
      try done; [lia|].
    simpl in *. destruct (regs !! name); [done|].
    destruct (location_to_region w !! name); [|done].
    apply IH; [done|lia].
Qed.

(** X18: Where the recorded parents lead in a circle, [get_parent] returns at no
    depth: for a set of names each mapped to a name of the set, none of them
    registered, every call on one of them ends in [RecursionError]. *)
Theorem get_parent_never_ends (w : World) (names : gset string)
    (regs : gmap string Region) (depth : nat) (name : string) :
  (∀ n, n ∈ names → ∃ p, location_to_region w !! n = Some p ∧ p ∈ names) →
  (∀ n, n ∈ names → regs !! n = None) →
  name ∈ names →
  get_parent w depth name regs = Raise RecursionError.
Proof.
  intros Hclosed Hfree. revert name.
  induction depth as [|depth IH]; intros name Hin; [done|].
  simpl. rewrite (Hfree name Hin).
  destruct (Hclosed name Hin) as (p & -> & Hp). by apply IH.
Qed.

Lemma get_parent_never_ends_witness :
  get_parent cycle_graph 1000 "L1" ∅ = Raise RecursionError.
Proof.
  apply (get_parent_never_ends cycle_graph {["L1"; "L2"]} ∅ 1000 "L1").
  - intros n Hn. apply elem_of_union in Hn as [Hn|Hn];
      apply elem_of_singleton in Hn; rewrite Hn.
    + exists "L2". split; [reflexivity|].
      apply elem_of_union_r, elem_of_singleton. reflexivity.
    + exists "L1". split; [reflexivity|].
      apply elem_of_union_l, elem_of_singleton. reflexivity.
  - intros n _. apply lookup_empty.
  - apply elem_of_union_l, elem_of_singleton. reflexivity.
Defined.

(** ** The registry and the edges, exactly *)

(** X19: Where every chain ends and every rule text compiles, the regions of the
    graph are the regions of the root and of the start, for every rule key
    whose target is not elided the region of its parent and the region of
    its target, and the regions the events and the names of the catalogue
    resolve to; none stands under an elided name. The edges of a region are,
    in this order, the edge from the root to the start and one edge for
    every rule key whose target is not elided and whose parent resolves to
    the region, in the order of the rule table. *)
Theorem create_regions_registry (w : World) (depth : nat) :
  resolvable w depth = true → compilable w = true →
  ∃ bd,
    create_regions w depth = Ok bd
    ∧ (∀ name, is_Some (regions bd !! name)
         ↔ name = own w depth "Menu" ∨ name = own w depth start_region
           ∨ (∃ p t rule, ((p, t), rule) ∈ rules w ∧ ¬ mapped w t
                          ∧ (name = own w depth p ∨ name = t))
           ∨ (∃ x, (x ∈ events w ∨ x ∈ location_list w) ∧ name = own w depth x))
    ∧ (∀ name, is_Some (regions bd !! name) → ¬ mapped w name)
    ∧ (∀ name, exits_of (regions bd) name
               = menu_exit w depth name ++ (rules w ≫= rule_exit w depth name)).
Proof.
  intros Hr Hc.
  destruct (create_regions_built w depth Hr Hc) as (bd & Hbd & Hb).
  pose proof Hb as (Htidy & Hdom & Hexits & _ & _ & _).
  exists bd. split; [done|]. split; [|split].
  - intros name. rewrite <- elem_of_dom, Hdom. unfold regions_built.
    rewrite !elem_of_union, !elem_of_list_to_set, !elem_of_singleton.
    rewrite list_elem_of_bind, !list_elem_of_fmap. split.
    + intros [[[[-> | ->]|([[p t] rule] & Hn & Hin)]|(x & -> & Hx)]
             |(x & -> & Hx)].
      * by left.
      * by right; left.
      * right; right; left. unfold rule_regions in Hn. simpl in Hn.
        destruct (decide (mapped w t)) as [Hm|Hm]; [by apply elem_of_nil in Hn|].
        exists p, t, rule. split; [done|]. split; [done|].
        apply elem_of_cons in Hn as [->|Hn]; [by left|].
        apply list_elem_of_singleton in Hn as ->. by right.
      * right; right; right. exists x. split; [|done]. left.
        by apply elem_of_elements.
      * right; right; right. exists x. split; [|done]. right.
        by apply elem_of_dict_keys in Hx as [? _].
    + intros [->|[->|[(p & t & rule & Hin & Hm & Hn)|(x & [Hx|Hx] & ->)]]].
      * left; left; left. by left.
      * left; left; left. by right.
      * left; left; right. exists ((p, t), rule). split; [|done].
        unfold rule_regions. simpl. rewrite decide_False by done.
        destruct Hn as [->| ->]; [by left|]. right. by left.
      * left; right. exists x. split; [done|]. by apply elem_of_elements.
      * right. exists x. split; [done|]. apply elem_of_dict_keys.
        split; [done|apply not_elem_of_empty].
  - intros name Hname [p Hp]. specialize (Htidy name Hname). congruence.
  - intros name. by rewrite Hexits.
Qed.

Lemma create_regions_registry_witness :
  ∃ bd,
    create_regions demo_graph 3 = Ok bd
    ∧ is_Some (regions bd !! "L3")
    ∧ exits_of (regions bd) "Menu"
      = [{| connected_region := "rm_start_0[100390]"; entrance_rule := None |}].
Proof.
  destruct (create_regions_registry demo_graph 3) as (bd & Hrun & Hdom & _ & Hexits);
    [vm_compute; reflexivity..|].
  exists bd. split; [exact Hrun|]. split.
  - apply Hdom. right; right; right. exists "L3". split; [right; in_list|].
    clear. vm_compute. reflexivity.
  - rewrite Hexits. clear. vm_compute. reflexivity.
Defined.

